(** * Amazon Music metadata client: a shallow embedding of [src/amazonmusic.ts]

    The development follows the TypeScript class [AmazonMusicClient]:
    - strings are sequences of UTF-16 code units, as in JavaScript;
    - regular expressions are syntax trees run by a backtracking matcher
      with the priorities of the ECMAScript matcher (greedy and lazy
      loops, ordered alternatives, capture groups, [$]);
    - asynchronous, failing code ([fetch], [await], [try]/[catch]) is
      written in a state-and-exception monad over an abstract network. *)

From Stdlib Require Import ZArith NArith List Ascii Lia Bool.
From stdpp Require Import base strings list gmap.

Local Set Warnings "-register-all".
Local Open Scope N_scope.

(** ** JavaScript strings *)

(** A string is a list of UTF-16 code units. *)
Definition jsstring := list N.

(** ASCII literal of the source as a [jsstring]. *)
Definition str (s : string) : jsstring :=
  map N_of_ascii (String.list_ascii_of_string s).

Definition is_empty (s : jsstring) : bool :=
  match s with [] => true | _ => false end.

(** [WhiteSpace] and [LineTerminator] code points of ECMAScript: what
    [String.prototype.trim] strips and what [\s] matches. *)
Definition ws_ranges : list (N * N) :=
  [(9, 13); (32, 32); (160, 160); (5760, 5760); (8192, 8202);
   (8232, 8233); (8239, 8239); (8287, 8287); (12288, 12288);
   (65279, 65279)].

Definition in_range (x : N) (r : N * N) : bool :=
  (fst r <=? x) && (x <=? snd r).

Definition is_ws (x : N) : bool := existsb (in_range x) ws_ranges.

(** Line terminators: LF, CR, LS, PS.  [.] does not match them. *)
Definition is_line_terminator (x : N) : bool :=
  (x =? 10) || (x =? 13) || (x =? 8232) || (x =? 8233).

Fixpoint trimStart (s : jsstring) : jsstring :=
  match s with
  | [] => []
  | x :: s' => if is_ws x then trimStart s' else s
  end.

Definition trimEnd (s : jsstring) : jsstring := rev (trimStart (rev s)).

(** [String.prototype.trim]. *)
Definition trim (s : jsstring) : jsstring := trimEnd (trimStart s).

Definition jseqb (a b : jsstring) : bool := bool_decide (a = b).

(** [s.startsWith(p)]. *)
Fixpoint startsWith (p s : jsstring) : bool :=
  match p, s with
  | [], _ => true
  | _ :: _, [] => false
  | a :: p', b :: s' => (a =? b) && startsWith p' s'
  end.

(** [s.endsWith(p)]. *)
Definition endsWith (p s : jsstring) : bool := startsWith (rev p) (rev s).

(** [s.includes(p)]. *)
Fixpoint includes (p s : jsstring) : bool :=
  startsWith p s ||
  match s with
  | [] => false
  | _ :: s' => includes p s'
  end.

(** [s.split(sep)] for a non-empty separator: the pieces between the
    leftmost non-overlapping occurrences of [sep].  [skip] counts the code
    units of an occurrence still to be passed over, [cur] is the piece
    being read, reversed. *)
Fixpoint split_go (sep : jsstring) (skip : nat) (cur : jsstring)
    (s : jsstring) : list jsstring :=
  match s with
  | [] => [rev cur]
  | x :: s' =>
    match skip with
    | S n => split_go sep n cur s'
    | O =>
      if startsWith sep s
      then rev cur :: split_go sep (length sep - 1)%nat [] s'
      else split_go sep O (x :: cur) s'
    end
  end.

Definition split (sep s : jsstring) : list jsstring := split_go sep O [] s.

(** [s.replace(pat, by)] with a string pattern: the first occurrence only. *)
Fixpoint replace_first (pat by_ s : jsstring) : jsstring :=
  if startsWith pat s then by_ ++ drop (length pat) s
  else match s with
       | [] => []
       | x :: s' => x :: replace_first pat by_ s'
       end.

(** ** Regular expressions *)

Inductive regex :=
| Eps
| Eos                              (* $ (no multiline flag) *)
| Chr (c : N)                      (* a pattern character *)
| Cls (neg : bool) (rs : list (N * N))  (* [...] and [^...] as ranges *)
| Dot                              (* . *)
| Seq (r1 r2 : regex)
| Alt (r1 r2 : regex)              (* r1|r2, r1 tried first *)
| Opt (r : regex)                  (* r? *)
| Star (greedy : bool) (r : regex) (* r* and r*? *)
| Grp (i : nat) (r : regex).       (* capture group number i *)

(** [r+] for a body without capture groups. *)
Definition Plus (r : regex) : regex := Seq r (Star true r).

Fixpoint lit_go (l : jsstring) : regex :=
  match l with
  | [] => Eps
  | [c] => Chr c
  | c :: l' => Seq (Chr c) (lit_go l')
  end.

(** A run of pattern characters. *)
Definition lit (s : string) : regex := lit_go (str s).

Fixpoint seqs (l : list regex) : regex :=
  match l with
  | [] => Eps
  | [r] => r
  | r :: l' => Seq r (seqs l')
  end.

Fixpoint alts (l : list regex) : regex :=
  match l with
  | [] => Eps
  | [r] => r
  | r :: l' => Alt r (alts l')
  end.

(** Case folding of the [i] flag.  Without the [u] flag, Canonicalize maps a
    code unit to its upper case, except that a code unit above 127 is never
    mapped to one below 128.  Every pattern character and class bound of
    this program that has case is ASCII, so two code units are identified
    exactly when they are the same ASCII letter in either case. *)
Definition swapcase (x : N) : N :=
  if (65 <=? x) && (x <=? 90) then x + 32
  else if (97 <=? x) && (x <=? 122) then x - 32
  else x.

Definition chr_eq (ic : bool) (c x : N) : bool :=
  (x =? c) || (ic && (swapcase x =? c)).

Definition cls_mem (ic neg : bool) (rs : list (N * N)) (x : N) : bool :=
  xorb neg (existsb (in_range x) rs || (ic && existsb (in_range (swapcase x)) rs)).

(** Captures: the latest binding of a group number comes first. *)
Definition captures := list (nat * jsstring).

Fixpoint group (i : nat) (caps : captures) : option jsstring :=
  match caps with
  | [] => None
  | (j, v) :: caps' => if Nat.eqb i j then Some v else group i caps'
  end.

Section Matcher.
Context {R : Type}.
Variable ic : bool.   (* the i flag *)

(** The loop of [r*] (greedy) and [r*?] (lazy) over the matcher [body] of
    [r].  An iteration that consumes nothing is rejected, as the
    ECMAScript RepeatMatcher does; so each iteration shortens the input
    and [S (length s)] rounds are always enough. *)
Fixpoint star_loop (g : bool)
    (body : jsstring -> captures -> (jsstring -> captures -> option R) -> option R)
    (k : jsstring -> captures -> option R)
    (fuel : nat) (s : jsstring) (caps : captures) : option R :=
  match fuel with
  | O => None
  | S fuel' =>
    if g then
      match body s caps
              (fun s' caps' =>
                 if (length s' <? length s)%nat
                 then star_loop g body k fuel' s' caps' else None) with
      | Some x => Some x
      | None => k s caps
      end
    else
      match k s caps with
      | Some x => Some x
      | None =>
        body s caps
          (fun s' caps' =>
             if (length s' <? length s)%nat
             then star_loop g body k fuel' s' caps' else None)
      end
  end.

(** The backtracking matcher in continuation-passing style: [rmatch r s
    caps k] matches [r] at the head of [s] and passes what is left of [s]
    to [k]; when [k] fails, the next choice of [r] is tried. *)
Fixpoint rmatch (r : regex) (s : jsstring) (caps : captures)
    (k : jsstring -> captures -> option R) {struct r} : option R :=
  match r with
  | Eps => k s caps
  | Eos => match s with [] => k s caps | _ :: _ => None end
  | Chr c =>
    match s with
    | x :: s' => if chr_eq ic c x then k s' caps else None
    | [] => None
    end
  | Cls neg rs =>
    match s with
    | x :: s' => if cls_mem ic neg rs x then k s' caps else None
    | [] => None
    end
  | Dot =>
    match s with
    | x :: s' => if is_line_terminator x then None else k s' caps
    | [] => None
    end
  | Seq r1 r2 => rmatch r1 s caps (fun s' caps' => rmatch r2 s' caps' k)
  | Alt r1 r2 =>
    match rmatch r1 s caps k with
    | Some x => Some x
    | None => rmatch r2 s caps k
    end
  | Opt r1 =>
    match rmatch r1 s caps
            (fun s' caps' =>
               if (length s' <? length s)%nat then k s' caps' else None) with
    | Some x => Some x
    | None => k s caps
    end
  | Star g r1 => star_loop g (rmatch r1) k (S (length s)) s caps
  | Grp i r1 =>
    rmatch r1 s caps
      (fun s' caps' =>
         k s' ((i, take (length s - length s') s) :: caps'))
  end.
End Matcher.

(** A match starting at the head of [s]: its length and its captures. *)
Definition match_here (ic : bool) (r : regex) (s : jsstring)
    : option (nat * captures) :=
  rmatch ic r s [] (fun s' caps => Some ((length s - length s')%nat, caps)).

(** [r.exec(s)] and [s.match(r)] without the [g] flag: the leftmost match. *)
Fixpoint exec (ic : bool) (r : regex) (s : jsstring) : option captures :=
  match match_here ic r s with
  | Some (_, caps) => Some caps
  | None =>
    match s with
    | [] => None
    | _ :: s' => exec ic r s'
    end
  end.

(** The loop [while ((match = r.exec(s)) !== null)] with the [g] flag: the
    successive matches, each search resuming where the previous match
    ended ([lastIndex]).  [skip] counts the code units of the last match
    still to be passed over.  The patterns run this way never match the
    empty string (see [scan_patterns_nonempty]). *)
Fixpoint exec_all_go (ic : bool) (r : regex) (skip : nat) (s : jsstring)
    : list captures :=
  match s with
  | [] => []
  | _ :: s' =>
    match skip with
    | S n => exec_all_go ic r n s'
    | O =>
      match match_here ic r s with
      | Some (len, caps) => caps :: exec_all_go ic r (len - 1)%nat s'
      | None => exec_all_go ic r O s'
      end
    end
  end.

Definition exec_all (ic : bool) (r : regex) (s : jsstring) : list captures :=
  exec_all_go ic r O s.

(** ** The URL parser *)

Record ParsedUrl := { parsed_type : jsstring; parsed_id : jsstring }.

Definition alnum : regex := Cls false [(65, 90); (97, 122); (48, 57)].

(** [URL_PATTERN], flag [i]; piece by piece:
    - [https?:\/\/music\.amazon\.] then [[^/]+] then [\/];
    - group 1, [type]: [albums|tracks|artists|playlists|user-playlists];
    - [\/], then group 2, [id]: [[A-Za-z0-9]+];
    - optionally [\/] and [[^/?#]+];
    - optionally one of [/] or [?] and then any run of [.];
    - [$]. *)
Definition URL_PATTERN : regex :=
  seqs [ lit "http"; Opt (lit "s"); lit "://music.amazon.";
         Plus (Cls true [(47, 47)]);
         lit "/";
         Grp 1 (alts [lit "albums"; lit "tracks"; lit "artists";
                      lit "playlists"; lit "user-playlists"]);
         lit "/";
         Grp 2 (Plus alnum);
         Opt (Seq (lit "/") (Plus (Cls true [(47, 47); (63, 63); (35, 35)])));
         Opt (Seq (Cls false [(47, 47); (63, 63)]) (Star true Dot));
         Eos ].

Definition parseUrl (url : jsstring) : option ParsedUrl :=
  match exec true URL_PATTERN (trim url) with
  | None => None
  | Some caps =>
    match group 1 caps, group 2 caps with
    | Some type, Some id =>
      if is_empty type || is_empty id then None
      else Some {| parsed_type := type; parsed_id := id |}
    | _, _ => None
    end
  end.

(** ** JavaScript values and the host environment *)

(** A Number that is an integer or NaN: what [parseInt] hands to [search]
    and what a configuration gives as [searchLimit]. *)
Inductive jsint := NaN | Int (z : Z).

(** Values that [JSON.parse] returns and that the loosely typed metadata
    bag holds.  Numbers are doubles; their type and arithmetic are left to
    the host ([number]).  The first binding of a key in [VObj] is the
    property's value. *)
Inductive jsval (number : Type) :=
| VUndef
| VNull
| VBool (b : bool)
| VNum (n : number)
| VStr (s : jsstring)
| VArr (l : list (jsval number))
| VObj (l : list (jsstring * jsval number)).

Arguments VUndef {number}.
Arguments VNull {number}.
Arguments VBool {number} b.
Arguments VNum {number} n.
Arguments VStr {number} s.
Arguments VArr {number} l.
Arguments VObj {number} l.

(** What is thrown: an [Error] object with its [name] and [message], or a
    value that is not an [Error]. *)
Inductive exn := ErrorObj (name message : jsstring) | NonError.

Inductive result (A : Type) := Ok (a : A) | Throw (e : exn).
Arguments Ok {A} a.
Arguments Throw {A} e.

Record Request (number : Type) := {
  req_url : jsstring;
  req_method : option jsstring;
  req_headers : list (jsstring * jsstring);
  req_abort_after : option number   (* the AbortController timer *)
}.
Arguments req_url {number}.
Arguments req_method {number}.
Arguments req_headers {number}.
Arguments req_abort_after {number}.

(** A [Response]; reading the body is a further step on the network. *)
Record Response (number World : Type) := {
  resp_ok : bool;
  resp_status : number;
  resp_statusText : jsstring;
  resp_text : World -> result jsstring * World
}.
Arguments resp_ok {number World}.
Arguments resp_status {number World}.
Arguments resp_statusText {number World}.
Arguments resp_text {number World}.

(** What the program takes from the JavaScript runtime and the network.
    A [None] of a partial built-in is the exception it throws. *)
Record Host := {
  number : Type;
  num_of_Z : Z -> number;                   (* integer literals *)
  num_truthy : number -> bool;              (* false for 0 and NaN *)
  num_add : number -> number -> number;
  num_mul : number -> number -> number;
  num_toString : number -> jsstring;
  parseInt : jsstring -> number;
  ToString_object : jsval number -> option jsstring; (* arrays and objects *)
  JSON_parse : jsstring -> option (jsval number);
  encodeURIComponent : jsstring -> option jsstring;
  decodeURIComponent : jsstring -> option jsstring;
  World : Type;                             (* the state of the network *)
  fetch : Request number -> World -> result (Response number World) * World
}.

(** ** Data model *)

Set Implicit Arguments.
Set Maximal Implicit Insertion.

Section Data.
Context (number : Type).

Record Artist := { artist_name : jsval number; artist_url : option jsstring }.

Record Album := { album_name : jsval number; album_url : option jsstring }.

Record Track := {
  track_id : jsstring;
  track_name : jsstring;
  track_title : option jsstring;
  track_artist : Artist;
  track_duration : number;
  track_url : jsstring;
  track_image : option jsstring;
  track_album : Album
}.

Record AlbumFull := {
  af_name : jsstring;
  af_url : jsstring;
  af_image : jsstring;
  af_artist : Artist;
  af_songs : list Track;
  af_totalSongs : number
}.

Record ArtistFull := {
  arf_name : jsstring;
  arf_url : jsstring;
  arf_image : jsstring;
  arf_topSongs : list Track
}.

Record Playlist := {
  pl_name : jsstring;
  pl_url : jsstring;
  pl_image : jsstring;
  pl_createdBy : jsstring;
  pl_songs : list Track;
  pl_totalSongs : number
}.

(** The [metadata] bag of [parseOpenGraph].  [artist] and [album] can
    receive any value of the JSON-LD block; [duration] is a number; the
    other fields only ever receive strings. *)
Record Metadata := {
  md_url : jsstring;
  md_title : jsstring;
  md_description : jsstring;
  md_image : jsstring;
  md_type : jsstring;
  md_site_name : jsstring;
  md_audio : jsstring;
  md_artist : jsval number;
  md_album : jsval number;
  md_albumUrl : jsstring;
  md_duration : number
}.

Definition set_title (v : jsstring) (m : Metadata) : Metadata :=
  {| md_url := md_url m; md_title := v; md_description := md_description m;
     md_image := md_image m; md_type := md_type m;
     md_site_name := md_site_name m; md_audio := md_audio m;
     md_artist := md_artist m; md_album := md_album m;
     md_albumUrl := md_albumUrl m; md_duration := md_duration m |}.

Definition set_description (v : jsstring) (m : Metadata) : Metadata :=
  {| md_url := md_url m; md_title := md_title m; md_description := v;
     md_image := md_image m; md_type := md_type m;
     md_site_name := md_site_name m; md_audio := md_audio m;
     md_artist := md_artist m; md_album := md_album m;
     md_albumUrl := md_albumUrl m; md_duration := md_duration m |}.

Definition set_image (v : jsstring) (m : Metadata) : Metadata :=
  {| md_url := md_url m; md_title := md_title m;
     md_description := md_description m;
     md_image := v; md_type := md_type m;
     md_site_name := md_site_name m; md_audio := md_audio m;
     md_artist := md_artist m; md_album := md_album m;
     md_albumUrl := md_albumUrl m; md_duration := md_duration m |}.

Definition set_type (v : jsstring) (m : Metadata) : Metadata :=
  {| md_url := md_url m; md_title := md_title m;
     md_description := md_description m;
     md_image := md_image m; md_type := v;
     md_site_name := md_site_name m; md_audio := md_audio m;
     md_artist := md_artist m; md_album := md_album m;
     md_albumUrl := md_albumUrl m; md_duration := md_duration m |}.

Definition set_site_name (v : jsstring) (m : Metadata) : Metadata :=
  {| md_url := md_url m; md_title := md_title m;
     md_description := md_description m;
     md_image := md_image m; md_type := md_type m;
     md_site_name := v; md_audio := md_audio m;
     md_artist := md_artist m; md_album := md_album m;
     md_albumUrl := md_albumUrl m; md_duration := md_duration m |}.

Definition set_audio (v : jsstring) (m : Metadata) : Metadata :=
  {| md_url := md_url m; md_title := md_title m;
     md_description := md_description m;
     md_image := md_image m; md_type := md_type m;
     md_site_name := md_site_name m; md_audio := v;
     md_artist := md_artist m; md_album := md_album m;
     md_albumUrl := md_albumUrl m; md_duration := md_duration m |}.

Definition set_artist (v : jsval number) (m : Metadata) : Metadata :=
  {| md_url := md_url m; md_title := md_title m;
     md_description := md_description m;
     md_image := md_image m; md_type := md_type m;
     md_site_name := md_site_name m; md_audio := md_audio m;
     md_artist := v; md_album := md_album m;
     md_albumUrl := md_albumUrl m; md_duration := md_duration m |}.

Definition set_album (v : jsval number) (m : Metadata) : Metadata :=
  {| md_url := md_url m; md_title := md_title m;
     md_description := md_description m;
     md_image := md_image m; md_type := md_type m;
     md_site_name := md_site_name m; md_audio := md_audio m;
     md_artist := md_artist m; md_album := v;
     md_albumUrl := md_albumUrl m; md_duration := md_duration m |}.

Definition set_albumUrl (v : jsstring) (m : Metadata) : Metadata :=
  {| md_url := md_url m; md_title := md_title m;
     md_description := md_description m;
     md_image := md_image m; md_type := md_type m;
     md_site_name := md_site_name m; md_audio := md_audio m;
     md_artist := md_artist m; md_album := md_album m;
     md_albumUrl := v; md_duration := md_duration m |}.

Definition set_duration (v : number) (m : Metadata) : Metadata :=
  {| md_url := md_url m; md_title := md_title m;
     md_description := md_description m;
     md_image := md_image m; md_type := md_type m;
     md_site_name := md_site_name m; md_audio := md_audio m;
     md_artist := md_artist m; md_album := md_album m;
     md_albumUrl := md_albumUrl m; md_duration := v |}.

(** The configuration and the state of a client. *)
Record AmazonMusicConfig := {
  apiUrl : jsstring;
  cfg_searchLimit : option jsint;
  userAgent : option jsstring;
  cfg_timeout : option number
}.

Record AmazonMusicClient := {
  baseUrl : jsstring;
  searchLimit : jsint;
  timeout : number
}.

(** What [loadFromUrl] returns. *)
Inductive Resource :=
| OfTrack (t : Track)
| OfAlbum (a : AlbumFull)
| OfArtist (a : ArtistFull)
| OfPlaylist (p : Playlist).

End Data.

Unset Maximal Implicit Insertion.
Unset Implicit Arguments.
Section Client.
Context (H : Host).

Abbreviation num := (number H).
Abbreviation value := (jsval num).
Abbreviation Metadata := (Metadata num).

(** *** The monad of asynchronous, failing code *)

Definition M (A : Type) : Type := World H -> result A * World H.

Definition ret {A} (a : A) : M A := fun w => (Ok a, w).

Definition throw {A} (e : exn) : M A := fun w => (Throw e, w).

Definition bind {A B} (m : M A) (k : A -> M B) : M B :=
  fun w => match m w with
           | (Ok a, w') => k a w'
           | (Throw e, w') => (Throw e, w')
           end.

(** [try { m } catch (e) { h e }]. *)
Definition try_catch {A} (m : M A) (h : exn -> M A) : M A :=
  fun w => match m w with
           | (Ok a, w') => (Ok a, w')
           | (Throw e, w') => h e w'
           end.

(** A partial built-in: [None] throws [e]. *)
Definition or_throw {A} (e : exn) (o : option A) : M A :=
  match o with Some a => ret a | None => throw e end.

Notation "x <- m ;; k" := (bind m (fun x => k))
  (at level 100, m at next level, right associativity).

Definition TypeError : exn := ErrorObj (str "TypeError") [].
Definition URIError : exn := ErrorObj (str "URIError") (str "URI malformed").

(** *** Values *)

Definition truthy (v : value) : bool :=
  match v with
  | VUndef | VNull => false
  | VBool b => b
  | VNum n => num_truthy H n
  | VStr s => negb (is_empty s)
  | VArr _ | VObj _ => true
  end.

(** [a || b]. *)
Definition js_or (a b : value) : value := if truthy a then a else b.

Fixpoint assoc (key : jsstring) (l : list (jsstring * value)) : value :=
  match l with
  | [] => VUndef
  | (k, v) :: l' => if jseqb key k then v else assoc key l'
  end.

(** [v[key]] for the keys read by this program (none of them is inherited
    from a prototype): [None] is the TypeError of reading a property of
    [null] or [undefined]. *)
Definition get_prop (v : value) (key : jsstring) : option value :=
  match v with
  | VUndef | VNull => None
  | VObj l => Some (assoc key l)
  | _ => Some VUndef
  end.

(** [v === s] for a string [s]. *)
Definition strict_eq_str (v : value) (s : jsstring) : bool :=
  match v with VStr s' => jseqb s' s | _ => false end.

(** ToString; only an array or an object can throw. *)
Definition ToString (v : value) : option jsstring :=
  match v with
  | VUndef => Some (str "undefined")
  | VNull => Some (str "null")
  | VBool true => Some (str "true")
  | VBool false => Some (str "false")
  | VNum n => Some (num_toString H n)
  | VStr s => Some s
  | VArr _ | VObj _ => ToString_object H v
  end.

(** *** parseOpenGraph *)

Definition dquote : regex := Chr 34.
Definition spaces : regex := Plus (Cls false ws_ranges).   (* \s+ *)
Definition digits : regex := Plus (Cls false [(48, 57)]).  (* \d+ *)

(** [metaRegex], flag [g]: the opening of a meta tag, [\s+],
    [property=] and a double-quoted value made of group 1 [(og:|music:)]
    and group 2 (one or more code units other than the double quote),
    [\s+], [content=] and the double-quoted group 3 (any number of code
    units other than the double quote). *)
Definition metaRegex : regex :=
  seqs [ lit "<meta"; spaces; lit "property="; dquote;
         Grp 1 (Alt (lit "og:") (lit "music:"));
         Grp 2 (Plus (Cls true [(34, 34)]));
         dquote; spaces; lit "content="; dquote;
         Grp 3 (Star true (Cls true [(34, 34)]));
         dquote ].

(** The pattern of the title element, flag [i]: the opening tag,
    group 1 (any number of code units other than [<]) and the closing
    tag. *)
Definition titleRegex : regex :=
  seqs [ lit "<title>"; Grp 1 (Star true (Cls true [(60, 60)]));
         lit "</title>" ].

(** The pattern of the JSON-LD block, flag [i]: the opening script tag
    of type application/ld+json, the lazy group 1 [([\s\S]*?)] and the
    closing tag. *)
Definition jsonLdRegex : regex :=
  seqs [ lit "<script type="; dquote; lit "application/ld+json"; dquote;
         lit ">"; Grp 1 (Star false (Cls false [(0, 65535)]));
         lit "</script>" ].

(** The pattern of an ISO 8601 duration, no flag: [PT] and then,
    each optional, group 1 [(\d+)] with [H], group 2 [(\d+)] with [M],
    group 3 [(\d+)] with [S]. *)
Definition durationRegex : regex :=
  seqs [ lit "PT";
         Opt (Seq (Grp 1 digits) (lit "H"));
         Opt (Seq (Grp 2 digits) (lit "M"));
         Opt (Seq (Grp 3 digits) (lit "S")) ].

Definition quotes : list (N * N) := [(34, 34); (39, 39)].

(** The pattern of the description, flag [i]: [(?:from|on)], [\s+], an
    optional quote, group 1 (one or more code units that are not quotes),
    an optional quote. *)
Definition albumRegex : regex :=
  seqs [ Alt (lit "from") (lit "on"); spaces; Opt (Cls false quotes);
         Grp 1 (Plus (Cls true quotes)); Opt (Cls false quotes) ].

(** [m[i]] of a match: a group that did not take part is [undefined]. *)
Definition group_or_empty (i : nat) (caps : captures) : jsstring :=
  match group i caps with Some v => v | None => [] end.

Definition init_metadata (url : jsstring) : Metadata :=
  {| md_url := url; md_title := []; md_description := []; md_image := [];
     md_type := []; md_site_name := []; md_audio := [];
     md_artist := VStr []; md_album := VStr []; md_albumUrl := [];
     md_duration := num_of_Z H 0 |}.

(** The body of the [while] loop over the meta tags, for one match. *)
Definition meta_tag (caps : captures) (metadata : Metadata) : Metadata :=
  let prefix := group_or_empty 1 caps in
  let property := group_or_empty 2 caps in
  let content := group_or_empty 3 caps in
  if jseqb prefix (str "og:") then
    if jseqb property (str "title") then set_title content metadata
    else if jseqb property (str "description") then
      set_description content metadata
    else if jseqb property (str "image")
            || jseqb property (str "image:secure_url") then
      if is_empty (md_image metadata) then set_image content metadata
      else metadata
    else if jseqb property (str "type") then set_type content metadata
    else if jseqb property (str "site_name") then
      set_site_name content metadata
    else if jseqb property (str "audio")
            || jseqb property (str "audio:url")
            || jseqb property (str "audio:secure_url") then
      if is_empty (md_audio metadata) then set_audio content metadata
      else metadata
    else metadata
  else if jseqb prefix (str "music:") then
    if jseqb property (str "album") then set_albumUrl content metadata
    else metadata
  else metadata.

(** Stage 1: the meta tags, in the order of the markup. *)
Definition stage_meta (html : jsstring) (metadata : Metadata) : Metadata :=
  fold_left (fun m caps => meta_tag caps m)
            (exec_all false metaRegex html) metadata.

(** Stage 2: the title element, when no title was found. *)
Definition stage_title (html : jsstring) (metadata : Metadata) : Metadata :=
  if is_empty (md_title metadata) then
    match exec true titleRegex html with
    | Some titleMatch =>
      set_title
        (trim (replace_first (str " | Amazon Music") []
                 (group_or_empty 1 titleMatch)))
        metadata
    | None => metadata
    end
  else metadata.

(** The duration of the JSON-LD block; [None] is the TypeError of
    converting an object to a string. *)
Definition jsonld_duration (jsonLd : value) (metadata : Metadata)
    : option Metadata :=
  match get_prop jsonLd (str "duration") with
  | None => None
  | Some duration =>
    if truthy duration then
      match ToString duration with
      | None => None
      | Some text =>
        match exec false durationRegex text with
        | Some durationMatch =>
          let part i :=
            match group i durationMatch with
            | Some v => if is_empty v then str "0" else v
            | None => str "0"
            end in
          let hours := parseInt H (part 1%nat) in
          let minutes := parseInt H (part 2%nat) in
          let seconds := parseInt H (part 3%nat) in
          Some (set_duration
                  (num_add H
                     (num_add H (num_mul H hours (num_of_Z H 3600))
                                (num_mul H minutes (num_of_Z H 60)))
                     seconds)
                  metadata)
        | None => Some metadata
        end
      end
    else Some metadata
  end.

(** The body of the [try] of stage 3, for a parsed block.  Reading a
    property of [null] throws; the [catch] keeps the assignments made
    before the exception. *)
Definition jsonld_fields (jsonLd : value) (metadata : Metadata) : Metadata :=
  match get_prop jsonLd (str "@type") with
  | None => metadata
  | Some ty =>
    if strict_eq_str ty (str "MusicRecording") then
      match get_prop jsonLd (str "byArtist") with
      | None => metadata
      | Some byArtist =>
        let metadata1 :=
          if truthy byArtist then
            match get_prop byArtist (str "name"),
                  get_prop byArtist (str "@id") with
            | Some name, Some aid =>
              set_artist (js_or (js_or name aid) (VStr [])) metadata
            | _, _ => metadata
            end
          else metadata in
        match get_prop jsonLd (str "inAlbum") with
        | None => metadata1
        | Some inAlbum =>
          let metadata2 :=
            if truthy inAlbum then
              match get_prop inAlbum (str "name") with
              | Some name => set_album (js_or name (VStr [])) metadata1
              | None => metadata1
              end
            else metadata1 in
          match jsonld_duration jsonLd metadata2 with
          | Some metadata3 => metadata3
          | None => metadata2
          end
        end
      end
    else metadata
  end.

(** Stage 3: the JSON-LD block. *)
Definition stage_jsonld (html : jsstring) (metadata : Metadata) : Metadata :=
  match exec true jsonLdRegex html with
  | Some jsonLdMatch =>
    match JSON_parse H (group_or_empty 1 jsonLdMatch) with
    | Some jsonLd => jsonld_fields jsonLd metadata
    | None => metadata                                (* caught *)
    end
  | None => metadata
  end.

Definition en_dash : N := 8211.

(** [[' – ', ' - ', ' | ']]. *)
Definition separators : list jsstring :=
  [ [32; en_dash; 32]; str " - "; str " | " ].

Definition last_part (parts : list jsstring) : jsstring :=
  match last parts with Some p => p | None => [] end.

(** The [for] loop of stage 4 over the separators still to try. *)
Fixpoint artist_from_title (seps : list jsstring) (metadata : Metadata)
    : Metadata :=
  match seps with
  | [] => metadata
  | sep :: seps' =>
    if includes sep (md_title metadata) then
      let parts := split sep (md_title metadata) in
      if (2 <=? length parts)%nat then
        let potentialArtist := trim (last_part parts) in
        if negb (is_empty potentialArtist)
           && negb (jseqb potentialArtist (str "Amazon Music"))
        then set_artist (VStr potentialArtist) metadata   (* break *)
        else metadata                                     (* break *)
      else artist_from_title seps' metadata
    else artist_from_title seps' metadata
  end.

(** Stage 4: the artist from the title. *)
Definition stage_artist (metadata : Metadata) : Metadata :=
  if negb (truthy (md_artist metadata)) && negb (is_empty (md_title metadata))
  then artist_from_title separators metadata
  else metadata.

(** Stage 5: the album from the description. *)
Definition stage_album (metadata : Metadata) : Metadata :=
  if negb (truthy (md_album metadata))
     && negb (is_empty (md_description metadata))
  then
    match exec true albumRegex (md_description metadata) with
    | Some albumMatch =>
      let potentialAlbum := trim (group_or_empty 1 albumMatch) in
      if negb (is_empty potentialAlbum)
         && negb (jseqb potentialAlbum (str "Amazon Music"))
      then set_album (VStr potentialAlbum) metadata
      else metadata
    | None => metadata
    end
  else metadata.

(** The metadata after the first [k] stages. *)
Definition stages (k : nat) (html url : jsstring) : Metadata :=
  let m0 := init_metadata url in
  let m1 := if (1 <=? k)%nat then stage_meta html m0 else m0 in
  let m2 := if (2 <=? k)%nat then stage_title html m1 else m1 in
  let m3 := if (3 <=? k)%nat then stage_jsonld html m2 else m2 in
  let m4 := if (4 <=? k)%nat then stage_artist m3 else m3 in
  if (5 <=? k)%nat then stage_album m4 else m4.

Definition parseOpenGraph (html url : jsstring) : Metadata :=
  stage_album
    (stage_artist
       (stage_jsonld html (stage_title html (stage_meta html (init_metadata url))))).

(** *** The client *)

Abbreviation Track := (Track num).
Abbreviation AlbumFull := (AlbumFull num).
Abbreviation ArtistFull := (ArtistFull num).
Abbreviation Playlist := (Playlist num).
Abbreviation Resource := (Resource num).
Abbreviation AmazonMusicConfig := (AmazonMusicConfig num).
Abbreviation AmazonMusicClient := (AmazonMusicClient num).

Definition jsint_truthy (n : jsint) : bool :=
  match n with NaN => false | Int z => negb (z =? 0)%Z end.

(** [Math.min] and [Math.max]: NaN when an argument is NaN. *)
Definition math_min (a b : jsint) : jsint :=
  match a, b with Int x, Int y => Int (Z.min x y) | _, _ => NaN end.

Definition math_max (a b : jsint) : jsint :=
  match a, b with Int x, Int y => Int (Z.max x y) | _, _ => NaN end.

Definition new_Error (message : jsstring) : exn :=
  ErrorObj (str "Error") message.

Definition constructor (config : AmazonMusicConfig)
    : result AmazonMusicClient :=
  if is_empty (apiUrl config) || is_empty (trim (apiUrl config)) then
    Throw (new_Error (str "Amazon Music API URL must be set"))
  else
    Ok {| baseUrl :=
            if endsWith (str "/") (apiUrl config)
            then take (length (apiUrl config) - 1) (apiUrl config)
            else apiUrl config;
          searchLimit :=
            match cfg_searchLimit config with
            | Some limit =>
              if jsint_truthy limit
              then math_max (Int 1) (math_min limit (Int 10))
              else Int 5
            | None => Int 5
            end;
          timeout :=
            match cfg_timeout config with
            | Some t => if num_truthy H t then t else num_of_Z H 10000
            | None => num_of_Z H 10000
            end |}.

Definition getSearchLimit (this : AmazonMusicClient) : jsint :=
  searchLimit this.

Definition getBaseUrl (this : AmazonMusicClient) : jsstring := baseUrl this.

Definition metadata_headers : list (jsstring * jsstring) :=
  [ (str "User-Agent",
     str "facebookexternalhit/1.1 (+http://www.facebook.com/externalhit_uatext.php)");
    (str "Accept",
     str "text/html,application/xhtml+xml,application/xml;q=0.9,image/avif,image/webp,*/*;q=0.8") ].

(** The URL requested for [path]. *)
Definition metadata_url (this : AmazonMusicClient) (path : jsstring)
    : jsstring :=
  if negb (startsWith (str "http") path) then
    let path1 :=
      if negb (startsWith (str "/") path) then str "/" ++ path else path in
    let path2 :=
      if endsWith (str "/api") (baseUrl this) && startsWith (str "/api") path1
      then drop 4 path1 else path1 in
    baseUrl this ++ path2
  else path.

Definition fetchMetadata (this : AmazonMusicClient) (path : jsstring)
    : M Metadata :=
  try_catch
    (let url := metadata_url this path in
     try_catch
       (response <- fetch H {| req_url := url;
                               req_method := Some (str "GET");
                               req_headers := metadata_headers;
                               req_abort_after := Some (timeout this) |} ;;
        if negb (resp_ok response) then
          throw (new_Error (str "HTTP " ++ num_toString H (resp_status response)
                            ++ str ": " ++ resp_statusText response))
        else
          html <- resp_text response ;;
          ret (parseOpenGraph html url))
       (fun error => throw error))
    (fun error =>
       match error with
       | ErrorObj name message =>
         if jseqb name (str "AbortError") then
           throw (new_Error (str "Request timeout after "
                             ++ num_toString H (timeout this) ++ str "ms"))
         else throw (new_Error (str "Request failed: " ++ message))
       | NonError => throw error
       end).

Definition first_part (parts : list jsstring) : jsstring :=
  match parts with p :: _ => p | [] => [] end.

(** The [for] loop of [getAlbum] over the separators still to try, on the
    pair of [artistName] and [albumName]. *)
Fixpoint album_from_title (seps : list jsstring) (title : jsstring)
    (names : jsstring * jsstring) : jsstring * jsstring :=
  match seps with
  | [] => names
  | sep :: seps' =>
    if includes sep title then
      let parts := split sep title in
      if (2 <=? length parts)%nat
      then (trim (last_part parts), trim (first_part parts))  (* break *)
      else names                                              (* break *)
    else album_from_title seps' title names
  end.

Definition getAlbum (this : AmazonMusicClient) (id : jsstring)
    : M (option AlbumFull) :=
  metadata <- fetchMetadata this (str "/albums/" ++ id) ;;
  if is_empty (md_title metadata) then ret None
  else
    let names :=
      album_from_title separators (md_title metadata)
                       (str "Unknown Artist", md_title metadata) in
    ret (Some {| af_name := snd names;
                 af_url := md_url metadata;
                 af_image := md_image metadata;
                 af_artist := {| artist_name := VStr (fst names);
                                 artist_url := Some [] |};
                 af_songs := [];
                 af_totalSongs := num_of_Z H 0 |}).

(** [encodeURIComponent(v)] of any value: ToString, then the encoding. *)
Definition encodeURIComponent_value (v : value) : M jsstring :=
  text <- or_throw TypeError (ToString v) ;;
  or_throw URIError (encodeURIComponent H text).

Definition getTrack (this : AmazonMusicClient) (id : jsstring)
    : M (option Track) :=
  metadata <- fetchMetadata this (str "/tracks/" ++ id) ;;
  if is_empty (md_title metadata) then ret None
  else
    let artistName := js_or (md_artist metadata) (VStr (str "Unknown Artist")) in
    let albumName := js_or (md_album metadata) (VStr (str "Unknown Album")) in
    let albumUrl : jsstring := [] in
    names <-
      (if negb (is_empty (md_albumUrl metadata)) then
         try_catch
           (match parseUrl (md_albumUrl metadata) with
            | Some parsed =>
              if negb (is_empty (parsed_id parsed)) then
                albumData <- getAlbum this (parsed_id parsed) ;;
                match albumData with
                | Some a =>
                  ret (artist_name (af_artist a), VStr (af_name a), af_url a)
                | None => ret (artistName, albumName, albumUrl)
                end
              else ret (artistName, albumName, albumUrl)
            | None => ret (artistName, albumName, albumUrl)
            end)
           (fun e => ret (artistName, albumName, albumUrl))
       else ret (artistName, albumName, albumUrl)) ;;
    let '(artistName, albumName, albumUrl) := names in
    url <-
      (if negb (is_empty albumUrl) then ret albumUrl
       else
         encoded <- encodeURIComponent_value albumName ;;
         ret (str "https://music.amazon.com/search/" ++ encoded)) ;;
    ret (Some {| track_id := id;
                 track_name := md_title metadata;
                 track_title := Some (md_title metadata);
                 track_artist := {| artist_name := artistName;
                                    artist_url := Some [] |};
                 track_duration :=
                   if num_truthy H (md_duration metadata)
                   then md_duration metadata else num_of_Z H 0;
                 track_url := md_url metadata;
                 track_image := Some (md_image metadata);
                 track_album := {| album_name := albumName;
                                   album_url := Some url |} |}).

Definition getArtist (this : AmazonMusicClient) (id : jsstring)
    : M (option ArtistFull) :=
  metadata <- fetchMetadata this (str "/artists/" ++ id) ;;
  if is_empty (md_title metadata) then ret None
  else
    ret (Some {| arf_name := md_title metadata;
                 arf_url := md_url metadata;
                 arf_image := md_image metadata;
                 arf_topSongs := [] |}).

Definition getPlaylist (this : AmazonMusicClient) (id : jsstring)
    : M (option Playlist) :=
  metadata <- fetchMetadata this (str "/playlists/" ++ id) ;;
  if is_empty (md_title metadata) then ret None
  else
    ret (Some {| pl_name := md_title metadata;
                 pl_url := md_url metadata;
                 pl_image := md_image metadata;
                 pl_createdBy := str "Amazon Music";
                 pl_songs := [];
                 pl_totalSongs := num_of_Z H 0 |}).

Definition getUserPlaylist (this : AmazonMusicClient) (id : jsstring)
    : M (option Playlist) :=
  metadata <- fetchMetadata this (str "/user-playlists/" ++ id) ;;
  if is_empty (md_title metadata) then ret None
  else
    ret (Some {| pl_name := md_title metadata;
                 pl_url := md_url metadata;
                 pl_image := md_image metadata;
                 pl_createdBy := str "User";
                 pl_songs := [];
                 pl_totalSongs := num_of_Z H 0 |}).

(** *** search *)

(** The pattern of a redirect link, flag [g]: [href=] and, after the
    double quote, the redirect host [https://r.search.yahoo.com/], any
    run of code units other than the double quote, [RU=], group 1 (one or
    more code units other than the double quote and the slash) and a
    slash. *)
Definition linkRegex : regex :=
  seqs [ lit "href="; dquote; lit "https://r.search.yahoo.com/";
         Star true (Cls true [(34, 34)]); lit "RU=";
         Grp 1 (Plus (Cls true [(34, 34); (47, 47)])); lit "/" ].

Definition search_headers : list (jsstring * jsstring) :=
  [ (str "User-Agent",
     str "Mozilla/5.0 (Windows NT 10.0; Win64; x64) AppleWebKit/537.36 (KHTML, like Gecko) Chrome/120.0.0.0 Safari/537.36");
    (str "Accept", str "*/*") ].

Definition search_request (url : jsstring) : Request (number H) :=
  {| req_url := url; req_method := None; req_headers := search_headers;
     req_abort_after := None |}.

(** The record pushed without metadata: no [title], no [image], no
    [url] of artist or album. *)
Definition placeholder (label : jsstring) (parsed : ParsedUrl) : Track :=
  {| track_id := parsed_id parsed;
     track_name := label ++ parsed_id parsed;
     track_title := None;
     track_artist := {| artist_name := VStr (str "Unknown");
                        artist_url := None |};
     track_duration := num_of_Z H 0;
     track_url := str "https://music.amazon.com/" ++ parsed_type parsed
                  ++ str "/" ++ parsed_id parsed;
     track_image := None;
     track_album := {| album_name := VStr (str "Unknown");
                       album_url := None |} |}.

(** [results.length >= limit]. *)
Definition length_ge (n : nat) (limit : jsint) : bool :=
  match limit with
  | NaN => false
  | Int z => (z <=? Z.of_nat n)%Z
  end.

(** The [try] block of the first [while] loop of [search], for one match;
    [results] and [processedIds] are the two mutable locals.  The only
    statement of the block that can throw to its [catch], the decoding,
    comes before every mutation. *)
Definition visit_track_link (this : AmazonMusicClient) (m : captures)
    (results : list Track) (processedIds : gset jsstring)
    : M (list Track * gset jsstring) :=
  try_catch
    (decodedUrl <-
       or_throw URIError (decodeURIComponent H (group_or_empty 1 m)) ;;
     if negb (includes (str "music.amazon.com") decodedUrl)
     then ret (results, processedIds)                   (* continue *)
     else
       match parseUrl decodedUrl with
       | Some parsed =>
         if jseqb (parsed_type parsed) (str "tracks")
            && negb (bool_decide (parsed_id parsed ∈ processedIds))
         then
           let processedIds' := {[ parsed_id parsed ]} ∪ processedIds in
           try_catch
             (trackData <- getTrack this (parsed_id parsed) ;;
              match trackData with
              | Some t => ret (results ++ [t], processedIds')
              | None => ret (results, processedIds')
              end)
             (fun e =>
                ret (results ++ [placeholder (str "Track ") parsed],
                     processedIds'))
         else ret (results, processedIds)
       | None => ret (results, processedIds)
       end)
    (fun e => ret (results, processedIds)).

(** The [try] block of the second [while] loop. *)
Definition visit_link (m : captures)
    (results : list Track) (processedIds : gset jsstring)
    : M (list Track * gset jsstring) :=
  try_catch
    (decodedUrl <-
       or_throw URIError (decodeURIComponent H (group_or_empty 1 m)) ;;
     if negb (includes (str "music.amazon.com") decodedUrl)
     then ret (results, processedIds)                   (* continue *)
     else
       match parseUrl decodedUrl with
       | Some parsed =>
         if jseqb (parsed_type parsed) (str "tracks")
            && negb (bool_decide (parsed_id parsed ∈ processedIds))
         then
           ret (results ++ [placeholder (str "Result ") parsed],
                {[ parsed_id parsed ]} ∪ processedIds)
         else ret (results, processedIds)
       | None => ret (results, processedIds)
       end)
    (fun e => ret (results, processedIds)).

(** Either [while] loop, over the matches still to come: it stops when
    [results] has reached [limit], else runs its [try] block [visit] on
    the match and goes on. *)
Fixpoint harvest
    (visit : captures -> list Track -> gset jsstring
             -> M (list Track * gset jsstring))
    (limit : jsint) (matches : list captures) (results : list Track)
    (processedIds : gset jsstring) : M (list Track * gset jsstring) :=
  match matches with
  | [] => ret (results, processedIds)
  | m :: matches' =>
    if length_ge (length results) limit
    then ret (results, processedIds)                    (* break *)
    else
      st <- visit m results processedIds ;;
      harvest visit limit matches' (fst st) (snd st)
  end.

Definition tracks_search_url (encoded : jsstring) : jsstring :=
  str "https://search.yahoo.com/search?p=site:music.amazon.com/tracks+"
  ++ encoded ++ str "&nojs=1".

Definition site_search_url (encoded : jsstring) : jsstring :=
  str "https://search.yahoo.com/search?p=site:music.amazon.com+"
  ++ encoded ++ str "&nojs=1".

(** [search(query, limit)]; an absent [limit] is 20. *)
Definition search (this : AmazonMusicClient) (query : jsstring)
    (limit_opt : option jsint) : M (list Track) :=
  let limit := match limit_opt with Some l => l | None => Int 20 end in
  try_catch
    (encoded <- or_throw URIError (encodeURIComponent H query) ;;
     response <- fetch H (search_request (tracks_search_url encoded)) ;;
     if negb (resp_ok response) then ret []
     else
       html <- resp_text response ;;
       st <- harvest (visit_track_link this) limit
               (exec_all false linkRegex html) [] ∅ ;;
       let '(results, processedIds) := st in
       if (length results =? 0)%nat then
         encoded <- or_throw URIError (encodeURIComponent H query) ;;
         response <- fetch H (search_request (site_search_url encoded)) ;;
         if resp_ok response then
           html <- resp_text response ;;
           st <- harvest visit_link limit (exec_all false linkRegex html)
                   results processedIds ;;
           ret (fst st)
         else ret results
       else ret results)
    (fun error => ret []).

(** *** loadFromUrl *)

Definition loadFromUrl (this : AmazonMusicClient) (url : jsstring)
    : M (option Resource) :=
  match parseUrl url with
  | None => ret None
  | Some parsed =>
    if jseqb (parsed_type parsed) (str "tracks") then
      r <- getTrack this (parsed_id parsed) ;; ret (option_map OfTrack r)
    else if jseqb (parsed_type parsed) (str "albums") then
      r <- getAlbum this (parsed_id parsed) ;; ret (option_map OfAlbum r)
    else if jseqb (parsed_type parsed) (str "artists") then
      r <- getArtist this (parsed_id parsed) ;; ret (option_map OfArtist r)
    else if jseqb (parsed_type parsed) (str "playlists") then
      r <- getPlaylist this (parsed_id parsed) ;; ret (option_map OfPlaylist r)
    else if jseqb (parsed_type parsed) (str "user-playlists") then
      r <- getUserPlaylist this (parsed_id parsed) ;;
      ret (option_map OfPlaylist r)
    else ret None
  end.

End Client.

(** ** The HTTP routes of [src/index.ts] *)

(** What a handler sends with [c.json(body, status)]: the status and the
    fields [success], [data] and [error] of the body; the status is 200
    when the call gives none. *)
Record Reply (A : Type) := {
  reply_status : Z;
  reply_success : bool;
  reply_data : option A;
  reply_error : option jsstring
}.
Arguments reply_status {A}.
Arguments reply_success {A}.
Arguments reply_data {A}.
Arguments reply_error {A}.

(** [c.json({ success: true, data })]. *)
Definition json_data {A : Type} (data : A) : Reply A :=
  {| reply_status := 200; reply_success := true; reply_data := Some data;
     reply_error := None |}.

(** [c.json({ success: false, error }, status)]. *)
Definition json_error {A : Type} (error : jsstring) (status : Z) : Reply A :=
  {| reply_status := status; reply_success := false; reply_data := None;
     reply_error := Some error |}.

(** [error instanceof Error ? error.message : 'Unknown error']. *)
Definition error_message (error : exn) : jsstring :=
  match error with
  | ErrorObj _ message => message
  | NonError => str "Unknown error"
  end.

Section Routes.
Context (H : Host).

(** [parseInt] on the [limit] parameter, read as the integer or NaN that
    [search] compares with [results.length]. *)
Variable parseInt_limit : jsstring -> jsint.

Notation "x <- m ;; k" := (bind H m (fun x => k))
  (at level 100, m at next level, right associativity).

(** A call that returns or throws at once. *)
Definition of_result {A : Type} (r : result A) : M H A :=
  match r with Ok a => ret H a | Throw e => throw H e end.

Definition getClient : result (AmazonMusicClient (number H)) :=
  constructor H {| apiUrl := str "https://music.amazon.com";
                   cfg_searchLimit := Some (Int 10);
                   userAgent := None;
                   cfg_timeout := Some (num_of_Z H 10000) |}.

(** The [catch] of every handler. *)
Definition internal_error {A : Type} (error : exn) : M H (Reply A) :=
  ret H (json_error (error_message error) 500).

(** [GET /api/songs/:id]. *)
Definition route_song (id : jsstring) : M H (Reply (Track (number H))) :=
  try_catch H
    (client <- of_result getClient ;;
     track <- getTrack H client id ;;
     match track with
     | None => ret H (json_error (str "Track not found") 404)
     | Some t => ret H (json_data t)
     end)
    internal_error.

(** [GET /api/albums/:id]. *)
Definition route_album (id : jsstring) : M H (Reply (AlbumFull (number H))) :=
  try_catch H
    (client <- of_result getClient ;;
     album <- getAlbum H client id ;;
     match album with
     | None => ret H (json_error (str "Album not found") 404)
     | Some a => ret H (json_data a)
     end)
    internal_error.

(** [GET /api/artists/:id]. *)
Definition route_artist (id : jsstring) : M H (Reply (ArtistFull (number H))) :=
  try_catch H
    (client <- of_result getClient ;;
     artist <- getArtist H client id ;;
     match artist with
     | None => ret H (json_error (str "Artist not found") 404)
     | Some a => ret H (json_data a)
     end)
    internal_error.

(** [GET /api/playlists/:id]. *)
Definition route_playlist (id : jsstring) : M H (Reply (Playlist (number H))) :=
  try_catch H
    (client <- of_result getClient ;;
     playlist <- getPlaylist H client id ;;
     match playlist with
     | None => ret H (json_error (str "Playlist not found") 404)
     | Some p => ret H (json_data p)
     end)
    internal_error.

(** [GET /api/community-playlists/:id]. *)
Definition route_community_playlist (id : jsstring)
    : M H (Reply (Playlist (number H))) :=
  try_catch H
    (client <- of_result getClient ;;
     playlist <- getUserPlaylist H client id ;;
     match playlist with
     | None => ret H (json_error (str "User playlist not found") 404)
     | Some p => ret H (json_data p)
     end)
    internal_error.

(** [s || d] for a query parameter [s], which is a string or
    [undefined]. *)
Definition param_or (s : option jsstring) (d : jsstring) : jsstring :=
  match s with
  | Some v => if is_empty v then d else v
  | None => d
  end.

(** A query parameter that passes the test [if (!s)]: a string that is
    not empty. *)
Definition param_given (s : option jsstring) : option jsstring :=
  match s with
  | Some v => if is_empty v then None else Some v
  | None => None
  end.

(** [GET /api/search/songs], with its parameters [query] and [limit]. *)
Definition route_search (query limit : option jsstring)
    : M H (Reply (list (Track (number H)))) :=
  try_catch H
    (let limit := parseInt_limit (param_or limit (str "5")) in
     match param_given query with
     | None => ret H (json_error (str "Query parameter is required") 400)
     | Some query =>
       client <- of_result getClient ;;
       tracks <- search H client query (Some limit) ;;
       ret H (json_data tracks)
     end)
    internal_error.

(** [GET /api/parse-url], with its parameter [url]. *)
Definition route_parse_url (url : option jsstring) : M H (Reply ParsedUrl) :=
  try_catch H
    (match param_given url with
     | None => ret H (json_error (str "URL parameter is required") 400)
     | Some url =>
       client <- of_result getClient ;;
       match parseUrl url with
       | None => ret H (json_error (str "Invalid Amazon Music URL") 400)
       | Some parsed => ret H (json_data parsed)
       end
     end)
    internal_error.

(** [GET /api/load-url], with its parameter [url]. *)
Definition route_load_url (url : option jsstring)
    : M H (Reply (Resource (number H))) :=
  try_catch H
    (match param_given url with
     | None => ret H (json_error (str "URL parameter is required") 400)
     | Some url =>
       client <- of_result getClient ;;
       content <- loadFromUrl H client url ;;
       match content with
       | None => ret H (json_error (str "Could not load content from URL") 404)
       | Some r => ret H (json_data r)
       end
     end)
    internal_error.

End Routes.

(** ** A host for running the program on examples

    Numbers are integers; percent-encoding and decoding follow the
    ECMAScript algorithms; the network is a fixed table of pages, and
    [JSON.parse] knows the texts of a table (it throws on any other). *)

Module Example.

Definition hex_digit (d : N) : N := if d <? 10 then 48 + d else 55 + d.

Definition percent (b : N) : jsstring :=
  [37; hex_digit (b / 16); hex_digit (b mod 16)].

(** The UTF-8 octets of a code point. *)
Definition utf8 (v : N) : list N :=
  if v <? 128 then [v]
  else if v <? 2048 then [192 + v / 64; 128 + v mod 64]
  else if v <? 65536 then
    [224 + v / 4096; 128 + (v / 64) mod 64; 128 + v mod 64]
  else [240 + v / 262144; 128 + (v / 4096) mod 64;
        128 + (v / 64) mod 64; 128 + v mod 64].

(** uriUnescaped: letters, digits and the marks - _ . ! ~ * ' ( ). *)
Definition unescaped (c : N) : bool :=
  existsb (in_range c)
    [(65, 90); (97, 122); (48, 57); (45, 46); (95, 95); (33, 33);
     (126, 126); (39, 42)].

Definition percent_all (v : N) : jsstring := concat (map percent (utf8 v)).

(** [encodeURIComponent]: a lone surrogate throws. *)
Fixpoint encodeURIComponent (s : jsstring) : option jsstring :=
  match s with
  | [] => Some []
  | c :: s' =>
    if unescaped c then option_map (cons c) (encodeURIComponent s')
    else if (56320 <=? c) && (c <=? 57343) then None
    else if (55296 <=? c) && (c <=? 56319) then
      match s' with
      | d :: s'' =>
        if (56320 <=? d) && (d <=? 57343) then
          option_map
            (app (percent_all ((c - 55296) * 1024 + (d - 56320) + 65536)))
            (encodeURIComponent s'')
        else None
      | [] => None
      end
    else option_map (app (percent_all c)) (encodeURIComponent s')
  end.

Definition hex_value (c : N) : option N :=
  if (48 <=? c) && (c <=? 57) then Some (c - 48)
  else if (65 <=? c) && (c <=? 70) then Some (c - 55)
  else if (97 <=? c) && (c <=? 102) then Some (c - 87)
  else None.

(** The code units of a code point. *)
Definition utf16 (v : N) : jsstring :=
  if v <? 65536 then [v]
  else [55296 + (v - 65536) / 1024; 56320 + (v - 65536) mod 1024].

(** [decodeURIComponent].  [pending] is [None] between characters and
    [Some (n, v, lo)] inside a multi-octet sequence: [n] octets to come,
    [v] the bits read, [lo] the least code point of a sequence of this
    length. *)
Fixpoint decode_go (pending : option (nat * N * N)) (s : jsstring)
    : option jsstring :=
  match pending, s with
  | None, [] => Some []
  | Some _, [] => None
  | _, c :: s' =>
    if c =? 37 then
      match s' with
      | h1 :: h2 :: s'' =>
        match hex_value h1, hex_value h2 with
        | Some a, Some b =>
          let o := 16 * a + b in
          match pending with
          | None =>
            if o <? 128 then option_map (cons o) (decode_go None s'')
            else if (194 <=? o) && (o <=? 223) then
              decode_go (Some (1%nat, o - 192, 128)) s''
            else if (224 <=? o) && (o <=? 239) then
              decode_go (Some (2%nat, o - 224, 2048)) s''
            else if (240 <=? o) && (o <=? 244) then
              decode_go (Some (3%nat, o - 240, 65536)) s''
            else None
          | Some (n, v, lo) =>
            if (128 <=? o) && (o <=? 191) then
              let v' := v * 64 + (o - 128) in
              match n with
              | 1%nat =>
                if (lo <=? v') && (v' <=? 1114111)
                   && negb ((55296 <=? v') && (v' <=? 57343))
                then option_map (app (utf16 v')) (decode_go None s'')
                else None
              | S n' => decode_go (Some (n', v', lo)) s''
              | O => None
              end
            else None
          end
        | _, _ => None
        end
      | _ => None
      end
    else
      match pending with
      | None => option_map (cons c) (decode_go None s')
      | Some _ => None
      end
  end.

Definition decodeURIComponent (s : jsstring) : option jsstring :=
  decode_go None s.

Definition digit_value (c : N) : Z := Z.of_N (c - 48).

(** [parseInt] of a run of decimal digits. *)
Definition parseInt (s : jsstring) : Z :=
  fold_left (fun acc c => (10 * acc + digit_value c)%Z) s 0%Z.

Fixpoint to_digits (fuel : nat) (n : N) (acc : jsstring) : jsstring :=
  match fuel with
  | O => acc
  | S fuel' =>
    if n <? 10 then (48 + n) :: acc
    else to_digits fuel' (n / 10) ((48 + n mod 10) :: acc)
  end.

Definition num_toString (z : Z) : jsstring :=
  (if (z <? 0)%Z then [45] else [])
  ++ to_digits (S (N.to_nat (N.log2 (Z.abs_N z)))) (Z.abs_N z) [].

(** A page of the table: whether the response is OK, and its body. *)
Record page := { page_ok : bool; page_body : jsstring }.

Fixpoint lookup_page (url : jsstring) (pages : list (jsstring * page))
    : option page :=
  match pages with
  | [] => None
  | (u, p) :: pages' => if jseqb url u then Some p else lookup_page url pages'
  end.

Fixpoint lookup_json (text : jsstring) (table : list (jsstring * jsval Z))
    : option (jsval Z) :=
  match table with
  | [] => None
  | (t, v) :: table' => if jseqb text t then Some v else lookup_json text table'
  end.

(** The state of the network is the number of requests made; a URL that
    is not in the table is unreachable. *)
Definition fetch (pages : list (jsstring * page)) (r : Request Z) (w : nat)
    : result (Response Z nat) * nat :=
  match lookup_page (req_url r) pages with
  | Some p =>
    (Ok {| resp_ok := page_ok p;
           resp_status := if page_ok p then 200%Z else 503%Z;
           resp_statusText := if page_ok p then str "OK"
                              else str "Service Unavailable";
           resp_text := fun w' => (Ok (page_body p), w') |}, S w)
  | None => (Throw (ErrorObj (str "TypeError") (str "fetch failed")), S w)
  end.

Definition host (pages : list (jsstring * page))
    (json : list (jsstring * jsval Z)) : Host :=
  Build_Host Z (fun z => z) (fun z => negb (z =? 0)%Z) Z.add Z.mul
    num_toString parseInt (fun _ => Some (str "[object Object]"))
    (fun text => lookup_json text json)
    encodeURIComponent decodeURIComponent nat (fetch pages).

(** *** Example data *)

Definition meta (property content : jsstring) : jsstring :=
  str "<meta property=" ++ [34] ++ property ++ [34] ++ str " content="
  ++ [34] ++ content ++ [34] ++ str ">".

Definition redirect (target : jsstring) : jsstring :=
  str "<a href=" ++ [34]
  ++ str "https://r.search.yahoo.com/_ylt=Awr;_ylu=Y29sbw/RV=2/RE=17/RO=10/RU="
  ++ target ++ str "/RK=2/RS=abc-" ++ [34] ++ str ">result</a>".

(** The page of a track: a title, an image and a link to its album. *)
Definition track_html : jsstring :=
  str "<html><head>"
  ++ meta (str "og:title") (str "Whatever It Takes - Imagine Dragons")
  ++ meta (str "og:image") (str "https://m.media-amazon.com/images/I/cover.jpg")
  ++ meta (str "music:album") (str "https://music.amazon.com/albums/B0722ZT1QB")
  ++ str "</head><body></body></html>".

(** A page without any title. *)
Definition bare_html : jsstring := str "<html><head></head><body></body></html>".

(** A result page: the same track twice, a track whose page is
    unreachable, and an album. *)
Definition results_html : jsstring :=
  str "<html><body>"
  ++ redirect (str "https%3a%2f%2fmusic.amazon.com%2ftracks%2fB079TPJ3G4")
  ++ redirect (str "https%3a%2f%2fmusic.amazon.com%2ftracks%2fB079TPJ3G4%3fref%3dx")
  ++ redirect (str "https%3a%2f%2fmusic.amazon.com%2ftracks%2fB07XYZ1234")
  ++ redirect (str "https%3a%2f%2fmusic.amazon.com%2falbums%2fB0722ZT1QB")
  ++ str "</body></html>".

(** A JSON-LD text whose album name is a lone surrogate (the escape
    \ud83d), and the value that [JSON.parse] returns for it. *)
Definition surrogate_json : jsstring :=
  str "{" ++ [34] ++ str "@type" ++ [34] ++ str ":" ++ [34]
  ++ str "MusicRecording" ++ [34] ++ str "," ++ [34] ++ str "inAlbum" ++ [34]
  ++ str ":{" ++ [34] ++ str "name" ++ [34] ++ str ":" ++ [34]
  ++ str "\ud83d" ++ [34] ++ str "}}".

Definition surrogate_value : jsval Z :=
  VObj [ (str "@type", VStr (str "MusicRecording"));
         (str "inAlbum", VObj [ (str "name", VStr [55357]) ]) ].

(** The page of a track with that JSON-LD block. *)
Definition surrogate_html : jsstring :=
  str "<html><head>"
  ++ meta (str "og:title") (str "Broken Heart")
  ++ meta (str "music:album") (str "https://music.amazon.com/albums/B0722ZT1QB")
  ++ str "<script type=" ++ [34] ++ str "application/ld+json" ++ [34] ++ str ">"
  ++ surrogate_json ++ str "</script>"
  ++ str "</head><body></body></html>".

Definition ok_page (body : jsstring) : page :=
  {| page_ok := true; page_body := body |}.

Definition pages : list (jsstring * page) :=
  [ (str "https://search.yahoo.com/search?p=site:music.amazon.com/tracks+imagine%20dragons&nojs=1",
     ok_page results_html);
    (str "https://music.amazon.com/tracks/B079TPJ3G4", ok_page track_html);
    (str "https://music.amazon.com/tracks/B07SURR0GT", ok_page surrogate_html);
    (str "https://music.amazon.com/tracks/B000000000", ok_page bare_html);
    (str "https://music.amazon.com/albums/B000000000", ok_page bare_html);
    (str "https://music.amazon.com/artists/B000000000", ok_page bare_html);
    (str "https://music.amazon.com/playlists/B000000000", ok_page bare_html);
    (str "https://music.amazon.com/user-playlists/B000000000",
     ok_page bare_html) ].

(** The network of the examples, and a network where nothing is
    reachable. *)
Definition web : Host := host pages [(surrogate_json, surrogate_value)].
Definition offline : Host := host [] [].

Definition config (H : Host) (limit : option jsint)
    : AmazonMusicConfig (number H) :=
  {| apiUrl := str "https://music.amazon.com";
     cfg_searchLimit := limit;
     userAgent := None;
     cfg_timeout := None |}.

(** The client that [index.ts] builds. *)
Definition client (H : Host) : AmazonMusicClient (number H) :=
  {| baseUrl := str "https://music.amazon.com";
     searchLimit := Int 10;
     timeout := num_of_Z H 10000 |}.

End Example.

(** ** Notions used to state the properties *)

(** What a regular expression can match, read off its syntax: [lang ic r s
    rest] says that [r] matches [s] when [rest] follows. *)
Fixpoint pieces_ok (P : jsstring -> jsstring -> Prop) (rest : jsstring)
    (pieces : list jsstring) : Prop :=
  match pieces with
  | [] => True
  | p :: pieces' => P p (concat pieces' ++ rest) /\ pieces_ok P rest pieces'
  end.

Fixpoint lang (ic : bool) (r : regex) (s rest : jsstring) {struct r} : Prop :=
  match r with
  | Eps => s = []
  | Eos => s = [] /\ rest = []
  | Chr c => exists x, s = [x] /\ chr_eq ic c x = true
  | Cls neg rs => exists x, s = [x] /\ cls_mem ic neg rs x = true
  | Dot => exists x, s = [x] /\ is_line_terminator x = false
  | Seq r1 r2 =>
    exists s1 s2, s = s1 ++ s2 /\ lang ic r1 s1 (s2 ++ rest) /\ lang ic r2 s2 rest
  | Alt r1 r2 => lang ic r1 s rest \/ lang ic r2 s rest
  | Opt r1 => s = [] \/ lang ic r1 s rest
  | Star _ r1 =>
    exists pieces, s = concat pieces /\ pieces_ok (lang ic r1) rest pieces
  | Grp _ r1 => lang ic r1 s rest
  end.

Fixpoint has_group (r : regex) : bool :=
  match r with
  | Grp _ _ => true
  | Seq r1 r2 | Alt r1 r2 => has_group r1 || has_group r2
  | Opt r1 | Star _ r1 => has_group r1
  | _ => false
  end.

(** What a successful run of the matcher amounts to: the input splits
    into a part in the language of [r] and a rest accepted by the
    continuation; a regular expression without groups hands the captures
    on as they are. *)
Definition run_of {R : Type} (ic : bool) (r : regex) (s : jsstring)
    (caps : captures) (k : jsstring -> captures -> option R) (x : R) : Prop :=
  exists s1 s2 caps',
    s = s1 ++ s2 /\ lang ic r s1 s2
    /\ (has_group r = false -> caps' = caps)
    /\ k s2 caps' = Some x.

(** The part of [URL_PATTERN] after the id. *)
Definition url_tail : regex :=
  seqs [ Opt (Seq (lit "/") (Plus (Cls true [(47, 47); (63, 63); (35, 35)])));
         Opt (Seq (Cls false [(47, 47); (63, 63)]) (Star true Dot));
         Eos ].

(** [lit_prefix ic l s]: the pattern characters [l] match at the head of
    [s]. *)
Fixpoint lit_prefix (ic : bool) (l s : jsstring) : bool :=
  match l, s with
  | [], _ => true
  | _ :: _, [] => false
  | c :: l', x :: s' => chr_eq ic c x && lit_prefix ic l' s'
  end.

(** The test of a regular expression that matches exactly one code unit. *)
Definition char_test (ic : bool) (r : regex) : option (N -> bool) :=
  match r with
  | Chr c => Some (chr_eq ic c)
  | Cls neg rs => Some (cls_mem ic neg rs)
  | Dot => Some (fun x => negb (is_line_terminator x))
  | _ => None
  end.

(** Equal up to the case of ASCII letters: [s] is matched by the pattern
    characters [l] under the [i] flag. *)
Definition ci_eq (l s : jsstring) : Prop :=
  Forall2 (fun c x => chr_eq true c x = true) l s.

Definition is_alnum (x : N) : bool :=
  existsb (in_range x) [(65, 90); (97, 122); (48, 57)].

(** The five path segments. *)
Definition kind_segments : list jsstring :=
  [str "tracks"; str "albums"; str "artists"; str "playlists";
   str "user-playlists"].

(** What may follow the id of a canonical URL: nothing, or a slash or a
    question mark and then anything on the same line (a slug, a query, a
    fragment after either). *)
Definition tail_ok (tail : jsstring) : Prop :=
  tail = [] \/
  exists c t, tail = c :: t /\ (c = 47 \/ c = 63)
              /\ Forall (fun x => is_line_terminator x = false) t.

(** The canonical URL of the resource [kind]/[id]. *)
Definition canonical_url (s kind id : jsstring) : Prop :=
  exists scheme host tail,
    s = scheme ++ str "://music.amazon." ++ host ++ str "/" ++ kind
          ++ str "/" ++ id ++ tail
    /\ (scheme = str "http" \/ scheme = str "https")
    /\ host <> [] /\ Forall (fun x => x <> 47) host
    /\ In kind kind_segments
    /\ id <> [] /\ Forall (fun x => is_alnum x = true) id
    /\ tail_ok tail.

(** [m] reads as a URL of the service up to the case of letters: scheme,
    host [music.amazon.] and more, one of the five segments, an
    alphanumeric id, and then nothing or something that starts with a
    slash, a question mark or a hash. *)
Definition url_shape (m : jsstring) : Prop :=
  exists scheme sep host kind id tail,
    m = scheme ++ sep ++ host ++ [47] ++ kind ++ [47] ++ id ++ tail
    /\ (ci_eq (str "http") scheme \/ ci_eq (str "https") scheme)
    /\ ci_eq (str "://music.amazon.") sep
    /\ host <> [] /\ Forall (fun x => x <> 47) host
    /\ (exists seg, In seg kind_segments /\ ci_eq seg kind)
    /\ id <> [] /\ Forall (fun x => is_alnum x = true) id
    /\ (tail = [] \/ exists c t, tail = c :: t /\ (c = 47 \/ c = 63 \/ c = 35)).

(** [s] ends with a URL of the service. *)
Definition ends_with_url (s : jsstring) : Prop :=
  exists pre m, s = pre ++ m /\ url_shape m.

(** The fields of the metadata bag, their values and their defaults (the
    values of [init_metadata], with the empty string for [url]). *)
Inductive field :=
| FUrl | FTitle | FDescription | FImage | FType | FSiteName | FAudio
| FArtist | FAlbum | FAlbumUrl | FDuration.

Definition field_value {number : Type} (f : field) (m : Metadata number)
    : jsval number :=
  match f with
  | FUrl => VStr (md_url m)
  | FTitle => VStr (md_title m)
  | FDescription => VStr (md_description m)
  | FImage => VStr (md_image m)
  | FType => VStr (md_type m)
  | FSiteName => VStr (md_site_name m)
  | FAudio => VStr (md_audio m)
  | FArtist => md_artist m
  | FAlbum => md_album m
  | FAlbumUrl => VStr (md_albumUrl m)
  | FDuration => VNum (md_duration m)
  end.

Definition default_value (H : Host) (f : field) : jsval (number H) :=
  match f with
  | FDuration => VNum (num_of_Z H 0)
  | _ => VStr []
  end.

(** [g] changes no field outside [fs]. *)
Definition keeps {number : Type} (fs : list field)
    (g : Metadata number -> Metadata number) : Prop :=
  forall m f, ~ In f fs -> field_value f (g m) = field_value f m.

(** The empty string, or a truthy value. *)
Definition empty_or_truthy (H : Host) (v : jsval (number H)) : Prop :=
  v = VStr [] \/ truthy H v = true.

(** The album link of the metadata gives no album: it does not parse, or
    [getAlbum] on its id throws or returns null; [w1] is the network
    before and [w2] the network after. *)
Definition album_unresolved (H : Host)
    (this : AmazonMusicClient (number H)) (md : Metadata (number H))
    (w1 w2 : World H) : Prop :=
  (parseUrl (md_albumUrl md) = None /\ w2 = w1)
  \/ exists p, parseUrl (md_albumUrl md) = Some p
       /\ ((exists e, getAlbum H this (parsed_id p) w1 = (Throw e, w2))
           \/ getAlbum H this (parsed_id p) w1 = (Ok None, w2)).

(** The two shapes of a track: [title] equal to [name], or no [title] and
    a [name] made of a label and the id. *)
Definition title_is_name {number : Type} (t : Track number) : Prop :=
  track_title t = Some (track_name t).

Definition is_placeholder {number : Type} (t : Track number) : Prop :=
  track_title t = None
  /\ (track_name t = str "Track " ++ track_id t
      \/ track_name t = str "Result " ++ track_id t).

Definition track_ok {number : Type} (t : Track number) : Prop :=
  title_is_name t \/ is_placeholder t.

(** The invariant of the loops of [search]: the ids of the results are
    pairwise distinct and all in the set of processed ids. *)
Definition harvest_inv {number : Type} (results : list (Track number))
    (seen : gset jsstring) : Prop :=
  NoDup (map track_id results)
  /\ Forall (fun t => track_id t ∈ seen) results
  /\ Forall track_ok results.

(** One iteration: nothing is pushed and the set only grows, or one track
    with a new id is pushed and its id joins the set. *)
Definition harvest_step {number : Type} (results : list (Track number))
    (seen : gset jsstring) (results' : list (Track number))
    (seen' : gset jsstring) : Prop :=
  (results' = results /\ seen ⊆ seen')
  \/ exists t, results' = results ++ [t] /\ (track_id t ∉ seen)
               /\ seen' = {[ track_id t ]} ∪ seen /\ track_ok t.

(** [results.length <= limit], for a limit that is a number. *)
Definition within_limit (limit : jsint) (n0 n : nat) : Prop :=
  match limit with
  | NaN => True
  | Int z => (Z.of_nat n <= Z.max (Z.of_nat n0) z)%Z
  end.

(** The body of the search page at [url], when the request succeeds, the
    response is OK and its body can be read. *)
Definition search_page (H : Host) (url : jsstring) (w : World H)
    : option (jsstring * World H) :=
  match fetch H (search_request H url) w with
  | (Ok response, w1) =>
    if resp_ok response then
      match resp_text response w1 with
      | (Ok html, w2) => Some (html, w2)
      | (Throw _, _) => None
      end
    else None
  | (Throw _, _) => None
  end.

(** ** Further notions, for the properties of the whole client *)

(** The request that [fetchMetadata] sends for [path]. *)
Definition metadata_request (H : Host) (this : AmazonMusicClient (number H))
    (path : jsstring) : Request (number H) :=
  {| req_url := metadata_url H this path;
     req_method := Some (str "GET");
     req_headers := metadata_headers;
     req_abort_after := Some (timeout this) |}.

(** Prefix, property and content of a match of [metaRegex]. *)
Definition tag_of (caps : captures) : jsstring * jsstring * jsstring :=
  (group_or_empty 1 caps, group_or_empty 2 caps, group_or_empty 3 caps).

(** The meta tags of the markup, in its order. *)
Definition meta_tags (html : jsstring) : list (jsstring * jsstring * jsstring) :=
  map tag_of (exec_all false metaRegex html).

(** The contents of the tags with the given prefix whose property is one
    of [props], in order. *)
Definition tag_contents (prefix : jsstring) (props : list jsstring)
    (tags : list (jsstring * jsstring * jsstring)) : list jsstring :=
  flat_map (fun tag =>
              let '(pre, property, content) := tag in
              if jseqb pre prefix && existsb (jseqb property) props
              then [content] else [])
           tags.

(** The last string of a list, [d] when there is none. *)
Definition last_or (d : jsstring) (l : list jsstring) : jsstring :=
  match last l with Some x => x | None => d end.

(** The first string of a list that is not empty, the empty string when
    there is none. *)
Fixpoint first_nonempty (l : list jsstring) : jsstring :=
  match l with
  | [] => []
  | x :: l' => if is_empty x then first_nonempty l' else x
  end.

Definition is_digit (x : N) : bool := in_range x (48, 57).

(** A part of an ISO 8601 duration: digits and the letter of the unit, or
    nothing. *)
Definition duration_part (digits : option jsstring) (unit : N) : jsstring :=
  match digits with Some d => d ++ [unit] | None => [] end.

(** [PT], then the hours with [H], the minutes with [M] and the seconds
    with [S], each present or not. *)
Definition duration_text (h m s : option jsstring) : jsstring :=
  str "PT" ++ duration_part h 72 ++ duration_part m 77 ++ duration_part s 83.

Definition digits_ok (digits : option jsstring) : Prop :=
  match digits with
  | Some d => d <> [] /\ Forall (fun x => is_digit x = true) d
  | None => True
  end.

(** The number read for a part: [parseInt] of its digits, of [0] when the
    part is absent. *)
Definition part_number (H : Host) (digits : option jsstring) : number H :=
  parseInt H (match digits with Some d => d | None => str "0" end).

(** A name that the heuristics may write: not empty, without whitespace
    around it, and not the name of the site. *)
Definition clean_name (a : jsstring) : Prop :=
  a <> [] /\ trim a = a /\ a <> str "Amazon Music".

(** No en-dash, hyphen or pipe. *)
Definition marker_free (s : jsstring) : Prop :=
  Forall (fun x => x <> 8211 /\ x <> 45 /\ x <> 124) s.

(** The two placeholders of [search]. *)
Definition is_track_placeholder {number : Type} (t : Track number) : Prop :=
  track_title t = None /\ track_name t = str "Track " ++ track_id t.

Definition is_result_placeholder {number : Type} (t : Track number) : Prop :=
  track_title t = None /\ track_name t = str "Result " ++ track_id t.

(** The id of the track that a redirect link points to: its target has to
    decode, to name the site, and to parse as the URL of a track. *)
Definition link_track_id (H : Host) (m : captures) : option jsstring :=
  match decodeURIComponent H (group_or_empty 1 m) with
  | Some decodedUrl =>
    if includes (str "music.amazon.com") decodedUrl then
      match parseUrl decodedUrl with
      | Some parsed =>
        if jseqb (parsed_type parsed) (str "tracks")
        then Some (parsed_id parsed) else None
      | None => None
      end
    else None
  | None => None
  end.

(** The ids of the tracks that the redirect links of a page point to, in
    the order of the page, with their repetitions. *)
Definition track_link_ids (H : Host) (html : jsstring) : list jsstring :=
  omap (link_track_id H) (exec_all false linkRegex html).

(** [l] occurs in [s], up to the case of letters. *)
Fixpoint includes_ci (l s : jsstring) : bool :=
  lit_prefix true l s
  || match s with
     | [] => false
     | _ :: s' => includes_ci l s'
     end.

(** The text of the first JSON-LD block of the markup. *)
Definition jsonld_block (html : jsstring) : option jsstring :=
  option_map (group_or_empty 1) (exec true jsonLdRegex html).

(** A URL of the service for [kind] and [id], written in any case of
    letters: the scheme, the separator with the name of the service and
    the kind are read up to case, and the kind is one of the five
    segments up to case. *)
Definition canonical_url_ci (s kind id : jsstring) : Prop :=
  exists scheme sep host tail,
    s = scheme ++ sep ++ host ++ str "/" ++ kind ++ str "/" ++ id ++ tail
    /\ (ci_eq (str "http") scheme \/ ci_eq (str "https") scheme)
    /\ ci_eq (str "://music.amazon.") sep
    /\ host <> [] /\ Forall (fun x => x <> 47) host
    /\ (exists seg, In seg kind_segments /\ ci_eq seg kind)
    /\ id <> [] /\ Forall (fun x => is_alnum x = true) id
    /\ tail_ok tail.

(** *** A second example network: a track whose album page is there *)

Module Example2.

Definition song_html : jsstring :=
  str "<html><head>"
  ++ Example.meta (str "og:title") (str "Believer - Imagine Dragons")
  ++ Example.meta (str "music:album")
       (str "https://music.amazon.com/albums/B071ALBUM1?ref=dm")
  ++ str "</head><body></body></html>".

Definition album_html : jsstring :=
  str "<html><head><title>Evolve - Imagine Dragons | Amazon Music</title>"
  ++ str "</head><body></body></html>".

Definition song_page : Example.page := Example.ok_page song_html.

Definition album_page : Example.page := Example.ok_page album_html.

(** A page that the service does not serve. *)
Definition gone_page : Example.page :=
  {| Example.page_ok := false; Example.page_body := [] |}.

Definition pages : list (jsstring * Example.page) :=
  [ (str "https://music.amazon.com/tracks/B071SONG01", song_page);
    (str "https://music.amazon.com/albums/B071ALBUM1", album_page);
    (str "https://music.amazon.com/artists/B071GONE01", gone_page) ].

Definition web : Host := Example.host pages [].

End Example2.

(** ** The strings that [URL_PATTERN] matches *)




(** * Properties *)

(** ** Strings *)

Lemma trimStart_idem s : trimStart (trimStart s) = trimStart s.
Proof.
  induction s as [|x s IH]; simpl; [reflexivity|].
  destruct (is_ws x) eqn:E; [exact IH|].
  simpl. rewrite E. reflexivity.
Qed.

Lemma trimStart_keep x s : is_ws x = false -> trimStart (x :: s) = x :: s.
Proof. intros E. simpl. rewrite E. reflexivity. Qed.

Lemma trimStart_app_keep u x v :
  is_ws x = false -> trimStart (u ++ x :: v) = trimStart u ++ x :: v.
Proof.
  intros E. induction u as [|y u IH]; simpl.
  - rewrite E. reflexivity.
  - destruct (is_ws y); [exact IH | reflexivity].
Qed.

Lemma trimStart_all_ws u v :
  Forall (fun x => is_ws x = true) u -> trimStart (u ++ v) = trimStart v.
Proof.
  induction 1 as [|x u Hx _ IH]; simpl; [reflexivity|].
  rewrite Hx. exact IH.
Qed.

Lemma trimStart_suffix (P : N -> Prop) s :
  Forall P s -> Forall P (trimStart s).
Proof.
  induction 1 as [|x s Hx Hs IH]; simpl; [constructor|].
  destruct (is_ws x); [exact IH | constructor; assumption].
Qed.

Lemma trimEnd_app_keep a x b :
  is_ws x = false -> trimEnd (a ++ x :: b) = a ++ x :: trimEnd b.
Proof.
  intros E. unfold trimEnd.
  rewrite rev_app_distr. simpl. rewrite <- app_assoc. simpl.
  rewrite trimStart_app_keep by exact E.
  rewrite rev_app_distr. simpl. rewrite rev_involutive, <- app_assoc.
  reflexivity.
Qed.

Lemma trimEnd_cons_keep x t :
  is_ws x = false -> trimEnd (x :: t) = x :: trimEnd t.
Proof. exact (trimEnd_app_keep [] x t). Qed.

Lemma trimEnd_idem s : trimEnd (trimEnd s) = trimEnd s.
Proof.
  unfold trimEnd. rewrite rev_involutive, trimStart_idem. reflexivity.
Qed.

Lemma trimEnd_all_ws u v :
  Forall (fun x => is_ws x = true) v -> trimEnd (u ++ v) = trimEnd u.
Proof.
  intros Hv. unfold trimEnd. rewrite rev_app_distr.
  rewrite trimStart_all_ws; [reflexivity|].
  apply Forall_rev. exact Hv.
Qed.

Lemma trimEnd_prefix (P : N -> Prop) s : Forall P s -> Forall P (trimEnd s).
Proof.
  intros Hs. unfold trimEnd. apply Forall_rev, trimStart_suffix, Forall_rev.
  exact Hs.
Qed.

Lemma trimStart_cases s :
  trimStart s = [] \/ exists x t, trimStart s = x :: t /\ is_ws x = false.
Proof.
  induction s as [|x s IH]; simpl; [left; reflexivity|].
  destruct (is_ws x) eqn:E; [exact IH|].
  right. exists x, s. split; [reflexivity | exact E].
Qed.

Lemma trim_idem s : trim (trim s) = trim s.
Proof.
  unfold trim.
  destruct (trimStart_cases s) as [E | (x & t & E & Hx)]; rewrite E.
  - reflexivity.
  - rewrite (trimEnd_cons_keep x t Hx). simpl.
    rewrite Hx. rewrite (trimEnd_cons_keep x (trimEnd t) Hx).
    rewrite trimEnd_idem. reflexivity.
Qed.

Lemma trim_pad pre s post :
  Forall (fun x => is_ws x = true) pre ->
  Forall (fun x => is_ws x = true) post ->
  trim (pre ++ s ++ post) = trim s.
Proof.
  intros Hpre Hpost. unfold trim.
  rewrite trimStart_all_ws by exact Hpre.
  destruct (trimStart_cases s) as [E | (x & t & E & Hx)].
  - assert (Hs : Forall (fun x => is_ws x = true) s).
    { clear -E. induction s as [|y s IH]; [constructor|].
      simpl in E. destruct (is_ws y) eqn:Ey; [|discriminate].
      constructor; auto. }
    rewrite trimStart_all_ws by exact Hs. rewrite E.
    rewrite <- (app_nil_l (trimStart post)).
    rewrite trimEnd_all_ws by (apply trimStart_suffix; exact Hpost).
    reflexivity.
  - assert (E' : trimStart (s ++ post) = trimStart s ++ post).
    { clear -E Hx. induction s as [|y s IH]; [discriminate|].
      simpl in *. destruct (is_ws y); [exact (IH E) | reflexivity]. }
    rewrite E'. apply trimEnd_all_ws. exact Hpost.
Qed.

Lemma startsWith_app p s : startsWith p (p ++ s) = true.
Proof.
  induction p as [|a p IH]; simpl; [reflexivity|].
  rewrite N.eqb_refl. exact IH.
Qed.

Lemma startsWith_inv p s :
  startsWith p s = true -> exists t, s = p ++ t.
Proof.
  revert s. induction p as [|a p IH]; intros s Hs.
  - exists s. reflexivity.
  - destruct s as [|b s]; [discriminate|]. simpl in Hs.
    apply andb_true_iff in Hs as [Hab Hs].
    apply N.eqb_eq in Hab. subst b.
    destruct (IH _ Hs) as [t ->]. exists t. reflexivity.
Qed.

(** ** The matcher *)

Section MatcherFacts.
Context {R : Type}.
Variable ic : bool.

Implicit Types (k : jsstring -> captures -> option R).

Lemma rmatch_lit_go l s caps k :
  rmatch ic (lit_go l) s caps k
  = if lit_prefix ic l s then k (drop (length l) s) caps else None.
Proof.
  revert s. induction l as [|c l IH]; intros s; [reflexivity|].
  destruct l as [|c' l].
  - simpl. destruct s as [|x s]; [reflexivity|].
    rewrite andb_true_r. reflexivity.
  - change (lit_go (c :: c' :: l)) with (Seq (Chr c) (lit_go (c' :: l))).
    cbn [rmatch]. destruct s as [|x s]; [reflexivity|].
    cbn [lit_prefix]. destruct (chr_eq ic c x); [|reflexivity].
    rewrite IH. reflexivity.
Qed.

Lemma rmatch_char r p s caps k :
  char_test ic r = Some p ->
  rmatch ic r s caps k
  = match s with
    | x :: s' => if p x then k s' caps else None
    | [] => None
    end.
Proof.
  destruct r; simpl; intros E; try discriminate; injection E as <-;
    try reflexivity.
  destruct s as [|x s]; [reflexivity|].
  destruct (is_line_terminator x); reflexivity.
Qed.

(** A greedy loop over single code units runs to the end of the run, and
    stays there when the continuation accepts. *)
Lemma star_loop_run r p run rest caps k v fuel :
  char_test ic r = Some p ->
  Forall (fun x => p x = true) run ->
  match rest with [] => True | x :: _ => p x = false end ->
  k rest caps = Some v ->
  (length (run ++ rest) < fuel)%nat ->
  star_loop true (rmatch ic r) k fuel (run ++ rest) caps = Some v.
Proof.
  intros Hr Hrun Hrest Hk. revert fuel.
  induction Hrun as [|x run Hx _ IH]; intros fuel Hfuel.
  - destruct fuel as [|fuel]; [simpl in Hfuel; lia|].
    simpl. rewrite (rmatch_char r p) by exact Hr.
    destruct rest as [|y rest]; [exact Hk|].
    rewrite Hrest. exact Hk.
  - destruct fuel as [|fuel]; [simpl in Hfuel; lia|].
    cbn [star_loop app]. rewrite (rmatch_char r p) by exact Hr.
    rewrite Hx.
    replace (length (run ++ rest) <? length (x :: run ++ rest))%nat
      with true by (symmetry; apply Nat.ltb_lt; simpl; lia).
    rewrite IH by (simpl in Hfuel; lia). reflexivity.
Qed.

Lemma rmatch_star_run r p run rest caps k v :
  char_test ic r = Some p ->
  Forall (fun x => p x = true) run ->
  match rest with [] => True | x :: _ => p x = false end ->
  k rest caps = Some v ->
  rmatch ic (Star true r) (run ++ rest) caps k = Some v.
Proof.
  intros. cbn [rmatch]. eapply star_loop_run; eauto.
Qed.

Lemma rmatch_plus_run r p x run rest caps k v :
  char_test ic r = Some p ->
  Forall (fun x => p x = true) (x :: run) ->
  match rest with [] => True | x :: _ => p x = false end ->
  k rest caps = Some v ->
  rmatch ic (Plus r) (x :: run ++ rest) caps k = Some v.
Proof.
  intros Hr Hrun Hrest Hk. unfold Plus. cbn [rmatch].
  rewrite (rmatch_char r p) by exact Hr.
  inversion Hrun as [|? ? Hx Hrun']; subst. rewrite Hx.
  eapply star_loop_run; eauto.
Qed.

(** Soundness of the matcher, see [run_of]. *)
Lemma star_loop_sound g r k :
  (forall s caps k' x,
      rmatch ic r s caps k' = Some x -> run_of ic r s caps k' x) ->
  forall fuel s caps x,
    star_loop g (rmatch ic r) k fuel s caps = Some x ->
    run_of ic (Star g r) s caps k x.
Proof.
  intros Hbody.
  assert (Hstop : forall s caps x, k s caps = Some x ->
                                   run_of ic (Star g r) s caps k x).
  { intros s caps x Hk. exists [], s, caps. split; [reflexivity|].
    split; [|split; [reflexivity | exact Hk]].
    exists []. split; [reflexivity | exact I]. }
  induction fuel as [|fuel IH]; intros s caps x; [discriminate|].
  assert (Hiter : forall s0 caps0,
    rmatch ic r s0 caps0
      (fun s' caps' =>
         if (length s' <? length s0)%nat
         then star_loop g (rmatch ic r) k fuel s' caps' else None) = Some x ->
    run_of ic (Star g r) s0 caps0 k x).
  { intros s0 caps0 E.
    apply Hbody in E as (p & s' & caps' & -> & Hp & Hc & E).
    destruct (length s' <? length (p ++ s'))%nat; [|discriminate].
    apply IH in E
      as (s1 & s2 & caps'' & -> & (pieces & -> & Hpieces) & Hc' & E).
    exists (p ++ concat pieces), s2, caps''.
    split; [rewrite app_assoc; reflexivity|].
    split; [|split; [|exact E]].
    - exists (p :: pieces). split; [reflexivity|].
      split; [exact Hp | exact Hpieces].
    - intros Hg. rewrite (Hc' Hg). exact (Hc Hg). }
  simpl. destruct g.
  - destruct (rmatch ic r s caps _) as [y|] eqn:E.
    + intros [= ->]. eapply Hiter; eauto.
    + apply Hstop.
  - destruct (k s caps) as [y|] eqn:E.
    + intros [= ->]. eapply Hstop; eauto.
    + apply Hiter.
Qed.

Lemma rmatch_sound r :
  forall s caps k x, rmatch ic r s caps k = Some x -> run_of ic r s caps k x.
Proof.
  induction r as [| |c|neg rs| |r1 IH1 r2 IH2|r1 IH1 r2 IH2|r1 IH1|g r1 IH1|i r1 IH1];
    intros s caps k x Hm.
  - exists [], s, caps. simpl in *. auto.
  - simpl in Hm. destruct s; [|discriminate].
    exists [], [], caps. simpl. auto.
  - simpl in Hm. destruct s as [|y s]; [discriminate|].
    destruct (chr_eq ic c y) eqn:E; [|discriminate].
    exists [y], s, caps. simpl. eauto 6.
  - simpl in Hm. destruct s as [|y s]; [discriminate|].
    destruct (cls_mem ic neg rs y) eqn:E; [|discriminate].
    exists [y], s, caps. simpl. eauto 6.
  - simpl in Hm. destruct s as [|y s]; [discriminate|].
    destruct (is_line_terminator y) eqn:E; [discriminate|].
    exists [y], s, caps. simpl. eauto 6.
  - simpl in Hm.
    apply IH1 in Hm as (s1 & s' & caps1 & -> & H1 & Hc1 & Hm).
    apply IH2 in Hm as (s2 & s3 & caps2 & -> & H2 & Hc2 & Hm).
    exists (s1 ++ s2), s3, caps2.
    split; [rewrite app_assoc; reflexivity|].
    split; [|split; [|exact Hm]].
    + simpl. exists s1, s2. auto.
    + simpl. intros Hg. apply orb_false_iff in Hg as [Hg1 Hg2].
      rewrite (Hc2 Hg2). exact (Hc1 Hg1).
  - simpl in Hm. destruct (rmatch ic r1 s caps k) as [y|] eqn:E.
    + injection Hm as ->.
      apply IH1 in E as (s1 & s2 & caps' & -> & H1 & Hc & E).
      exists s1, s2, caps'. simpl. repeat split; auto.
      intros Hg. apply orb_false_iff in Hg as [Hg1 Hg2]. auto.
    + apply IH2 in Hm as (s1 & s2 & caps' & -> & H2 & Hc & Hm).
      exists s1, s2, caps'. simpl. repeat split; auto.
      intros Hg. apply orb_false_iff in Hg as [Hg1 Hg2]. auto.
  - simpl in Hm. destruct (rmatch ic r1 s caps _) as [y|] eqn:E.
    + injection Hm as ->.
      apply IH1 in E as (s1 & s2 & caps' & -> & H1 & Hc & E).
      destruct (length s2 <? length (s1 ++ s2))%nat; [|discriminate].
      exists s1, s2, caps'. simpl. auto.
    + exists [], s, caps. simpl. auto.
  - cbn [rmatch] in Hm. eapply star_loop_sound; eauto.
  - simpl in Hm.
    apply IH1 in Hm as (s1 & s2 & caps' & -> & H1 & Hc & Hm).
    exists s1, s2,
      ((i, take (length (s1 ++ s2) - length s2) (s1 ++ s2)) :: caps').
    simpl. repeat split; auto. discriminate.
Qed.
End MatcherFacts.

Section Fuel.
Context {R : Type}.
Variable ic : bool.
Implicit Types (k : jsstring -> captures -> option R).

Lemma star_loop_ext g
    (body : jsstring -> captures -> (jsstring -> captures -> option R) -> option R)
    k1 k2 :
  (forall s caps k k',
      (forall s' caps', k s' caps' = k' s' caps') ->
      body s caps k = body s caps k') ->
  (forall s' caps', k1 s' caps' = k2 s' caps') ->
  forall fuel s caps,
    star_loop g body k1 fuel s caps = star_loop g body k2 fuel s caps.
Proof.
  intros Hbody Hk. induction fuel as [|fuel IH]; intros s caps; [reflexivity|].
  cbn [star_loop]. rewrite Hk.
  rewrite (Hbody s caps _
             (fun s' caps' =>
                if (length s' <? length s)%nat
                then star_loop g body k2 fuel s' caps' else None)).
  - reflexivity.
  - intros s' caps'. rewrite IH. reflexivity.
Qed.

(** The matcher only looks at what its continuation returns. *)
Lemma rmatch_ext r :
  forall s caps k1 k2,
    (forall s' caps', k1 s' caps' = k2 s' caps') ->
    rmatch ic r s caps k1 = rmatch ic r s caps k2.
Proof.
  induction r as [| |c|neg rs| |r1 IH1 r2 IH2|r1 IH1 r2 IH2|r1 IH1|g r1 IH1|i r1 IH1];
    intros s caps k1 k2 Hk; cbn [rmatch].
  - apply Hk.
  - destruct s; [apply Hk | reflexivity].
  - destruct s as [|x s]; [reflexivity|]. rewrite Hk. reflexivity.
  - destruct s as [|x s]; [reflexivity|]. rewrite Hk. reflexivity.
  - destruct s as [|x s]; [reflexivity|]. rewrite Hk. reflexivity.
  - apply IH1. intros s' caps'. apply IH2. exact Hk.
  - rewrite (IH1 s caps k1 k2 Hk), (IH2 s caps k1 k2 Hk). reflexivity.
  - rewrite Hk.
    rewrite (IH1 s caps _
               (fun s' caps' =>
                  if (length s' <? length s)%nat then k2 s' caps' else None)).
    + reflexivity.
    + intros s' caps'. rewrite Hk. reflexivity.
  - apply star_loop_ext; [|exact Hk].
    intros s0 caps0 k k' Hkk. apply IH1. exact Hkk.
  - apply IH1. intros s' caps'. apply Hk.
Qed.

(** The rounds given to a loop are enough: more of them change nothing. *)
Lemma star_loop_fuel g r k :
  forall fuel1 fuel2 s caps,
    (length s < fuel1)%nat -> (length s < fuel2)%nat ->
    star_loop g (rmatch ic r) k fuel1 s caps
    = star_loop g (rmatch ic r) k fuel2 s caps.
Proof.
  induction fuel1 as [|fuel1 IH]; intros fuel2 s caps H1 H2; [lia|].
  destruct fuel2 as [|fuel2]; [lia|]. cbn [star_loop].
  rewrite (rmatch_ext r s caps
             (fun s' caps' =>
                if (length s' <? length s)%nat
                then star_loop g (rmatch ic r) k fuel1 s' caps' else None)
             (fun s' caps' =>
                if (length s' <? length s)%nat
                then star_loop g (rmatch ic r) k fuel2 s' caps' else None)).
  - reflexivity.
  - intros s' caps'. destruct (length s' <? length s)%nat eqn:E; [|reflexivity].
    apply Nat.ltb_lt in E. apply IH; lia.
Qed.
End Fuel.

Lemma match_here_sound ic r s n caps :
  match_here ic r s = Some (n, caps) ->
  exists s1 s2, s = s1 ++ s2 /\ lang ic r s1 s2 /\ n = length s1.
Proof.
  unfold match_here. intros Hm.
  apply rmatch_sound in Hm as (s1 & s2 & caps' & -> & H1 & _ & [= <- _]).
  exists s1, s2. split; [reflexivity|]. split; [exact H1|].
  rewrite length_app. lia.
Qed.

Lemma exec_sound ic r s caps :
  exec ic r s = Some caps ->
  exists pre m rest, s = pre ++ m ++ rest /\ lang ic r m rest.
Proof.
  induction s as [|x s IH]; simpl.
  - destruct (match_here ic r []) as [[n c]|] eqn:E; [|discriminate].
    intros _. apply match_here_sound in E as (s1 & s2 & E & H1 & _).
    exists [], s1, s2. auto.
  - destruct (match_here ic r (x :: s)) as [[n c]|] eqn:E.
    + intros _. apply match_here_sound in E as (s1 & s2 & E & H1 & _).
      exists [], s1, s2. auto.
    + intros Hs. apply IH in Hs as (pre & m & rest & -> & Hm).
      exists (x :: pre), m, rest. auto.
Qed.

Lemma exec_here ic r s n caps :
  match_here ic r s = Some (n, caps) -> exec ic r s = Some caps.
Proof. intros E. destruct s; simpl; rewrite E; reflexivity. Qed.
Lemma in_range_spec x a b : in_range x (a, b) = true <-> a <= x /\ x <= b.
Proof.
  unfold in_range. simpl. rewrite andb_true_iff, !N.leb_le. reflexivity.
Qed.

Lemma alnum_not_ws x : is_alnum x = true -> is_ws x = false.
Proof.
  intros Ha. destruct (is_ws x) eqn:Ew; [exfalso | reflexivity].
  apply existsb_exists in Ha as ([a b] & Hin & Ha).
  apply existsb_exists in Ew as ([c d] & Hin' & Ew).
  apply in_range_spec in Ha, Ew.
  simpl in Hin, Hin'.
  repeat (destruct Hin as [[= <- <-] | Hin]; [|]); try contradiction;
  repeat (destruct Hin' as [[= <- <-] | Hin']; [|]); try contradiction; lia.
Qed.

Lemma swapcase_47 x : x <> 47 -> swapcase x <> 47.
Proof.
  unfold swapcase. intros Hx.
  destruct (N.leb_spec 65 x), (N.leb_spec x 90), (N.leb_spec 97 x),
    (N.leb_spec x 122); simpl; lia.
Qed.

Lemma host_char x : x <> 47 -> cls_mem true true [(47, 47)] x = true.
Proof.
  intros Hx. pose proof (swapcase_47 x Hx) as Hs.
  unfold cls_mem, existsb, in_range; simpl.
  destruct (N.leb_spec 47 x), (N.leb_spec x 47), (N.leb_spec 47 (swapcase x)),
    (N.leb_spec (swapcase x) 47); simpl; try reflexivity; lia.
Qed.

Lemma alnum_char x : is_alnum x = true -> cls_mem true false [(65, 90); (97, 122); (48, 57)] x = true.
Proof.
  intros Hx. unfold cls_mem. fold (is_alnum x). rewrite Hx. reflexivity.
Qed.

Section Steps.
Context {R : Type} (ic : bool).
Implicit Types (k : jsstring -> captures -> option R).

Lemma lit_prefix_app l s : lit_prefix ic l (l ++ s) = true.
Proof.
  induction l as [|c l IH]; simpl; [reflexivity|].
  unfold chr_eq. rewrite N.eqb_refl. exact IH.
Qed.

Lemma rmatch_lit_app l s caps k :
  rmatch ic (lit_go l) (l ++ s) caps k = k s caps.
Proof.
  rewrite rmatch_lit_go, lit_prefix_app, drop_app_length. reflexivity.
Qed.

Lemma rmatch_Seq r1 r2 s caps k :
  rmatch ic (Seq r1 r2) s caps k
  = rmatch ic r1 s caps (fun s' caps' => rmatch ic r2 s' caps' k).
Proof. reflexivity. Qed.

Lemma rmatch_Opt r s caps k :
  rmatch ic (Opt r) s caps k
  = match rmatch ic r s caps
            (fun s' caps' =>
               if (length s' <? length s)%nat then k s' caps' else None) with
    | Some x => Some x
    | None => k s caps
    end.
Proof. reflexivity. Qed.

Lemma rmatch_Alt r1 r2 s caps k :
  rmatch ic (Alt r1 r2) s caps k
  = match rmatch ic r1 s caps k with
    | Some x => Some x
    | None => rmatch ic r2 s caps k
    end.
Proof. reflexivity. Qed.

Lemma rmatch_Grp i r s caps k :
  rmatch ic (Grp i r) s caps k
  = rmatch ic r s caps
      (fun s' caps' => k s' ((i, take (length s - length s') s) :: caps')).
Proof. reflexivity. Qed.

Lemma rmatch_Eos s caps k :
  rmatch ic Eos s caps k = match s with [] => k s caps | _ :: _ => None end.
Proof. reflexivity. Qed.

Lemma rmatch_opt_take r s caps k v :
  rmatch ic r s caps
    (fun s' caps' => if (length s' <? length s)%nat then k s' caps' else None)
  = Some v ->
  rmatch ic (Opt r) s caps k = Some v.
Proof. intros E. cbn [rmatch]. rewrite E. reflexivity. Qed.

Lemma rmatch_opt_skip r s caps k v :
  rmatch ic r s caps
    (fun s' caps' => if (length s' <? length s)%nat then k s' caps' else None)
  = None ->
  k s caps = Some v ->
  rmatch ic (Opt r) s caps k = Some v.
Proof. intros E Hk. cbn [rmatch]. rewrite E. exact Hk. Qed.
End Steps.

Lemma url_tail_value {R} tail caps (k : jsstring -> captures -> option R) x :
  rmatch true url_tail tail caps k = Some x -> k [] caps = Some x.
Proof.
  intros E.
  apply rmatch_sound in E as (s1 & s2 & caps' & -> & Hl & Hc & E).
  rewrite (Hc eq_refl) in E.
  destruct Hl as (a & b & -> & _ & (c & d & -> & _ & _ & ->)).
  exact E.
Qed.

Lemma url_tail_some {R} tail caps (k : jsstring -> captures -> option R) v :
  tail_ok tail ->
  k [] caps = Some v ->
  rmatch true url_tail tail caps k = Some v.
Proof.
  intros [-> | (c & t & -> & Hc & Ht)] Hk; [exact Hk|].
  match goal with |- ?m = _ => destruct m as [x|] eqn:E end.
  - apply url_tail_value in E. congruence.
  - exfalso. revert E. unfold url_tail. cbn [seqs].
    rewrite rmatch_Seq, rmatch_Opt.
    match goal with |- context [match ?m with Some _ => _ | None => _ end] =>
      destruct m; [discriminate|] end.
    rewrite rmatch_Seq, rmatch_Opt.
    match goal with |- context [match ?m with Some _ => _ | None => _ end] =>
      assert (Hm : m = Some v); [|rewrite Hm; discriminate] end.
    rewrite rmatch_Seq.
    rewrite (rmatch_char true (Cls false [(47, 47); (63, 63)]) _ _ _ _ eq_refl).
    replace (cls_mem true false [(47, 47); (63, 63)] c) with true
      by (destruct Hc; subst c; reflexivity).
    rewrite <- (app_nil_r t) at 1.
    eapply rmatch_star_run; [reflexivity | | exact I | ].
    + eapply Forall_impl; [exact Ht|]. simpl. intros y ->. reflexivity.
    + exact Hk.
Qed.

Lemma URL_PATTERN_unfold :
  URL_PATTERN
  = Seq (lit "http")
      (Seq (Opt (lit "s"))
         (Seq (lit "://music.amazon.")
            (Seq (Plus (Cls true [(47, 47)]))
               (Seq (lit "/")
                  (Seq (Grp 1 (alts [lit "albums"; lit "tracks"; lit "artists";
                                     lit "playlists"; lit "user-playlists"]))
                     (Seq (lit "/") (Seq (Grp 2 (Plus alnum)) url_tail))))))).
Proof. reflexivity. Qed.

Lemma tail_ok_head tail :
  tail_ok tail ->
  match tail with
  | [] => True
  | x :: _ => cls_mem true false [(65, 90); (97, 122); (48, 57)] x = false
  end.
Proof.
  intros [-> | (c & t & -> & [-> | ->] & _)]; [exact I | reflexivity..].
Qed.

Ltac eval_lits :=
  repeat match goal with
         | |- context [lit_prefix ?ic ?l ?s] =>
           let v := eval cbv in (lit_prefix ic l s) in
           change (lit_prefix ic l s) with v
         | |- context [drop (length ?l) ?s] =>
           let v := eval cbv in (drop (length l) s) in
           change (drop (length l) s) with v
         end;
  cbv iota.

Lemma kind_alts {R} kind rest caps (k : jsstring -> captures -> option R) v :
  In kind kind_segments ->
  k rest caps = Some v ->
  rmatch true
    (alts [lit "albums"; lit "tracks"; lit "artists"; lit "playlists";
           lit "user-playlists"])
    (kind ++ rest) caps k = Some v.
Proof.
  intros Hkind Hk. cbn [alts]. unfold lit.
  rewrite !rmatch_Alt, !rmatch_lit_go.
  simpl in Hkind.
  destruct Hkind as [<- | [<- | [<- | [<- | [<- | []]]]]];
    eval_lits; rewrite ?Hk; reflexivity.
Qed.

Lemma take_app_minus (a b : jsstring) :
  take (length (a ++ b) - length b) (a ++ b) = a.
Proof.
  rewrite length_app, Nat.add_sub. apply take_app_length.
Qed.

Lemma match_here_canonical scheme host kind id tail :
  (scheme = str "http" \/ scheme = str "https") ->
  host <> [] -> Forall (fun x => x <> 47) host ->
  In kind kind_segments ->
  id <> [] -> Forall (fun x => is_alnum x = true) id ->
  tail_ok tail ->
  let s := scheme ++ str "://music.amazon." ++ host ++ str "/" ++ kind
             ++ str "/" ++ id ++ tail in
  match_here true URL_PATTERN s = Some (length s, [(2%nat, id); (1%nat, kind)]).
Proof.
  intros Hscheme Hhost Hhost' Hkind Hid Hid' Htail s.
  unfold match_here. rewrite URL_PATTERN_unfold.
  set (kfin := fun (s' : jsstring) (caps : captures) =>
                 Some ((length s - length s')%nat, caps)).
  set (rest1 := str "://music.amazon." ++ host ++ str "/" ++ kind
                  ++ str "/" ++ id ++ tail) in *.
  set (after_s := Seq (lit "://music.amazon.") _).
  assert (Hrest1 : rmatch true after_s rest1 [] kfin
                   = Some (length s, [(2%nat, id); (1%nat, kind)])).
  { subst after_s rest1. rewrite rmatch_Seq. unfold lit at 1.
    rewrite rmatch_lit_app. rewrite rmatch_Seq.
    destruct host as [|h host]; [contradiction|].
    cbn [app]. eapply rmatch_plus_run; [reflexivity | | reflexivity | ].
    { eapply Forall_impl; [exact Hhost'|]. apply host_char. }
    rewrite rmatch_Seq. unfold lit at 1. rewrite rmatch_lit_app.
    rewrite rmatch_Seq, rmatch_Grp.
    apply kind_alts; [exact Hkind|].
    rewrite take_app_minus.
    rewrite rmatch_Seq. unfold lit at 1. rewrite rmatch_lit_app.
    rewrite rmatch_Seq, rmatch_Grp.
    destruct id as [|i id]; [contradiction|].
    cbn [app]. eapply rmatch_plus_run; [reflexivity | | | ].
    { eapply Forall_impl; [exact Hid'|]. apply alnum_char. }
    { apply tail_ok_head. exact Htail. }
    apply url_tail_some; [exact Htail|].
    subst kfin. cbv beta.
    change (i :: id ++ tail) with ((i :: id) ++ tail).
    rewrite take_app_minus.
    change (length (@nil N)) with 0%nat. rewrite Nat.sub_0_r. reflexivity. }
  destruct Hscheme as [-> | ->].
  - change (rmatch true (Seq (lit "http") (Seq (Opt (lit "s")) after_s))
              (str "http" ++ rest1) [] kfin = Some (length s, [(2%nat, id); (1%nat, kind)])).
    rewrite rmatch_Seq. unfold lit at 1. rewrite rmatch_lit_app.
    rewrite rmatch_Seq. apply rmatch_opt_skip; [|exact Hrest1].
    unfold lit. rewrite rmatch_lit_go. reflexivity.
  - change (rmatch true (Seq (lit "http") (Seq (Opt (lit "s")) after_s))
              (str "http" ++ str "s" ++ rest1) [] kfin
            = Some (length s, [(2%nat, id); (1%nat, kind)])).
    rewrite rmatch_Seq. unfold lit at 1. rewrite rmatch_lit_app.
    rewrite rmatch_Seq. apply rmatch_opt_take.
    unfold lit at 1. rewrite rmatch_lit_app.
    replace (length rest1 <? length (str "s" ++ rest1))%nat with true
      by (symmetry; apply Nat.ltb_lt; simpl; lia).
    exact Hrest1.
Qed.

Lemma trim_canonical s kind id :
  canonical_url s kind id ->
  exists scheme host tail,
    trim s = scheme ++ str "://music.amazon." ++ host ++ str "/" ++ kind
               ++ str "/" ++ id ++ tail
    /\ (scheme = str "http" \/ scheme = str "https")
    /\ host <> [] /\ Forall (fun x => x <> 47) host
    /\ tail_ok tail.
Proof.
  intros (scheme & host & tail & -> & Hscheme & Hhost & Hhost' & _ & Hid & Hid' & Htail).
  exists scheme, host, (trimEnd tail).
  split; [|split; [exact Hscheme | split; [exact Hhost | split; [exact Hhost'|]]]].
  - unfold trim.
    assert (Hstart : forall t, trimStart (scheme ++ t) = scheme ++ t)
      by (intros t; destruct Hscheme as [-> | ->]; reflexivity).
    rewrite Hstart.
    destruct (exists_last Hid) as (q & z & ->).
    assert (Hz : is_ws z = false).
    { apply alnum_not_ws. apply Forall_app in Hid' as [_ Hz].
      inversion Hz; assumption. }
    rewrite <- !app_assoc. cbn [app].
    rewrite !app_assoc. rewrite trimEnd_app_keep by exact Hz. reflexivity.
  - destruct Htail as [-> | (c & t & -> & Hc & Ht)]; [left; reflexivity|].
    right. exists c, (trimEnd t).
    split; [|split; [exact Hc | apply trimEnd_prefix; exact Ht]].
    apply trimEnd_cons_keep. destruct Hc as [-> | ->]; reflexivity.
Qed.

Lemma kind_segment_nonempty kind : In kind kind_segments -> is_empty kind = false.
Proof.
  simpl. intros [<- | [<- | [<- | [<- | [<- | []]]]]]; reflexivity.
Qed.

Lemma parseUrl_canonical s kind id :
  canonical_url s kind id ->
  parseUrl s = Some {| parsed_type := kind; parsed_id := id |}.
Proof.
  intros Hc. destruct (trim_canonical s kind id Hc)
    as (scheme & host & tail & E & Hscheme & Hhost & Hhost' & Htail).
  destruct Hc as (_ & _ & _ & _ & _ & _ & _ & Hkind & Hid & Hid' & _).
  unfold parseUrl. rewrite E.
  erewrite exec_here
    by (apply match_here_canonical; assumption).
  cbn [group Nat.eqb].
  rewrite (kind_segment_nonempty kind Hkind).
  destruct id; [contradiction | reflexivity].
Qed.

(** *** What a match of [URL_PATTERN] looks like *)

Lemma lang_lit_go ic l s rest :
  lang ic (lit_go l) s rest -> Forall2 (fun c x => chr_eq ic c x = true) l s.
Proof.
  revert s. induction l as [|c l IH]; intros s Hs.
  - simpl in Hs. subst s. constructor.
  - destruct l as [|c' l].
    + simpl in Hs. destruct Hs as (x & -> & Hx). repeat constructor. exact Hx.
    + change (lit_go (c :: c' :: l)) with (Seq (Chr c) (lit_go (c' :: l))) in Hs.
      cbn [lang] in Hs. destruct Hs as (s1 & s2 & -> & (x & -> & Hx) & Hs).
      constructor; [exact Hx | apply IH; exact Hs].
Qed.

Lemma lang_plus_char ic r p s rest :
  char_test ic r = Some p ->
  lang ic (Plus r) s rest -> s <> [] /\ Forall (fun x => p x = true) s.
Proof.
  intros Hr (s1 & s2 & -> & H1 & (pieces & -> & Hp)).
  assert (Hone : forall t rest', lang ic r t rest' ->
                                 exists x, t = [x] /\ p x = true).
  { intros t rest'. destruct r; simpl in Hr; try discriminate;
      injection Hr as <-; simpl; intros (x & -> & Hx); exists x;
      (split; [reflexivity|]); try exact Hx.
    rewrite Hx. reflexivity. }
  apply Hone in H1 as (x & -> & Hx).
  split; [discriminate|]. constructor; [exact Hx|].
  clear -Hp Hone. induction pieces as [|q pieces IH]; [constructor|].
  destruct Hp as [Hq Hp]. apply Hone in Hq as (y & -> & Hy).
  simpl. constructor; [exact Hy | exact (IH Hp)].
Qed.

Lemma swapcase_alnum x : is_alnum (swapcase x) = true -> is_alnum x = true.
Proof.
  unfold is_alnum, swapcase, existsb, in_range. simpl.
  destruct (N.leb_spec 65 x), (N.leb_spec x 90), (N.leb_spec 97 x),
    (N.leb_spec x 122), (N.leb_spec 48 x), (N.leb_spec x 57); simpl;
    try reflexivity; intros Hs;
    repeat match type of Hs with
           | context [N.leb ?a ?b] => destruct (N.leb_spec a b)
           end; simpl in Hs; try discriminate; lia.
Qed.

Lemma alnum_char_inv x :
  cls_mem true false [(65, 90); (97, 122); (48, 57)] x = true ->
  is_alnum x = true.
Proof.
  unfold cls_mem. fold (is_alnum x). fold (is_alnum (swapcase x)).
  simpl. intros Hx. apply orb_true_iff in Hx as [Hx | Hx]; [exact Hx|].
  apply swapcase_alnum. exact Hx.
Qed.

Lemma host_char_inv x : cls_mem true true [(47, 47)] x = true -> x <> 47.
Proof. intros Hx ->. discriminate. Qed.

Lemma lang_url_tail t rest :
  lang true url_tail t rest ->
  rest = [] /\ (t = [] \/ exists c u, t = c :: u /\ (c = 47 \/ c = 63)).
Proof.
  unfold url_tail. cbn [seqs lang].
  intros (s1 & s2 & -> & H1 & (s3 & s4 & -> & H3 & (-> & ->))).
  split; [reflexivity|]. rewrite app_nil_r.
  destruct H1 as [-> | (a & b & -> & Ha & _)].
  - destruct H3 as [-> | (a & b & -> & (x & -> & Hx) & _)];
      [left; reflexivity|].
    right. exists x, b. split; [reflexivity|].
    unfold cls_mem, existsb, in_range in Hx. simpl in Hx.
    destruct (N.leb_spec 47 x), (N.leb_spec x 47), (N.leb_spec 63 x),
      (N.leb_spec x 63); simpl in Hx; try lia.
    all: unfold swapcase in Hx;
      destruct (N.leb_spec 65 x), (N.leb_spec x 90), (N.leb_spec 97 x),
        (N.leb_spec x 122); simpl in Hx;
      repeat match type of Hx with
             | context [N.leb ?a ?b] => destruct (N.leb_spec a b)
             end; simpl in Hx; try discriminate; lia.
  - apply lang_lit_go in Ha. inversion Ha as [|c x l l' Hx Hl]; subst.
    inversion Hl; subst.
    right. exists x, (b ++ s3). split; [reflexivity|]. left.
    unfold chr_eq in Hx. apply orb_true_iff in Hx as [Hx | Hx].
    + apply N.eqb_eq in Hx. exact Hx.
    + simpl in Hx. apply N.eqb_eq in Hx.
      destruct (N.eq_dec x 47) as [E | E]; [exact E|].
      exfalso. exact (swapcase_47 x E Hx).
Qed.

Lemma lang_kind_alts kind rest :
  lang true
    (alts [lit "albums"; lit "tracks"; lit "artists"; lit "playlists";
           lit "user-playlists"]) kind rest ->
  exists seg, In seg kind_segments /\ ci_eq seg kind.
Proof.
  cbn [alts lang]. unfold lit.
  intros [H | [H | [H | [H | H]]]]; apply lang_lit_go in H;
    eexists; (split; [|exact H]); simpl; auto 6.
Qed.

Lemma lang_URL_PATTERN m rest :
  lang true URL_PATTERN m rest -> rest = [] /\ url_shape m.
Proof.
  rewrite URL_PATTERN_unfold. cbn [lang].
  intros (s1 & m1 & -> & Hhttp & (s2 & m2 & -> & Hs & (s3 & m3 & -> & Hsep &
    (host & m4 & -> & Hhost & (sl1 & m5 & -> & Hsl1 &
    (kind & m6 & -> & Hkind & (sl2 & m7 & -> & Hsl2 &
    (id & tail & -> & Hid & Htail)))))))).
  apply lang_url_tail in Htail as [-> Htail]. split; [reflexivity|].
  unfold lit in *.
  apply lang_lit_go in Hhttp, Hsep, Hsl1, Hsl2.
  apply (lang_plus_char true (Cls true [(47, 47)]) _ _ _ eq_refl)
    in Hhost as [Hhost Hhost'].
  apply (lang_plus_char true alnum _ _ _ eq_refl) in Hid as [Hid Hid'].
  apply lang_kind_alts in Hkind.
  assert (Hslash : forall t, Forall2 (fun c x => chr_eq true c x = true) (str "/") t
                             -> t = [47]).
  { intros t Ht. inversion Ht as [|c x l l' Hx Hl]; subst. inversion Hl; subst.
    f_equal. unfold chr_eq in Hx. apply orb_true_iff in Hx as [Hx | Hx].
    - apply N.eqb_eq in Hx. exact Hx.
    - simpl in Hx. apply N.eqb_eq in Hx.
      destruct (N.eq_dec x 47) as [E | E]; [exact E|].
      exfalso. exact (swapcase_47 x E Hx). }
  apply Hslash in Hsl1, Hsl2. subst sl1 sl2.
  exists (s1 ++ s2), s3, host, kind, id, tail.
  rewrite <- ?app_assoc.
  split; [reflexivity|].
  split.
  { destruct Hs as [-> | Hs].
    - left. rewrite app_nil_r. exact Hhttp.
    - right. apply lang_lit_go in Hs.
      change (str "https") with (str "http" ++ str "s").
      apply Forall2_app; assumption. }
  split; [exact Hsep|].
  split; [exact Hhost|].
  split; [eapply Forall_impl; [exact Hhost'|]; apply host_char_inv|].
  split; [exact Hkind|].
  split; [exact Hid|].
  split; [eapply Forall_impl; [exact Hid'|]; apply alnum_char_inv|].
  destruct Htail as [-> | (c & u & -> & [-> | ->])]; [left; reflexivity | |];
    right; eexists _, _; (split; [reflexivity|]); auto.
Qed.

Lemma parseUrl_some_shape s p :
  parseUrl s = Some p -> ends_with_url (trim s).
Proof.
  unfold parseUrl. destruct (exec true URL_PATTERN (trim s)) as [caps|] eqn:E;
    [|discriminate].
  intros _. apply exec_sound in E as (pre & m & rest & E & Hm).
  apply lang_URL_PATTERN in Hm as [-> Hm].
  exists pre, m. rewrite app_nil_r in E. auto.
Qed.

(** ** The URL parser *)

(** C10: [parseUrl] does not see surrounding whitespace: it gives the same
    result on a string and on the string trimmed, so a string padded with
    whitespace on either side parses like the string itself; and a
    canonical URL padded with whitespace still parses, to its kind and
    id. *)
Theorem parseUrl_trim_invariant :
  (forall s, parseUrl s = parseUrl (trim s))
  /\ (forall pre s post,
         Forall (fun x => is_ws x = true) pre ->
         Forall (fun x => is_ws x = true) post ->
         parseUrl (pre ++ s ++ post) = parseUrl s)
  /\ (forall pre s post kind id,
         Forall (fun x => is_ws x = true) pre ->
         Forall (fun x => is_ws x = true) post ->
         canonical_url s kind id ->
         parseUrl (pre ++ s ++ post)
         = Some {| parsed_type := kind; parsed_id := id |}).
Proof.
  assert (Htrim : forall s, parseUrl s = parseUrl (trim s)).
  { intros s. unfold parseUrl. rewrite trim_idem. reflexivity. }
  assert (Hpad : forall pre s post,
             Forall (fun x => is_ws x = true) pre ->
             Forall (fun x => is_ws x = true) post ->
             parseUrl (pre ++ s ++ post) = parseUrl s).
  { intros pre s post Hpre Hpost.
    rewrite (Htrim (pre ++ s ++ post)), (Htrim s).
    rewrite trim_pad by assumption. reflexivity. }
  split; [exact Htrim|]. split; [exact Hpad|].
  intros pre s post kind id Hpre Hpost Hc.
  rewrite (Hpad pre s post Hpre Hpost). apply parseUrl_canonical. exact Hc.
Qed.

Lemma parseUrl_trim_invariant_witness :
  Forall (fun x => is_ws x = true) [32; 9]
  /\ Forall (fun x => is_ws x = true) [13; 10]
  /\ canonical_url (str "https://music.amazon.com/albums/B0ABC123")
                   (str "albums") (str "B0ABC123")
  /\ parseUrl ([32; 9] ++ str "https://music.amazon.com/albums/B0ABC123" ++ [13; 10])
     = parseUrl (str "https://music.amazon.com/albums/B0ABC123")
  /\ parseUrl ([32; 9] ++ str "https://music.amazon.com/albums/B0ABC123" ++ [13; 10])
     = Some {| parsed_type := str "albums"; parsed_id := str "B0ABC123" |}.
Proof.
  assert (H1 : Forall (fun x => is_ws x = true) [32; 9])
    by (repeat constructor).
  assert (H2 : Forall (fun x => is_ws x = true) [13; 10])
    by (repeat constructor).
  assert (Hc : canonical_url (str "https://music.amazon.com/albums/B0ABC123")
                             (str "albums") (str "B0ABC123")).
  { exists (str "https"), (str "com"), [].
    split; [reflexivity|]. split; [right; reflexivity|].
    split; [discriminate|].
    split; [repeat constructor; discriminate|].
    split; [simpl; auto|].
    split; [discriminate|].
    split; [repeat constructor|].
    left. reflexivity. }
  split; [exact H1|]. split; [exact H2|]. split; [exact Hc|].
  split.
  - exact (proj1 (proj2 parseUrl_trim_invariant) [32; 9]
                 (str "https://music.amazon.com/albums/B0ABC123") [13; 10] H1 H2).
  - exact (proj2 (proj2 parseUrl_trim_invariant) [32; 9]
                 (str "https://music.amazon.com/albums/B0ABC123") [13; 10]
                 (str "albums") (str "B0ABC123") H1 H2 Hc).
Defined.


(** A fragment right after the id is not accepted, while one after a slug
    is. *)
Example parseUrl_fragment :
  parseUrl (str "https://music.amazon.com/tracks/B079TPJ3G4#top") = None
  /\ parseUrl (str "https://music.amazon.com/tracks/B079TPJ3G4/song#top")
     = Some {| parsed_type := str "tracks"; parsed_id := str "B079TPJ3G4" |}.
Proof. split; vm_compute; reflexivity. Qed.

Example parseUrl_track :
  parseUrl (str "https://music.amazon.com/tracks/B079TPJ3G4?ref=x")
  = Some {| parsed_type := str "tracks"; parsed_id := str "B079TPJ3G4" |}.
Proof. vm_compute. reflexivity. Qed.

Example parseUrl_unknown_segment :
  parseUrl (str "https://music.amazon.com/unknown/B079TPJ3G4") = None.
Proof. vm_compute. reflexivity. Qed.

(** ** The extractor *)

Lemma split_go_nonempty sep skip cur s : split_go sep skip cur s <> [].
Proof.
  revert skip cur. induction s as [|x s IH]; intros skip cur; simpl.
  - discriminate.
  - destruct skip; [|apply IH].
    destruct (startsWith sep (x :: s)); [discriminate | apply IH].
Qed.

(** A separator that occurs in the string cuts it in at least two. *)
Lemma split_includes sep s :
  sep <> [] -> includes sep s = true -> (2 <= length (split sep s))%nat.
Proof.
  intros Hsep. unfold split. generalize (@nil N) as cur.
  induction s as [|x s IH]; intros cur Hin.
  - destruct sep; [contradiction | discriminate].
  - cbn [includes] in Hin. cbn [split_go].
    destruct (startsWith sep (x :: s)) eqn:E.
    + pose proof (split_go_nonempty sep (length sep - 1) [] s) as Hne.
      destruct (split_go sep (length sep - 1) [] s); [contradiction|].
      simpl. lia.
    + simpl in Hin. apply IH. exact Hin.
Qed.

Section Extractor.
Context (H : Host).

Implicit Types (m : Metadata (number H)) (f : field).

(** The first separator of the list that occurs in the title decides. *)
Lemma artist_from_title_cons sep seps m :
  sep <> [] ->
  artist_from_title H (sep :: seps) m
  = if includes sep (md_title m) then
      let candidate := trim (last_part (split sep (md_title m))) in
      if negb (is_empty candidate)
         && negb (jseqb candidate (str "Amazon Music"))
      then set_artist (VStr candidate) m
      else m
    else artist_from_title H seps m.
Proof.
  intros Hsep. cbn [artist_from_title].
  destruct (includes sep (md_title m)) eqn:E; [|reflexivity].
  pose proof (split_includes sep (md_title m) Hsep E) as Hlen.
  apply Nat.leb_le in Hlen. rewrite Hlen. reflexivity.
Qed.

(** *** What each stage leaves alone *)

Lemma meta_tag_keeps caps :
  keeps [FTitle; FDescription; FImage; FType; FSiteName; FAudio; FAlbumUrl]
        (meta_tag H caps).
Proof.
  intros m f Hf. unfold meta_tag.
  repeat match goal with
         | |- context [if ?b then _ else _] => destruct b
         end;
    try reflexivity;
    destruct f; try reflexivity; exfalso; apply Hf; simpl; auto 10.
Qed.

Lemma stage_meta_keeps html :
  keeps [FTitle; FDescription; FImage; FType; FSiteName; FAudio; FAlbumUrl]
        (stage_meta H html).
Proof.
  intros m f Hf. unfold stage_meta.
  generalize (exec_all false metaRegex html) as l. intros l. revert m.
  induction l as [|caps l IH]; intros m; [reflexivity|].
  simpl. rewrite IH. apply meta_tag_keeps. exact Hf.
Qed.

Lemma stage_title_keeps html : keeps [FTitle] (stage_title H html).
Proof.
  intros m f Hf. unfold stage_title.
  destruct (is_empty (md_title m)); [|reflexivity].
  destruct (exec true titleRegex html); [|reflexivity].
  destruct f; try reflexivity. exfalso. apply Hf. simpl. auto.
Qed.

Lemma stage_title_set html m :
  md_title m <> [] -> stage_title H html m = m.
Proof.
  intros Ht. unfold stage_title.
  destruct (md_title m); [contradiction | reflexivity].
Qed.

Lemma jsonld_duration_keeps jsonLd m m' f :
  jsonld_duration H jsonLd m = Some m' ->
  ~ In f [FDuration] -> field_value f m' = field_value f m.
Proof.
  unfold jsonld_duration. intros E Hf.
  destruct (get_prop H jsonLd (str "duration")) as [d|]; [|discriminate].
  destruct (truthy H d); [|injection E as <-; reflexivity].
  destruct (ToString H d) as [text|]; [|discriminate].
  destruct (exec false durationRegex text);
    injection E as <-; [|reflexivity].
  destruct f; try reflexivity. exfalso. apply Hf. simpl. auto.
Qed.

Lemma jsonld_fields_keeps jsonLd :
  keeps [FArtist; FAlbum; FDuration] (jsonld_fields H jsonLd).
Proof.
  intros m f Hf. unfold jsonld_fields.
  destruct (get_prop H jsonLd (str "@type")) as [ty|]; [|reflexivity].
  destruct (strict_eq_str H ty (str "MusicRecording")); [|reflexivity].
  destruct (get_prop H jsonLd (str "byArtist")) as [byArtist|]; [|reflexivity].
  set (m1 := if truthy H byArtist then _ else m).
  assert (H1 : field_value f m1 = field_value f m).
  { subst m1. destruct (truthy H byArtist); [|reflexivity].
    destruct (get_prop H byArtist (str "name")); [|reflexivity].
    destruct (get_prop H byArtist (str "@id")); [|reflexivity].
    destruct f; try reflexivity. exfalso. apply Hf. simpl. auto. }
  clearbody m1.
  destruct (get_prop H jsonLd (str "inAlbum")) as [inAlbum|]; [|exact H1].
  set (m2 := if truthy H inAlbum then _ else m1).
  assert (H2 : field_value f m2 = field_value f m).
  { subst m2. destruct (truthy H inAlbum); [|exact H1].
    destruct (get_prop H inAlbum (str "name")); [|exact H1].
    rewrite <- H1.
    destruct f; try reflexivity. exfalso. apply Hf. simpl. auto. }
  clearbody m2.
  destruct (jsonld_duration H jsonLd m2) as [m3|] eqn:E; [|exact H2].
  rewrite <- H2. eapply jsonld_duration_keeps; [exact E|].
  intros [<- | []]. apply Hf. simpl. auto.
Qed.

Lemma stage_jsonld_keeps html :
  keeps [FArtist; FAlbum; FDuration] (stage_jsonld H html).
Proof.
  intros m f Hf. unfold stage_jsonld.
  destruct (exec true jsonLdRegex html); [|reflexivity].
  destruct (JSON_parse H _); [|reflexivity].
  apply jsonld_fields_keeps. exact Hf.
Qed.

Lemma artist_from_title_keeps seps : keeps [FArtist] (artist_from_title H seps).
Proof.
  intros m f Hf. induction seps as [|sep seps IH]; [reflexivity|].
  cbn [artist_from_title].
  repeat match goal with
         | |- context [if ?b then _ else _] => destruct b
         end; try exact IH; try reflexivity.
  destruct f; try reflexivity. exfalso. apply Hf. simpl. auto.
Qed.

Lemma stage_artist_keeps : keeps [FArtist] (stage_artist H).
Proof.
  intros m f Hf. unfold stage_artist.
  destruct (_ && _); [|reflexivity].
  apply artist_from_title_keeps. exact Hf.
Qed.

Lemma stage_artist_set m :
  truthy H (md_artist m) = true -> stage_artist H m = m.
Proof. intros Ht. unfold stage_artist. rewrite Ht. reflexivity. Qed.

Lemma stage_album_keeps : keeps [FAlbum] (stage_album H).
Proof.
  intros m f Hf. unfold stage_album.
  destruct (_ && _); [|reflexivity].
  destruct (exec true albumRegex (md_description m)); [|reflexivity].
  destruct (_ && _); [|reflexivity].
  destruct f; try reflexivity. exfalso. apply Hf. simpl. auto.
Qed.

Lemma stage_album_set m :
  truthy H (md_album m) = true -> stage_album H m = m.
Proof. intros Ht. unfold stage_album. rewrite Ht. reflexivity. Qed.

(** *** A value written to [artist] or [album] is truthy *)

Lemma js_or_empty v : empty_or_truthy H (js_or H v (VStr [])).
Proof.
  unfold js_or. destruct (truthy H v) eqn:E; [right; exact E | left; reflexivity].
Qed.

Lemma jsonld_fields_truthy jsonLd m :
  empty_or_truthy H (md_artist m) -> empty_or_truthy H (md_album m) ->
  empty_or_truthy H (md_artist (jsonld_fields H jsonLd m))
  /\ empty_or_truthy H (md_album (jsonld_fields H jsonLd m)).
Proof.
  intros Ha Hb. unfold jsonld_fields.
  destruct (get_prop H jsonLd (str "@type")) as [ty|]; [|auto].
  destruct (strict_eq_str H ty (str "MusicRecording")); [|auto].
  destruct (get_prop H jsonLd (str "byArtist")) as [byArtist|]; [|auto].
  set (m1 := if truthy H byArtist then _ else m).
  assert (H1 : empty_or_truthy H (md_artist m1)
               /\ empty_or_truthy H (md_album m1)).
  { subst m1. destruct (truthy H byArtist); [|auto].
    destruct (get_prop H byArtist (str "name")); [|auto].
    destruct (get_prop H byArtist (str "@id")); [|auto].
    split; [apply js_or_empty | exact Hb]. }
  clearbody m1.
  destruct (get_prop H jsonLd (str "inAlbum")) as [inAlbum|]; [|exact H1].
  set (m2 := if truthy H inAlbum then _ else m1).
  assert (H2 : empty_or_truthy H (md_artist m2)
               /\ empty_or_truthy H (md_album m2)).
  { subst m2. destruct (truthy H inAlbum); [|exact H1].
    destruct (get_prop H inAlbum (str "name")); [|exact H1].
    split; [exact (proj1 H1) | apply js_or_empty]. }
  clearbody m2.
  destruct (jsonld_duration H jsonLd m2) as [m3|] eqn:E; [|exact H2].
  pose proof (jsonld_duration_keeps jsonLd m2 m3 FArtist E) as Ea.
  pose proof (jsonld_duration_keeps jsonLd m2 m3 FAlbum E) as Eb.
  simpl in Ea, Eb.
  rewrite Ea, Eb; [exact H2 | |]; intros [[=] | []].
Qed.

Lemma stage_jsonld_truthy html m :
  empty_or_truthy H (md_artist m) -> empty_or_truthy H (md_album m) ->
  empty_or_truthy H (md_artist (stage_jsonld H html m))
  /\ empty_or_truthy H (md_album (stage_jsonld H html m)).
Proof.
  intros Ha Hb. unfold stage_jsonld.
  destruct (exec true jsonLdRegex html); [|auto].
  destruct (JSON_parse H _); [|auto].
  apply jsonld_fields_truthy; assumption.
Qed.

Lemma not_in_1 (f g : field) : f <> g -> ~ In f [g].
Proof. intros Hfg [E | []]. congruence. Qed.

(** After the first two stages [artist], [album] and [duration] still
    have their defaults. *)
Lemma early_defaults html url k f :
  (k <= 2)%nat -> In f [FArtist; FAlbum; FDuration] ->
  field_value f (stages H k html url) = default_value H f.
Proof.
  intros Hk Hf.
  assert (Hnot : ~ In f [FTitle; FDescription; FImage; FType; FSiteName;
                         FAudio; FAlbumUrl]).
  { simpl in Hf. destruct Hf as [<- | [<- | [<- | []]]];
      simpl; intuition discriminate. }
  assert (Hnot' : ~ In f [FTitle]) by (intros [<- | []]; apply Hnot; simpl; auto).
  assert (H0 : field_value f (init_metadata H url) = default_value H f).
  { simpl in Hf. destruct Hf as [<- | [<- | [<- | []]]]; reflexivity. }
  destruct k as [|[|[|k]]]; [exact H0 | | | lia].
  - change (stages H 1 html url)
      with (stage_meta H html (init_metadata H url)).
    rewrite stage_meta_keeps by exact Hnot. exact H0.
  - change (stages H 2 html url)
      with (stage_title H html (stage_meta H html (init_metadata H url))).
    rewrite stage_title_keeps by exact Hnot'.
    rewrite stage_meta_keeps by exact Hnot. exact H0.
Qed.

Lemma stage3_truthy html url :
  empty_or_truthy H (md_artist (stages H 3 html url))
  /\ empty_or_truthy H (md_album (stages H 3 html url)).
Proof.
  pose proof (early_defaults html url 2 FArtist) as Ea.
  pose proof (early_defaults html url 2 FAlbum) as Eb.
  simpl in Ea, Eb.
  change (stages H 3 html url)
    with (stage_jsonld H html (stages H 2 html url)).
  apply stage_jsonld_truthy; left; [apply Ea | apply Eb]; auto.
Qed.

Lemma non_default_truthy (v : jsval (number H)) :
  empty_or_truthy H v -> v <> VStr [] -> truthy H v = true.
Proof. intros [-> | Ht] Hv; [contradiction | exact Ht]. Qed.

Lemma stages_saturate html url k :
  (5 <= k)%nat -> stages H k html url = stages H 5 html url.
Proof.
  intros Hk. do 5 (destruct k as [|k]; [lia|]). reflexivity.
Qed.

(** One more stage does not change a field that is set. *)
Lemma stage_step html url k f :
  field_value f (stages H k html url) <> default_value H f ->
  field_value f (stages H (S k) html url)
  = field_value f (stages H k html url).
Proof.
  intros Hset.
  destruct k as [|[|[|[|[|k]]]]].
  - (* the meta tags, on the initial record *)
    change (stages H 1 html url) with (stage_meta H html (stages H 0 html url)).
    apply stage_meta_keeps. intros Hf. apply Hset.
    simpl in Hf. decompose [or] Hf; subst; try reflexivity; contradiction.
  - (* the title element *)
    change (stages H 2 html url) with (stage_title H html (stages H 1 html url)).
    destruct f; try (apply stage_title_keeps; apply not_in_1; discriminate).
    rewrite stage_title_set; [reflexivity|].
    intros E. apply Hset. simpl. rewrite E. reflexivity.
  - (* the JSON-LD block *)
    change (stages H 3 html url) with (stage_jsonld H html (stages H 2 html url)).
    apply stage_jsonld_keeps. intros Hf. apply Hset.
    apply early_defaults; [lia | exact Hf].
  - (* the artist from the title *)
    change (stages H 4 html url) with (stage_artist H (stages H 3 html url)).
    destruct f; try (apply stage_artist_keeps; apply not_in_1; discriminate).
    rewrite stage_artist_set; [reflexivity|].
    apply non_default_truthy; [apply stage3_truthy | exact Hset].
  - (* the album from the description *)
    change (stages H 5 html url) with (stage_album H (stages H 4 html url)).
    destruct f; try (apply stage_album_keeps; apply not_in_1; discriminate).
    rewrite stage_album_set; [reflexivity|].
    apply non_default_truthy; [|exact Hset].
    change (stages H 4 html url) with (stage_artist H (stages H 3 html url)).
    pose proof (stage_artist_keeps (stages H 3 html url) FAlbum) as E.
    simpl in E. rewrite E by (apply not_in_1; discriminate).
    apply stage3_truthy.
  - rewrite !stages_saturate by lia. reflexivity.
Qed.

(** C2: extraction is monotonic per field.  Once a field holds a value
    other than its default after stage [k], it holds the same value after
    every later stage [j], whatever the markup. *)
Theorem extraction_monotonic html url f k j :
  (k <= j)%nat ->
  field_value f (stages H k html url) <> default_value H f ->
  field_value f (stages H j html url)
  = field_value f (stages H k html url).
Proof.
  intros Hkj Hset. induction Hkj as [|j Hkj IH]; [reflexivity|].
  rewrite <- IH. apply stage_step. rewrite IH. exact Hset.
Qed.

Lemma stages_5 html url : stages H 5 html url = parseOpenGraph H html url.
Proof. reflexivity. Qed.

(** C3: when the first three stages leave the artist empty and the title
    non-empty, the artist is read off the title: the separators are
    tried in the order en-dash, hyphen, pipe; the first one that occurs
    in the title decides, also when its candidate is rejected; the
    candidate is the last piece of the split, trimmed, and it is
    rejected when it is empty or equals the name of the site.  In
    particular the title of the example gives the artist of the
    example. *)
Theorem artist_from_title_priority :
  (forall html url,
      let m := stages H 3 html url in
      let title := md_title m in
      let candidate sep := trim (last_part (split sep title)) in
      let decide sep :=
        if negb (is_empty (candidate sep))
           && negb (jseqb (candidate sep) (str "Amazon Music"))
        then set_artist (VStr (candidate sep)) m
        else m in
      truthy H (md_artist m) = false ->
      title <> [] ->
      stages H 4 html url
      = if includes [32; 8211; 32] title then decide [32; 8211; 32]
        else if includes (str " - ") title then decide (str " - ")
        else if includes (str " | ") title then decide (str " | ")
        else m)
  /\ (forall m,
         truthy H (md_artist m) = false ->
         md_title m = str "Whatever It Takes - Imagine Dragons" ->
         md_artist (stage_artist H m) = VStr (str "Imagine Dragons")).
Proof.
  split.
  - intros html url m title candidate decide Hartist Htitle.
    change (stages H 4 html url) with (stage_artist H m).
    unfold stage_artist. rewrite Hartist.
    replace (is_empty (md_title m)) with false
      by (fold title; destruct title; [contradiction | reflexivity]).
    cbn [negb andb]. unfold separators, en_dash.
    rewrite !artist_from_title_cons by discriminate.
    reflexivity.
  - intros m Hartist Htitle.
    unfold stage_artist. rewrite Hartist, Htitle.
    cbn [negb andb is_empty str]. unfold separators, en_dash.
    rewrite !artist_from_title_cons by discriminate.
    rewrite Htitle. vm_compute. reflexivity.
Qed.

End Extractor.

(** ** The client *)

Ltac break_match_in E :=
  match type of E with
  | context [match ?x with _ => _ end] => destruct x eqn:?
  end.

Lemma parseUrl_id_nonempty url p :
  parseUrl url = Some p -> is_empty (parsed_id p) = false.
Proof.
  unfold parseUrl. intros E.
  repeat break_match_in E; try discriminate.
  injection E as <-. simpl.
  apply orb_false_iff in Heqb as [_ Hid]. exact Hid.
Qed.

Section ClientFacts.
Context (H : Host).

Implicit Types (this : AmazonMusicClient (number H)) (w : World H) (t : Track (number H)).

(** *** The assemblers *)

(** C6: for each of the five kinds, when the page is fetched and the
    title extracted from it is empty, the assembler returns null (and
    does not throw). *)
Theorem assemblers_not_found this id w md w' :
  (fetchMetadata H this (str "/tracks/" ++ id) w = (Ok md, w') ->
   md_title md = [] -> getTrack H this id w = (Ok None, w'))
  /\ (fetchMetadata H this (str "/albums/" ++ id) w = (Ok md, w') ->
      md_title md = [] -> getAlbum H this id w = (Ok None, w'))
  /\ (fetchMetadata H this (str "/artists/" ++ id) w = (Ok md, w') ->
      md_title md = [] -> getArtist H this id w = (Ok None, w'))
  /\ (fetchMetadata H this (str "/playlists/" ++ id) w = (Ok md, w') ->
      md_title md = [] -> getPlaylist H this id w = (Ok None, w'))
  /\ (fetchMetadata H this (str "/user-playlists/" ++ id) w = (Ok md, w') ->
      md_title md = [] -> getUserPlaylist H this id w = (Ok None, w')).
Proof.
  repeat split; intros Hfetch Htitle;
    unfold getTrack, getAlbum, getArtist, getPlaylist, getUserPlaylist, bind;
    rewrite Hfetch, Htitle; reflexivity.
Qed.

(** A track assembled by [getTrack] has the id asked for, and its
    [title] is its [name]. *)
Lemma getTrack_shape this id w t w' :
  getTrack H this id w = (Ok (Some t), w') ->
  track_id t = id /\ track_title t = Some (track_name t).
Proof.
  unfold getTrack, bind, ret. intros E.
  destruct (fetchMetadata H this (str "/tracks/" ++ id) w) as [[md|e] w1];
    [|discriminate].
  destruct (is_empty (md_title md)); [discriminate|].
  match type of E with
  | context [match ?x with _ => _ end] => destruct x as [[names|e] w2]
  end; [|discriminate].
  destruct names as [[artistName albumName] albumUrl].
  match type of E with
  | context [match ?x with _ => _ end] => destruct x as [[url|e] w3]
  end; [|discriminate].
  injection E as <- <-. split; reflexivity.
Qed.

(** C7: the album enrichment of [getTrack] fails open.  When the
    metadata of the track has a title and an album link, and the link
    gives no album (it does not parse, or [getAlbum] throws, or it
    returns null), [getTrack] returns the track with the artist and
    album names of the metadata, Unknown Artist and Unknown Album when
    they are empty, and with the search link for the album name as the
    album URL. *)
Theorem getTrack_fails_open this id w md w1 w2 text encoded :
  fetchMetadata H this (str "/tracks/" ++ id) w = (Ok md, w1) ->
  md_title md <> [] ->
  md_albumUrl md <> [] ->
  album_unresolved H this md w1 w2 ->
  ToString H (js_or H (md_album md) (VStr (str "Unknown Album")))
  = Some text ->
  encodeURIComponent H text = Some encoded ->
  getTrack H this id w
  = (Ok (Some
       {| track_id := id;
          track_name := md_title md;
          track_title := Some (md_title md);
          track_artist :=
            {| artist_name :=
                 js_or H (md_artist md) (VStr (str "Unknown Artist"));
               artist_url := Some [] |};
          track_duration :=
            if num_truthy H (md_duration md) then md_duration md
            else num_of_Z H 0;
          track_url := md_url md;
          track_image := Some (md_image md);
          track_album :=
            {| album_name :=
                 js_or H (md_album md) (VStr (str "Unknown Album"));
               album_url :=
                 Some (str "https://music.amazon.com/search/" ++ encoded)
            |} |}),
     w2).
Proof.
  intros Hfetch Htitle Hlink Hno Htext Henc.
  unfold getTrack, bind. rewrite Hfetch.
  destruct (md_title md) as [|c title] eqn:Et; [contradiction|].
  destruct (md_albumUrl md) as [|c' link] eqn:El; [contradiction|].
  cbn [is_empty negb].
  unfold try_catch, ret, encodeURIComponent_value, or_throw, bind, ret.
  destruct Hno as [[Hparse ->] | (p & Hparse & Halbum)].
  - rewrite El in Hparse. rewrite Hparse. cbn [is_empty negb].
    rewrite Htext, Henc. reflexivity.
  - rewrite El in Hparse. rewrite Hparse.
    rewrite (parseUrl_id_nonempty _ _ Hparse). cbn [negb].
    destruct Halbum as [[e Halbum] | Halbum]; rewrite Halbum;
      cbn [is_empty negb]; rewrite Htext, Henc; reflexivity.
Qed.

(** *** search *)

Lemma harvest_step_inv (results results' : list (Track (number H)))
    (seen seen' : gset jsstring) :
  harvest_inv results seen ->
  harvest_step results seen results' seen' ->
  harvest_inv results' seen'.
Proof.
  intros (Hnd & Hseen & Hq) [[-> Hsub] | (t & -> & Hnew & -> & Ht)].
  - split; [exact Hnd|]. split; [|exact Hq].
    eapply Forall_impl; [exact Hseen|]. simpl. intros x Hx. set_solver.
  - split; [|split].
    + rewrite map_app. simpl. apply NoDup_app. split; [exact Hnd|].
      split; [|apply NoDup_singleton].
      intros x Hx Hx'. apply list_elem_of_singleton in Hx'. subst x.
      apply Hnew. apply list_elem_of_fmap in Hx as (t' & E & Ht').
      rewrite Forall_forall in Hseen. rewrite E. apply Hseen. exact Ht'.
    + apply Forall_app. split.
      * eapply Forall_impl; [exact Hseen|]. simpl. intros x Hx. set_solver.
      * constructor; [set_solver | constructor].
    + apply Forall_app. split; [exact Hq | constructor; [exact Ht | constructor]].
Qed.

Lemma harvest_step_length (results results' : list (Track (number H)))
    (seen seen' : gset jsstring) :
  harvest_step results seen results' seen' ->
  (length results <= length results' <= S (length results))%nat.
Proof.
  intros [[-> _] | (t & -> & _)]; [lia|].
  rewrite length_app. simpl. lia.
Qed.

Lemma placeholder_ok label parsed :
  label = str "Track " \/ label = str "Result " ->
  track_ok (placeholder H label parsed).
Proof.
  intros Hl. right. split; [reflexivity|].
  destruct Hl as [-> | ->]; [left | right]; reflexivity.
Qed.

(** One round of the first loop. *)
Lemma visit_track_link_step this m results seen w :
  exists results' seen' w',
    visit_track_link H this m results seen w = (Ok (results', seen'), w')
    /\ harvest_step results seen results' seen'.
Proof.
  assert (Hsame : forall w0, exists results' seen' w',
    (Ok (results, seen), w0) = (Ok (results', seen'), w')
    /\ harvest_step results seen results' seen').
  { intros w0. exists results, seen, w0. split; [reflexivity|].
    left. split; [reflexivity | set_solver]. }
  unfold visit_track_link, try_catch, bind, or_throw, ret, throw.
  destruct (decodeURIComponent H (group_or_empty 1 m)) as [decodedUrl|];
    [|apply Hsame].
  destruct (includes (str "music.amazon.com") decodedUrl); cbn [negb];
    [|apply Hsame].
  destruct (parseUrl decodedUrl) as [parsed|]; [|apply Hsame].
  destruct (jseqb (parsed_type parsed) (str "tracks")); [|apply Hsame].
  destruct (bool_decide (parsed_id parsed ∈ seen)) eqn:Eseen; [apply Hsame|].
  apply bool_decide_eq_false in Eseen. cbn [negb andb].
  destruct (getTrack H this (parsed_id parsed) w) as [[[t|]|e] w1] eqn:E.
  - exists (results ++ [t]), ({[parsed_id parsed]} ∪ seen), w1.
    split; [reflexivity|]. right. exists t.
    apply getTrack_shape in E as [Eid Et]. rewrite Eid.
    repeat split; try assumption. left. exact Et.
  - exists results, ({[parsed_id parsed]} ∪ seen), w1.
    split; [reflexivity|]. left. split; [reflexivity | set_solver].
  - exists (results ++ [placeholder H (str "Track ") parsed]),
      ({[parsed_id parsed]} ∪ seen), w1.
    split; [reflexivity|]. right. eexists. split; [reflexivity|].
    repeat split; try assumption. apply placeholder_ok. auto.
Qed.

(** One round of the second loop. *)
Lemma visit_link_step m results seen w :
  exists results' seen' w',
    visit_link H m results seen w = (Ok (results', seen'), w')
    /\ harvest_step results seen results' seen'.
Proof.
  assert (Hsame : forall w0, exists results' seen' w',
    (Ok (results, seen), w0) = (Ok (results', seen'), w')
    /\ harvest_step results seen results' seen').
  { intros w0. exists results, seen, w0. split; [reflexivity|].
    left. split; [reflexivity | set_solver]. }
  unfold visit_link, try_catch, bind, or_throw, ret, throw.
  destruct (decodeURIComponent H (group_or_empty 1 m)) as [decodedUrl|];
    [|apply Hsame].
  destruct (includes (str "music.amazon.com") decodedUrl); cbn [negb];
    [|apply Hsame].
  destruct (parseUrl decodedUrl) as [parsed|]; [|apply Hsame].
  destruct (jseqb (parsed_type parsed) (str "tracks")); [|apply Hsame].
  destruct (bool_decide (parsed_id parsed ∈ seen)) eqn:Eseen; [apply Hsame|].
  apply bool_decide_eq_false in Eseen. cbn [negb andb].
  exists (results ++ [placeholder H (str "Result ") parsed]),
    ({[parsed_id parsed]} ∪ seen), w.
  split; [reflexivity|]. right. eexists. split; [reflexivity|].
  repeat split; try assumption. apply placeholder_ok. auto.
Qed.

(** Either loop ends without throwing, keeps the invariant and never
    pushes beyond the limit. *)
Lemma harvest_spec visit limit :
  (forall m results seen w, exists results' seen' w',
      visit m results seen w = (Ok (results', seen'), w')
      /\ harvest_step results seen results' seen') ->
  forall matches results seen w,
    harvest_inv results seen ->
    exists results' seen' w',
      harvest H visit limit matches results seen w
      = (Ok (results', seen'), w')
      /\ harvest_inv results' seen'
      /\ within_limit limit (length results) (length results')
      /\ (results <> [] -> results' <> []).
Proof.
  intros Hvisit. induction matches as [|m matches IH];
    intros results seen w Hinv.
  - exists results, seen, w. split; [reflexivity|]. split; [exact Hinv|].
    split; [|auto]. unfold within_limit. destruct limit; [exact I | lia].
  - cbn [harvest].
    destruct (length_ge (length results) limit) eqn:Ege.
    + exists results, seen, w. split; [reflexivity|]. split; [exact Hinv|].
      split; [|auto]. unfold within_limit. destruct limit; [exact I | lia].
    + unfold bind.
      destruct (Hvisit m results seen w) as (r1 & s1 & w1 & -> & Hstep).
      cbn [fst snd].
      destruct (IH r1 s1 w1 (harvest_step_inv _ _ _ _ Hinv Hstep))
        as (r2 & s2 & w2 & -> & Hinv2 & Hlim & Hne).
      exists r2, s2, w2. split; [reflexivity|]. split; [exact Hinv2|].
      pose proof (harvest_step_length _ _ _ _ Hstep) as Hlen.
      split.
      * unfold within_limit, length_ge in *. destruct limit; [exact I|].
        apply Z.leb_gt in Ege. lia.
      * intros Hr. apply Hne. intros ->. simpl in Hlen.
        destruct results; [contradiction | simpl in Hlen; lia].
Qed.

(** What [search] returns, using the two loops. *)
Lemma search_spec this query limit_opt w :
  exists results w',
    search H this query limit_opt w = (Ok results, w')
    /\ NoDup (map (track_id) results)
    /\ Forall (track_ok) results
    /\ within_limit (match limit_opt with Some l => l | None => Int 20 end)
                    0 (length results).
Proof.
  set (limit := match limit_opt with Some l => l | None => Int 20 end).
  assert (Hnil : forall w0, exists results w',
    (Ok (@nil (Track (number H))), w0) = (Ok results, w')
    /\ NoDup (map (track_id) results)
    /\ Forall (track_ok) results
    /\ within_limit limit 0 (length results)).
  { intros w0. exists [], w0. split; [reflexivity|].
    split; [constructor|]. split; [constructor|].
    unfold within_limit. destruct limit; [exact I | simpl; lia]. }
  assert (Hinv0 : harvest_inv (@nil (Track (number H))) ∅)
    by (split; [apply NoDup_nil_2 | split; constructor]).
  unfold search. fold limit.
  unfold try_catch, bind, or_throw, ret, throw.
  destruct (encodeURIComponent H query) as [encoded|]; [|apply Hnil].
  destruct (fetch H (search_request H (tracks_search_url encoded)) w)
    as [[response|e] w1]; [|apply Hnil].
  destruct (resp_ok response); cbn [negb]; [|apply Hnil].
  destruct (resp_text response w1) as [[html|e] w2]; [|apply Hnil].
  destruct (harvest_spec (visit_track_link H this) limit
              (visit_track_link_step this)
              (exec_all false linkRegex html) [] ∅ w2 Hinv0)
    as (r1 & s1 & w3 & -> & Hinv1 & Hlim1 & _).
  destruct r1 as [|t r1].
  - cbn [length Nat.eqb].
    destruct (fetch H (search_request H (site_search_url encoded)) w3)
      as [[response2|e] w4]; [|apply Hnil].
    destruct (resp_ok response2); [|apply Hnil].
    destruct (resp_text response2 w4) as [[html2|e] w5]; [|apply Hnil].
    destruct (harvest_spec (visit_link H) limit visit_link_step
                (exec_all false linkRegex html2) [] s1 w5 Hinv1)
      as (r2 & s2 & w6 & -> & Hinv2 & Hlim2 & _).
    exists r2, w6. cbn [fst]. split; [reflexivity|].
    destruct Hinv2 as (Hnd & _ & Hok). auto.
  - cbn [length Nat.eqb].
    exists (t :: r1), w3. split; [reflexivity|].
    destruct Hinv1 as (Hnd & _ & Hok). auto.
Qed.

(** C4, as the code has it: [search] returns a list without two tracks
    of the same id; its length is at most [limit] when [limit] is a
    non-negative integer (at most 20 when [limit] is absent), and the
    list is empty when [limit] is negative. *)
Theorem search_bounded_distinct this query limit_opt w :
  exists results w',
    search H this query limit_opt w = (Ok results, w')
    /\ NoDup (map (track_id) results)
    /\ (forall z, limit_opt = Some (Int z) -> (0 <= z)%Z ->
                  (Z.of_nat (length results) <= z)%Z)
    /\ (forall z, limit_opt = Some (Int z) -> (z < 0)%Z -> results = [])
    /\ (limit_opt = None -> (length results <= 20)%nat).
Proof.
  destruct (search_spec this query limit_opt w)
    as (results & w' & E & Hnd & _ & Hlim).
  exists results, w'. split; [exact E|]. split; [exact Hnd|].
  repeat split.
  - intros z -> Hz. simpl in Hlim. lia.
  - intros z -> Hz. simpl in Hlim.
    destruct results; [reflexivity | simpl in Hlim; lia].
  - intros ->. simpl in Hlim. lia.
Qed.

(** C5: [search] never throws; it returns the empty list when the query
    cannot be encoded, when the first page cannot be had (the request
    fails, the response is not OK or its body cannot be read), and when
    the first page has no redirect link and the second page cannot be
    had or has none either. *)
Theorem search_never_raises this query limit_opt w :
  (exists results w', search H this query limit_opt w = (Ok results, w'))
  /\ (encodeURIComponent H query = None ->
      search H this query limit_opt w = (Ok [], w))
  /\ (forall encoded,
         encodeURIComponent H query = Some encoded ->
         search_page H (tracks_search_url encoded) w = None ->
         exists w', search H this query limit_opt w = (Ok [], w'))
  /\ (forall encoded html w2,
         encodeURIComponent H query = Some encoded ->
         search_page H (tracks_search_url encoded) w = Some (html, w2) ->
         exec_all false linkRegex html = [] ->
         search_page H (site_search_url encoded) w2 = None
         \/ (exists html2 w3,
                search_page H (site_search_url encoded) w2 = Some (html2, w3)
                /\ exec_all false linkRegex html2 = []) ->
         exists w', search H this query limit_opt w = (Ok [], w')).
Proof.
  split; [|split; [|split]].
  - destruct (search_spec this query limit_opt w) as (results & w' & E & _).
    eauto.
  - intros Henc. unfold search, try_catch, bind, or_throw, throw, ret.
    rewrite Henc. reflexivity.
  - intros encoded Henc Hpage.
    unfold search, try_catch, bind, or_throw, throw, ret. rewrite Henc.
    unfold search_page in Hpage.
    destruct (fetch H (search_request H (tracks_search_url encoded)) w)
      as [[response|e] w1]; [|eauto].
    destruct (resp_ok response); cbn [negb]; [|eauto].
    destruct (resp_text response w1) as [[html|e] w2]; [discriminate | eauto].
  - intros encoded html w2 Henc Hpage Hlinks Hsecond.
    unfold search, try_catch, bind, or_throw, throw, ret. rewrite Henc.
    unfold search_page in Hpage, Hsecond.
    destruct (fetch H (search_request H (tracks_search_url encoded)) w)
      as [[response|e] w1]; [|discriminate].
    destruct (resp_ok response); cbn [negb]; [|discriminate].
    destruct (resp_text response w1) as [[html'|e] w2']; [|discriminate].
    injection Hpage as -> ->. rewrite Hlinks. cbn [harvest ret length Nat.eqb].
    destruct (fetch H (search_request H (site_search_url encoded)) w2)
      as [[response2|e] w3]; [|eauto].
    destruct (resp_ok response2); [|eauto].
    destruct (resp_text response2 w3) as [[html2|e] w4]; [|eauto].
    destruct Hsecond as [Hsecond | (html3 & w5 & [= -> ->] & Hlinks2)];
      [discriminate|].
    rewrite Hlinks2. cbn [harvest ret fst]. eauto.
Qed.

(** C9, as the code has it: a track assembled by [getTrack] has its
    [title] equal to its [name]; each track returned by [search] either
    has its [title] equal to its [name] or is a placeholder, which has
    no [title] and whose [name] is made of a label and the id. *)
Theorem track_title_or_placeholder this :
  (forall id w t w',
      getTrack H this id w = (Ok (Some t), w') ->
      track_title t = Some (track_name t))
  /\ (forall query limit_opt w results w',
         search H this query limit_opt w = (Ok results, w') ->
         Forall (fun t => title_is_name t \/ is_placeholder t) results).
Proof.
  split.
  - intros id w t w' E. apply getTrack_shape in E as [_ E]. exact E.
  - intros query limit_opt w results w' E.
    destruct (search_spec this query limit_opt w)
      as (results0 & w0 & E0 & _ & Hok & _).
    rewrite E in E0. injection E0 as -> ->. exact Hok.
Qed.

(** *** The constructor *)

(** C8, as the code has it: an empty or whitespace-only [apiUrl] makes the
    constructor throw; otherwise the client is built, its search limit
    is between 1 and 10, it is the supplied integer clamped to 1..10
    when that integer is not 0, and it is 5 when the option is absent or
    0. *)
Theorem constructor_search_limit (config : AmazonMusicConfig (number H)) :
  (trim (apiUrl config) = [] ->
   exists e, constructor H config = Throw e)
  /\ (trim (apiUrl config) <> [] ->
      exists client,
        constructor H config = Ok client
        /\ (exists n, searchLimit client = Int n /\ (1 <= n <= 10)%Z)
        /\ (forall z, cfg_searchLimit config = Some (Int z) -> z <> 0%Z ->
                      searchLimit client = Int (Z.max 1 (Z.min z 10)))
        /\ (cfg_searchLimit config = None
            \/ cfg_searchLimit config = Some (Int 0) ->
            searchLimit client = Int 5)).
Proof.
  unfold constructor. split.
  - intros E. rewrite E. rewrite orb_true_r. eauto.
  - intros E.
    assert (Hne : is_empty (apiUrl config) || is_empty (trim (apiUrl config))
                  = false).
    { destruct (apiUrl config) as [|c s] eqn:Eu; [contradiction|].
      destruct (trim (c :: s)); [contradiction | reflexivity]. }
    rewrite Hne. eexists. split; [reflexivity|]. cbn [searchLimit].
    split; [|split].
    + destruct (cfg_searchLimit config) as [[|z]|];
        [exists 5%Z; split; [reflexivity | lia] | |
         exists 5%Z; split; [reflexivity | lia]].
      cbn [jsint_truthy]. destruct (z =? 0)%Z; cbn [negb].
      * exists 5%Z. split; [reflexivity | lia].
      * eexists. split; [reflexivity | lia].
    + intros z -> Hz. cbn [jsint_truthy].
      apply Z.eqb_neq in Hz. rewrite Hz. reflexivity.
    + intros [-> | ->]; reflexivity.
Qed.

End ClientFacts.

(** ** The properties at work on the example network *)

Lemma extraction_monotonic_witness :
  (1 <= 5)%nat
  /\ field_value FTitle
       (stages Example.web 1 Example.track_html (str "https://music.amazon.com/tracks/B079TPJ3G4"))
     <> default_value Example.web FTitle
  /\ field_value FTitle
       (stages Example.web 5 Example.track_html (str "https://music.amazon.com/tracks/B079TPJ3G4"))
     = field_value FTitle
         (stages Example.web 1 Example.track_html (str "https://music.amazon.com/tracks/B079TPJ3G4")).
Proof.
  assert (H1 : (1 <= 5)%nat) by lia.
  assert (H2 : field_value FTitle
                 (stages Example.web 1 Example.track_html
                    (str "https://music.amazon.com/tracks/B079TPJ3G4"))
               <> default_value Example.web FTitle)
    by (vm_compute; discriminate).
  split; [exact H1|]. split; [exact H2|].
  exact (extraction_monotonic Example.web Example.track_html
           (str "https://music.amazon.com/tracks/B079TPJ3G4") FTitle 1 5 H1 H2).
Defined.

Lemma artist_from_title_priority_witness :
  md_artist
    (stages Example.web 4 Example.track_html (str "https://music.amazon.com/tracks/B079TPJ3G4"))
  = VStr (str "Imagine Dragons")
  /\ md_artist
       (stage_artist Example.web
          (set_title (str "Whatever It Takes - Imagine Dragons")
             (init_metadata Example.web [])))
     = VStr (str "Imagine Dragons").
Proof.
  split.
  - rewrite (proj1 (artist_from_title_priority Example.web) Example.track_html
               (str "https://music.amazon.com/tracks/B079TPJ3G4"));
      [vm_compute; reflexivity | vm_compute; reflexivity
       | vm_compute; discriminate].
  - apply (proj2 (artist_from_title_priority Example.web));
      vm_compute; reflexivity.
Defined.

Lemma search_bounded_distinct_witness :
  exists results w',
    search Example.web (Example.client Example.web) (str "imagine dragons")
           (Some (Int 1)) 0%nat = (Ok results, w')
    /\ NoDup (map (track_id) results)
    /\ (Z.of_nat (length results) <= 1)%Z.
Proof.
  destruct (search_bounded_distinct Example.web (Example.client Example.web)
              (str "imagine dragons") (Some (Int 1)) 0%nat)
    as (results & w' & E & Hnd & Hlen & _).
  exists results, w'. split; [exact E|]. split; [exact Hnd|].
  apply Hlen; [reflexivity | lia].
Defined.

(** C4 as stated fails for a negative limit: the list is empty, and its
    length 0 is not at most -1. *)
Lemma search_negative_limit_counterexample :
  search Example.web (Example.client Example.web) (str "imagine dragons")
         (Some (Int (-1))) 0%nat = (Ok [], 2%nat)
  /\ ~ (Z.of_nat (length (@nil (Track (number Example.web)))) <= -1)%Z.
Proof. split; [vm_compute; reflexivity | simpl; lia]. Qed.

Lemma search_never_raises_witness :
  (exists results w',
      search Example.offline (Example.client Example.offline)
             (str "imagine dragons") None 0%nat = (Ok results, w'))
  /\ (exists w',
         search Example.offline (Example.client Example.offline)
                (str "imagine dragons") None 0%nat = (Ok [], w')).
Proof.
  split.
  - exact (proj1 (search_never_raises Example.offline
                    (Example.client Example.offline)
                    (str "imagine dragons") None 0%nat)).
  - apply (proj1 (proj2 (proj2 (search_never_raises Example.offline
                    (Example.client Example.offline)
                    (str "imagine dragons") None 0%nat)))
             (str "imagine%20dragons"));
      vm_compute; reflexivity.
Defined.

Lemma assemblers_not_found_witness :
  getTrack Example.web (Example.client Example.web) (str "B000000000") 0%nat
  = (Ok None, 1%nat)
  /\ getAlbum Example.web (Example.client Example.web) (str "B000000000") 0%nat
     = (Ok None, 1%nat)
  /\ getArtist Example.web (Example.client Example.web) (str "B000000000") 0%nat
     = (Ok None, 1%nat)
  /\ getPlaylist Example.web (Example.client Example.web) (str "B000000000") 0%nat
     = (Ok None, 1%nat)
  /\ getUserPlaylist Example.web (Example.client Example.web) (str "B000000000")
       0%nat
     = (Ok None, 1%nat).
Proof.
  pose (c := Example.client Example.web).
  pose (md := fun kind =>
                parseOpenGraph Example.web Example.bare_html
                  (str "https://music.amazon.com/" ++ kind ++ str "/B000000000")).
  split; [|split; [|split; [|split]]].
  - apply (proj1 (assemblers_not_found Example.web c (str "B000000000") 0%nat
                    (md (str "tracks")) 1%nat)); vm_compute; reflexivity.
  - apply (proj1 (proj2 (assemblers_not_found Example.web c (str "B000000000")
                    0%nat (md (str "albums")) 1%nat))); vm_compute; reflexivity.
  - apply (proj1 (proj2 (proj2 (assemblers_not_found Example.web c
                    (str "B000000000") 0%nat (md (str "artists")) 1%nat))));
      vm_compute; reflexivity.
  - apply (proj1 (proj2 (proj2 (proj2 (assemblers_not_found Example.web c
                    (str "B000000000") 0%nat (md (str "playlists")) 1%nat)))));
      vm_compute; reflexivity.
  - apply (proj2 (proj2 (proj2 (proj2 (assemblers_not_found Example.web c
                    (str "B000000000") 0%nat (md (str "user-playlists"))
                    1%nat))))); vm_compute; reflexivity.
Defined.

Lemma getTrack_fails_open_witness :
  exists t,
    getTrack Example.web (Example.client Example.web) (str "B079TPJ3G4") 0%nat
    = (Ok (Some t), 2%nat)
    /\ artist_name (track_artist t)
       = VStr (str "Imagine Dragons")
    /\ album_name (track_album t)
       = VStr (str "Unknown Album")
    /\ album_url (track_album t)
       = Some (str "https://music.amazon.com/search/Unknown%20Album").
Proof.
  pose (c := Example.client Example.web).
  pose (md := parseOpenGraph Example.web Example.track_html
                (str "https://music.amazon.com/tracks/B079TPJ3G4")).
  assert (Hfetch : fetchMetadata Example.web c (str "/tracks/" ++ str "B079TPJ3G4")
                     0%nat = (Ok md, 1%nat)) by (vm_compute; reflexivity).
  assert (Htitle : md_title md <> []) by (vm_compute; discriminate).
  assert (Hlink : md_albumUrl md <> []) by (vm_compute; discriminate).
  assert (Hno : album_unresolved Example.web c md 1%nat 2%nat).
  { right. exists {| parsed_type := str "albums"; parsed_id := str "B0722ZT1QB" |}.
    split; [vm_compute; reflexivity|]. left.
    exists (ErrorObj (str "Error") (str "Request failed: fetch failed")).
    vm_compute. reflexivity. }
  eexists. split.
  - exact (getTrack_fails_open Example.web c (str "B079TPJ3G4") 0%nat md 1%nat
             2%nat (str "Unknown Album") (str "Unknown%20Album")
             Hfetch Htitle Hlink Hno eq_refl eq_refl).
  - vm_compute. repeat split.
Defined.

(** C7 as stated fails when the album name cannot be percent-encoded: the
    page gives the album name as a lone surrogate, the album link gives
    no album, and [getTrack] throws the URIError of [encodeURIComponent]
    instead of returning a track. *)
Lemma getTrack_unencodable_album_counterexample :
  md_album (parseOpenGraph Example.web Example.surrogate_html
              (str "https://music.amazon.com/tracks/B07SURR0GT"))
  = VStr [55357]
  /\ album_unresolved Example.web (Example.client Example.web)
       (parseOpenGraph Example.web Example.surrogate_html
          (str "https://music.amazon.com/tracks/B07SURR0GT")) 1%nat 2%nat
  /\ getTrack Example.web (Example.client Example.web) (str "B07SURR0GT") 0%nat
     = (Throw (ErrorObj (str "URIError") (str "URI malformed")), 2%nat).
Proof.
  split; [vm_compute; reflexivity|]. split; [|vm_compute; reflexivity].
  right. exists {| parsed_type := str "albums"; parsed_id := str "B0722ZT1QB" |}.
  split; [vm_compute; reflexivity|]. left.
  exists (ErrorObj (str "Error") (str "Request failed: fetch failed")).
  vm_compute. reflexivity.
Qed.

Lemma constructor_search_limit_witness :
  (exists e, constructor Example.web
               {| apiUrl := str "   "; cfg_searchLimit := None;
                  userAgent := None; cfg_timeout := None |} = Throw e)
  /\ (exists client,
         constructor Example.web (Example.config Example.web (Some (Int 50)))
         = Ok client
         /\ searchLimit client = Int 10).
Proof.
  split.
  - apply (proj1 (constructor_search_limit Example.web
                    {| apiUrl := str "   "; cfg_searchLimit := None;
                       userAgent := None; cfg_timeout := None |})).
    vm_compute. reflexivity.
  - destruct (proj2 (constructor_search_limit Example.web
                       (Example.config Example.web (Some (Int 50)))))
      as (client & E & _ & Hclamp & _).
    + vm_compute. discriminate.
    + exists client. split; [exact E|].
      rewrite (Hclamp 50%Z); [reflexivity | reflexivity | lia].
Defined.

(** C8 as stated fails for a supplied limit of 0: the stored limit is 5,
    not 0 clamped to the interval from 1 to 10, which is 1. *)
Lemma constructor_zero_limit_counterexample :
  exists client,
    constructor Example.web (Example.config Example.web (Some (Int 0)))
    = Ok client
    /\ searchLimit client = Int 5
    /\ searchLimit client <> Int (Z.max 1 (Z.min 0 10)).
Proof.
  eexists. split; [vm_compute; reflexivity|].
  split; [reflexivity | discriminate].
Qed.

Lemma track_title_or_placeholder_witness :
  (exists t,
      getTrack Example.web (Example.client Example.web) (str "B079TPJ3G4") 0%nat
      = (Ok (Some t), 2%nat)
      /\ track_title t = Some (track_name t))
  /\ (exists results,
         search Example.web (Example.client Example.web) (str "imagine dragons")
                (Some (Int 5)) 0%nat = (Ok results, 4%nat)
         /\ Forall (fun t => title_is_name t
                             \/ is_placeholder t) results).
Proof.
  split.
  - eexists.
    split; [vm_compute; reflexivity|].
    eapply (proj1 (track_title_or_placeholder Example.web
                     (Example.client Example.web)) (str "B079TPJ3G4") 0%nat).
    vm_compute. reflexivity.
  - eexists. split; [vm_compute; reflexivity|].
    eapply (proj2 (track_title_or_placeholder Example.web
                     (Example.client Example.web)) (str "imagine dragons")
              (Some (Int 5)) 0%nat).
    vm_compute. reflexivity.
Defined.

(** C9 as stated fails on the placeholder path of [search]: the track
    whose page is unreachable is returned with a [name] and no [title]. *)
Lemma search_placeholder_counterexample :
  exists t1 t2,
    search Example.web (Example.client Example.web) (str "imagine dragons")
           (Some (Int 5)) 0%nat = (Ok [t1; t2], 4%nat)
    /\ track_name t2 = str "Track B07XYZ1234"
    /\ track_title t2 = None
    /\ track_title t2 <> Some (track_name t2).
Proof.
  do 2 eexists. split; [vm_compute; reflexivity|].
  split; [reflexivity|]. split; [reflexivity | discriminate].
Qed.

(** A candidate rejected at the hyphen ends the search: the pipe is not
    tried, although it occurs in the title. *)
Example artist_rejected_at_hyphen :
  md_artist
    (stage_artist Example.web
       (set_title (str "Queen | Greatest Hits - Amazon Music")
          (init_metadata Example.web [])))
  = VStr [].
Proof. vm_compute. reflexivity. Qed.

(** The en-dash goes before the hyphen, and the candidate is trimmed. *)
Example artist_en_dash_first :
  md_artist
    (stage_artist Example.web
       (set_title (str "Evolve - Deluxe" ++ [32; 8211; 32] ++ str " Imagine Dragons ")
          (init_metadata Example.web [])))
  = VStr (str "Imagine Dragons").
Proof. vm_compute. reflexivity. Qed.

(** The duration PT3M52S is 232 seconds. *)
Example duration_3m52s :
  option_map md_duration
    (jsonld_duration Example.web (VObj [(str "duration", VStr (str "PT3M52S"))])
       (init_metadata Example.web []))
  = Some 232%Z.
Proof. vm_compute. reflexivity. Qed.

(** The patterns run with the [g] flag never match the empty string, so
    each search of the loop starts after the previous match. *)
Lemma scan_patterns_nonempty s n caps :
  (match_here false metaRegex s = Some (n, caps) -> (1 <= n)%nat)
  /\ (match_here false linkRegex s = Some (n, caps) -> (1 <= n)%nat).
Proof.
  split; intros E; apply match_here_sound in E as (s1 & s2 & -> & Hl & ->);
    destruct Hl as (a & b & -> & Ha & _); unfold lit in Ha;
    apply lang_lit_go in Ha; inversion Ha; subst; simpl; lia.
Qed.
(** ** More on the client *)

Lemma endsWith_inv p s : endsWith p s = true -> exists t, s = t ++ p.
Proof.
  unfold endsWith. intros E. apply startsWith_inv in E as [t E].
  exists (rev t). rewrite <- (rev_involutive s), E, rev_app_distr, rev_involutive.
  reflexivity.
Qed.

Section ClientBasics.
Context (H : Host).

Implicit Types (this : AmazonMusicClient (number H)) (w : World H).

(** X1: The constructor removes one slash from the end of the API URL, and
    nothing else: the base URL is the API URL itself when that does not
    end with a slash, and the API URL is the base URL followed by a
    slash when it does. *)
Theorem constructor_baseUrl (config : AmazonMusicConfig (number H)) client :
  constructor H config = Ok client ->
  (endsWith (str "/") (apiUrl config) = false ->
   getBaseUrl H client = apiUrl config)
  /\ (endsWith (str "/") (apiUrl config) = true ->
      getBaseUrl H client ++ str "/" = apiUrl config).
Proof.
  unfold constructor, getBaseUrl.
  destruct (is_empty (apiUrl config) || is_empty (trim (apiUrl config)));
    [discriminate|].
  intros [= <-]. cbn [baseUrl]. split; intros E; rewrite E; [reflexivity|].
  apply endsWith_inv in E as [t ->].
  rewrite length_app. simpl. rewrite Nat.add_sub, take_app_length.
  reflexivity.
Qed.

End ClientBasics.

Lemma constructor_baseUrl_witness :
  exists client,
    constructor Example.web
      {| apiUrl := str "https://music.amazon.com/api/";
         cfg_searchLimit := None; userAgent := None; cfg_timeout := None |}
    = Ok client
    /\ getBaseUrl Example.web client ++ str "/"
       = str "https://music.amazon.com/api/".
Proof.
  eexists. split; [vm_compute; reflexivity|].
  apply (proj2 (constructor_baseUrl Example.web
                  {| apiUrl := str "https://music.amazon.com/api/";
                     cfg_searchLimit := None; userAgent := None;
                     cfg_timeout := None |} _ eq_refl)).
  vm_compute. reflexivity.
Defined.
Lemma kind_segment_path kind rest :
  In kind kind_segments ->
  startsWith (str "http") (str "/" ++ kind ++ rest) = false
  /\ startsWith (str "/") (str "/" ++ kind ++ rest) = true
  /\ startsWith (str "/api") (str "/" ++ kind ++ rest) = false.
Proof.
  simpl. intros [<- | [<- | [<- | [<- | [<- | []]]]]]; repeat split.
Qed.

Section Fetching.
Context (H : Host).

Implicit Types (this : AmazonMusicClient (number H)) (w : World H).

Lemma metadata_url_kind this kind id :
  In kind kind_segments ->
  metadata_url H this (str "/" ++ kind ++ str "/" ++ id)
  = baseUrl this ++ str "/" ++ kind ++ str "/" ++ id.
Proof.
  intros Hkind.
  destruct (kind_segment_path kind (str "/" ++ id) Hkind) as (E1 & E2 & E3).
  unfold metadata_url. cbv zeta. rewrite E1, E2. cbn [negb].
  rewrite E3, andb_false_r. reflexivity.
Qed.

(** X2: The URL requested for one of the five kinds of resource is the base
    URL followed by the path, whatever the base URL is: the removal of a
    doubled [/api] never applies to these paths.  And a relative path
    is requested at the same URL with or without its leading slash. *)
Theorem metadata_url_resource this :
  (forall kind id,
      In kind kind_segments ->
      metadata_url H this (str "/" ++ kind ++ str "/" ++ id)
      = baseUrl this ++ str "/" ++ kind ++ str "/" ++ id)
  /\ (forall path,
         startsWith (str "http") path = false ->
         startsWith (str "/") path = false ->
         metadata_url H this path = metadata_url H this (str "/" ++ path)).
Proof.
  split.
  - intros kind id Hkind. apply metadata_url_kind. exact Hkind.
  - intros path E1 E2. unfold metadata_url. cbv zeta. rewrite E1, E2.
    reflexivity.
Qed.

(** What the outer [catch] of [fetchMetadata] makes of an exception. *)
Lemma fetchMetadata_unfold this path w :
  fetchMetadata H this path w
  = match
      match fetch H (metadata_request H this path) w with
      | (Ok response, w1) =>
        if resp_ok response then
          match resp_text response w1 with
          | (Ok html, w2) =>
            (Ok (parseOpenGraph H html (metadata_url H this path)), w2)
          | (Throw e, w2) => (Throw e, w2)
          end
        else
          (Throw (new_Error
                    (str "HTTP " ++ num_toString H (resp_status response)
                     ++ str ": " ++ resp_statusText response)), w1)
      | (Throw e, w1) => (Throw e, w1)
      end
    with
    | (Ok md, w') => (Ok md, w')
    | (Throw (ErrorObj name message), w') =>
      if jseqb name (str "AbortError") then
        (Throw (new_Error (str "Request timeout after "
                           ++ num_toString H (timeout this) ++ str "ms")), w')
      else (Throw (new_Error (str "Request failed: " ++ message)), w')
    | (Throw NonError, w') => (Throw NonError, w')
    end.
Proof.
  unfold fetchMetadata, metadata_request, try_catch, bind, throw, ret.
  destruct (fetch H _ w) as [[response|e] w1];
    [|destruct e as [name message|];
      [destruct (jseqb name _)|]; reflexivity].
  destruct (resp_ok response); cbn [negb].
  - destruct (resp_text response w1) as [[html|e] w2]; [reflexivity|].
    destruct e as [name message|]; [destruct (jseqb name _)|]; reflexivity.
  - reflexivity.
Qed.

(** X3: Whatever goes wrong in [fetchMetadata], what it throws is an Error
    whose message is the timeout message of the client or starts with
    Request failed, unless what was thrown to it was not an Error at
    all, which it throws on. *)
Theorem fetchMetadata_errors this path w e w' :
  fetchMetadata H this path w = (Throw e, w') ->
  e = NonError
  \/ e = new_Error (str "Request timeout after "
                    ++ num_toString H (timeout this) ++ str "ms")
  \/ exists message, e = new_Error (str "Request failed: " ++ message).
Proof.
  rewrite fetchMetadata_unfold.
  match goal with
  | |- match ?x with _ => _ end = _ -> _ => destruct x as [[md|[name message|]] w1]
  end; [discriminate | | intros [= <- _]; auto].
  destruct (jseqb name (str "AbortError")); intros [= <- _]; eauto.
Qed.

(** X4: The three failures of the request itself: a response that is not OK
    is reported with its status and status text, and its body is not
    read; an abort is reported as a timeout with the timeout of the
    client; any other Error thrown by [fetch] is reported with its
    message. *)
Theorem fetchMetadata_failure_messages this path w w1 :
  (forall response,
      fetch H (metadata_request H this path) w = (Ok response, w1) ->
      resp_ok response = false ->
      fetchMetadata H this path w
      = (Throw (new_Error
                  (str "Request failed: HTTP "
                   ++ num_toString H (resp_status response)
                   ++ str ": " ++ resp_statusText response)), w1))
  /\ (forall message,
         fetch H (metadata_request H this path) w
         = (Throw (ErrorObj (str "AbortError") message), w1) ->
         fetchMetadata H this path w
         = (Throw (new_Error
                     (str "Request timeout after "
                      ++ num_toString H (timeout this) ++ str "ms")), w1))
  /\ (forall name message,
         fetch H (metadata_request H this path) w
         = (Throw (ErrorObj name message), w1) ->
         name <> str "AbortError" ->
         fetchMetadata H this path w
         = (Throw (new_Error (str "Request failed: " ++ message)), w1)).
Proof.
  split; [|split].
  - intros response E Hok. rewrite fetchMetadata_unfold, E, Hok.
    reflexivity.
  - intros message E. rewrite fetchMetadata_unfold, E. reflexivity.
  - intros name message E Hname. rewrite fetchMetadata_unfold, E.
    unfold jseqb. rewrite bool_decide_eq_false_2 by exact Hname.
    reflexivity.
Qed.

Lemma fetchMetadata_not_ok this path w response w1 :
  fetch H (metadata_request H this path) w = (Ok response, w1) ->
  resp_ok response = false ->
  fetchMetadata H this path w
  = (Throw (new_Error
              (str "Request failed: HTTP "
               ++ num_toString H (resp_status response)
               ++ str ": " ++ resp_statusText response)), w1).
Proof.
  intros E Hok. rewrite fetchMetadata_unfold, E, Hok. reflexivity.
Qed.

(** No stage of the extractor writes [url]. *)
Lemma parseOpenGraph_url html url : md_url (parseOpenGraph H html url) = url.
Proof.
  assert (E : field_value FUrl (parseOpenGraph H html url)
              = field_value FUrl (init_metadata H url)).
  { unfold parseOpenGraph.
    rewrite stage_album_keeps, stage_artist_keeps, stage_jsonld_keeps,
      stage_title_keeps, stage_meta_keeps;
      [reflexivity | cbn [In]; intuition discriminate..]. }
  cbn [field_value init_metadata md_url] in E. injection E as E. exact E.
Qed.

Lemma fetchMetadata_ok this path w md w' :
  fetchMetadata H this path w = (Ok md, w') ->
  exists html, md = parseOpenGraph H html (metadata_url H this path).
Proof.
  rewrite fetchMetadata_unfold.
  destruct (fetch H _ w) as [[response|[name message|]] w1].
  - destruct (resp_ok response).
    + destruct (resp_text response w1) as [[html|[name message|]] w2].
      * intros [= <- _]. eauto.
      * destruct (jseqb name _); discriminate.
      * discriminate.
    + discriminate.
  - destruct (jseqb name _); discriminate.
  - discriminate.
Qed.

Lemma fetchMetadata_ok_url this kind id w md w' :
  In kind kind_segments ->
  fetchMetadata H this (str "/" ++ kind ++ str "/" ++ id) w = (Ok md, w') ->
  md_url md = baseUrl this ++ str "/" ++ kind ++ str "/" ++ id.
Proof.
  intros Hkind E. apply fetchMetadata_ok in E as [html ->].
  rewrite parseOpenGraph_url. apply metadata_url_kind. exact Hkind.
Qed.

End Fetching.
Lemma metadata_url_resource_witness :
  metadata_url Example.web
    {| baseUrl := str "https://music.amazon.com/api"; searchLimit := Int 5;
       timeout := 10000%Z |}
    (str "/" ++ str "artists" ++ str "/" ++ str "B0ARTIST01")
  = str "https://music.amazon.com/api/artists/B0ARTIST01"
  /\ metadata_url Example.web (Example.client Example.web) (str "tracks/B079TPJ3G4")
     = metadata_url Example.web (Example.client Example.web)
         (str "/" ++ str "tracks/B079TPJ3G4").
Proof.
  split.
  - apply (proj1 (metadata_url_resource Example.web
                    {| baseUrl := str "https://music.amazon.com/api";
                       searchLimit := Int 5; timeout := 10000%Z |})
             (str "artists") (str "B0ARTIST01")).
    simpl. auto.
  - apply (proj2 (metadata_url_resource Example.web (Example.client Example.web)));
      reflexivity.
Defined.

Lemma fetchMetadata_errors_witness :
  fetchMetadata Example.offline (Example.client Example.offline)
    (str "/tracks/B079TPJ3G4") 0%nat
  = (Throw (new_Error (str "Request failed: fetch failed")), 1%nat)
  /\ (new_Error (str "Request failed: fetch failed") = NonError
      \/ new_Error (str "Request failed: fetch failed")
         = new_Error (str "Request timeout after "
                      ++ num_toString Example.offline
                           (timeout (Example.client Example.offline))
                      ++ str "ms")
      \/ exists message,
           new_Error (str "Request failed: fetch failed")
           = new_Error (str "Request failed: " ++ message)).
Proof.
  assert (E : fetchMetadata Example.offline (Example.client Example.offline)
                (str "/tracks/B079TPJ3G4") 0%nat
              = (Throw (new_Error (str "Request failed: fetch failed")), 1%nat))
    by (vm_compute; reflexivity).
  split; [exact E|].
  exact (fetchMetadata_errors Example.offline (Example.client Example.offline)
           (str "/tracks/B079TPJ3G4") 0%nat _ 1%nat E).
Defined.

Lemma fetchMetadata_failure_messages_witness :
  fetchMetadata Example2.web (Example.client Example2.web)
    (str "/artists/B071GONE01") 0%nat
  = (Throw (new_Error (str "Request failed: HTTP 503: Service Unavailable")),
     1%nat).
Proof.
  eapply eq_trans.
  - eapply (proj1 (fetchMetadata_failure_messages Example2.web
                     (Example.client Example2.web) (str "/artists/B071GONE01")
                     0%nat 1%nat)); lazy; reflexivity.
  - vm_compute. reflexivity.
Defined.
Lemma is_empty_false (s : jsstring) : is_empty s = false <-> s <> [].
Proof. destruct s; simpl; split; congruence. Qed.

Section Assemblers.
Context (H : Host).

Implicit Types (this : AmazonMusicClient (number H)) (w : World H).

Lemma segment_path (kind id : jsstring) :
  str "/" ++ kind ++ str "/" ++ id = (str "/" ++ kind ++ str "/") ++ id.
Proof. rewrite <- !app_assoc. reflexivity. Qed.

(** What [getTrack] returns, from the metadata of the page. *)
Lemma getTrack_inv this id w t w' :
  getTrack H this id w = (Ok (Some t), w') ->
  exists md w1,
    fetchMetadata H this (str "/tracks/" ++ id) w = (Ok md, w1)
    /\ md_title md <> []
    /\ track_id t = id
    /\ track_name t = md_title md
    /\ track_title t = Some (md_title md)
    /\ track_url t = md_url md
    /\ track_image t = Some (md_image md).
Proof.
  unfold getTrack, bind, ret. intros E.
  destruct (fetchMetadata H this (str "/tracks/" ++ id) w) as [[md|e] w1];
    [|discriminate].
  exists md, w1. split; [reflexivity|].
  destruct (is_empty (md_title md)) eqn:Et; [discriminate|].
  apply is_empty_false in Et. split; [exact Et|].
  match type of E with
  | context [match ?x with _ => _ end] => destruct x as [[names|e] w2]
  end; [|discriminate].
  destruct names as [[artistName albumName] albumUrl].
  match type of E with
  | context [match ?x with _ => _ end] => destruct x as [[url|e] w3]
  end; [|discriminate].
  injection E as <- <-. repeat split.
Qed.

Lemma getAlbum_inv this id w a w' :
  getAlbum H this id w = (Ok (Some a), w') ->
  exists md,
    fetchMetadata H this (str "/albums/" ++ id) w = (Ok md, w')
    /\ md_title md <> []
    /\ a = {| af_name :=
                snd (album_from_title separators (md_title md)
                       (str "Unknown Artist", md_title md));
              af_url := md_url md;
              af_image := md_image md;
              af_artist :=
                {| artist_name :=
                     VStr (fst (album_from_title separators (md_title md)
                                  (str "Unknown Artist", md_title md)));
                   artist_url := Some [] |};
              af_songs := [];
              af_totalSongs := num_of_Z H 0 |}.
Proof.
  unfold getAlbum, bind, ret. intros E.
  destruct (fetchMetadata H this (str "/albums/" ++ id) w) as [[md|e] w1];
    [|discriminate].
  destruct (is_empty (md_title md)) eqn:Et; [discriminate|].
  apply is_empty_false in Et. injection E as <- <-.
  exists md. auto.
Qed.

(** X5: Every resource that an assembler returns carries the URL that was
    requested for it, which is the base URL followed by the path of its
    kind and the id asked for.  A track also carries that id and a name
    that is not empty; the lists of songs are empty and the counts of
    songs are 0; a playlist of the service is by Amazon Music and a
    community playlist by User. *)
Theorem assemblers_result_url this id w w' :
  (forall t,
      getTrack H this id w = (Ok (Some t), w') ->
      track_url t = baseUrl this ++ str "/tracks/" ++ id
      /\ track_id t = id /\ track_name t <> [])
  /\ (forall a,
         getAlbum H this id w = (Ok (Some a), w') ->
         af_url a = baseUrl this ++ str "/albums/" ++ id
         /\ af_songs a = [] /\ af_totalSongs a = num_of_Z H 0)
  /\ (forall a,
         getArtist H this id w = (Ok (Some a), w') ->
         arf_url a = baseUrl this ++ str "/artists/" ++ id
         /\ arf_name a <> [] /\ arf_topSongs a = [])
  /\ (forall p,
         getPlaylist H this id w = (Ok (Some p), w') ->
         pl_url p = baseUrl this ++ str "/playlists/" ++ id
         /\ pl_name p <> [] /\ pl_createdBy p = str "Amazon Music"
         /\ pl_songs p = [] /\ pl_totalSongs p = num_of_Z H 0)
  /\ (forall p,
         getUserPlaylist H this id w = (Ok (Some p), w') ->
         pl_url p = baseUrl this ++ str "/user-playlists/" ++ id
         /\ pl_name p <> [] /\ pl_createdBy p = str "User"
         /\ pl_songs p = [] /\ pl_totalSongs p = num_of_Z H 0).
Proof.
  assert (Hurl : forall kind md w0 w1,
             In kind kind_segments ->
             fetchMetadata H this ((str "/" ++ kind ++ str "/") ++ id) w0
             = (Ok md, w1) ->
             md_url md = baseUrl this ++ (str "/" ++ kind ++ str "/") ++ id).
  { intros kind md w0 w1 Hkind E. rewrite <- segment_path in E.
    rewrite (fetchMetadata_ok_url H this kind id w0 md w1 Hkind E).
    rewrite <- !app_assoc. reflexivity. }
  split; [|split; [|split; [|split]]].
  - intros t E. apply getTrack_inv in E
      as (md & w1 & E & Ht & Eid & Ename & _ & Eurl & _).
    rewrite Eurl, Ename. split; [|auto].
    apply (Hurl (str "tracks") md w w1); [simpl; auto | exact E].
  - intros a E. apply getAlbum_inv in E as (md & E & Ht & ->).
    cbn [af_url af_songs af_totalSongs]. split; [|auto].
    apply (Hurl (str "albums") md w w'); [simpl; auto | exact E].
  - intros a. unfold getArtist, bind, ret.
    destruct (fetchMetadata H this (str "/artists/" ++ id) w)
      as [[md|e] w1] eqn:E; [|discriminate].
    destruct (is_empty (md_title md)) eqn:Et; [discriminate|].
    apply is_empty_false in Et. intros [= <- <-].
    cbn [arf_url arf_name arf_topSongs]. split; [|auto].
    apply (Hurl (str "artists") md w w1); [simpl; auto | exact E].
  - intros p. unfold getPlaylist, bind, ret.
    destruct (fetchMetadata H this (str "/playlists/" ++ id) w)
      as [[md|e] w1] eqn:E; [|discriminate].
    destruct (is_empty (md_title md)) eqn:Et; [discriminate|].
    apply is_empty_false in Et. intros [= <- <-].
    cbn [pl_url pl_name pl_createdBy pl_songs pl_totalSongs].
    split; [|auto].
    apply (Hurl (str "playlists") md w w1); [simpl; auto 6 | exact E].
  - intros p. unfold getUserPlaylist, bind, ret.
    destruct (fetchMetadata H this (str "/user-playlists/" ++ id) w)
      as [[md|e] w1] eqn:E; [|discriminate].
    destruct (is_empty (md_title md)) eqn:Et; [discriminate|].
    apply is_empty_false in Et. intros [= <- <-].
    cbn [pl_url pl_name pl_createdBy pl_songs pl_totalSongs].
    split; [|auto].
    apply (Hurl (str "user-playlists") md w w1); [simpl; auto 6 | exact E].
Qed.

End Assemblers.

Lemma assemblers_result_url_witness :
  exists t,
    getTrack Example.web (Example.client Example.web) (str "B079TPJ3G4") 0%nat
    = (Ok (Some t), 2%nat)
    /\ track_url t = str "https://music.amazon.com" ++ str "/tracks/" ++ str "B079TPJ3G4"
    /\ track_id t = str "B079TPJ3G4" /\ track_name t <> [].
Proof.
  eexists. split; [vm_compute; reflexivity|].
  apply (proj1 (assemblers_result_url Example.web (Example.client Example.web)
                  (str "B079TPJ3G4") 0%nat 2%nat)).
  vm_compute. reflexivity.
Defined.
(** ** More on the extractor *)

Lemma swapcase_fixed c x :
  (c < 65 \/ 90 < c) -> (c < 97 \/ 122 < c) -> swapcase x = c -> x = c.
Proof.
  unfold swapcase. intros H1 H2.
  destruct (N.leb_spec 65 x), (N.leb_spec x 90), (N.leb_spec 97 x),
    (N.leb_spec x 122); simpl; lia.
Qed.

(** A pattern character that is not a letter matches itself only. *)
Lemma chr_eq_fixed ic c x :
  (c < 65 \/ 90 < c) -> (c < 97 \/ 122 < c) -> chr_eq ic c x = true -> x = c.
Proof.
  intros H1 H2. unfold chr_eq. intros E.
  apply orb_true_iff in E as [E | E].
  - apply N.eqb_eq in E. exact E.
  - apply andb_true_iff in E as [_ E]. apply N.eqb_eq in E.
    apply (swapcase_fixed c x H1 H2 E).
Qed.

Lemma lang_seq_lit_head ic c l r m rest :
  (c < 65 \/ 90 < c) -> (c < 97 \/ 122 < c) ->
  lang ic (Seq (lit_go (c :: l)) r) m rest -> exists t, m = c :: t.
Proof.
  intros H1 H2 (s1 & s2 & -> & Hl & _).
  apply lang_lit_go in Hl. inversion Hl as [|c' x l' t Hx Ht]; subst.
  apply (chr_eq_fixed ic c x H1 H2) in Hx. subst x. eauto.
Qed.

(** A pattern that opens with the character [c] matches nowhere in a
    string without [c]. *)
Lemma match_here_no_head ic c l r s :
  (c < 65 \/ 90 < c) -> (c < 97 \/ 122 < c) ->
  match s with [] => True | x :: _ => x <> c end ->
  match_here ic (Seq (lit_go (c :: l)) r) s = None.
Proof.
  intros H1 H2 Hs.
  destruct (match_here ic _ s) as [[n caps]|] eqn:E; [exfalso | reflexivity].
  apply match_here_sound in E as (s1 & s2 & -> & Hl & _).
  apply (lang_seq_lit_head ic c l r s1 s2 H1 H2) in Hl as [t ->].
  simpl in Hs. congruence.
Qed.

Lemma exec_no_head ic c l r s :
  (c < 65 \/ 90 < c) -> (c < 97 \/ 122 < c) ->
  Forall (fun x => x <> c) s ->
  exec ic (Seq (lit_go (c :: l)) r) s = None.
Proof.
  intros H1 H2. induction 1 as [|x s Hx Hs IH]; cbn [exec].
  - rewrite match_here_no_head by (assumption || exact I). reflexivity.
  - rewrite match_here_no_head by assumption. exact IH.
Qed.

Lemma exec_all_go_no_head ic c l r s skip :
  (c < 65 \/ 90 < c) -> (c < 97 \/ 122 < c) ->
  Forall (fun x => x <> c) s ->
  exec_all_go ic (Seq (lit_go (c :: l)) r) skip s = [].
Proof.
  intros H1 H2 Hs. revert skip.
  induction Hs as [|x s Hx Hs IH]; intros skip; cbn [exec_all_go];
    [reflexivity|].
  destruct skip; [|apply IH].
  rewrite match_here_no_head by assumption. apply IH.
Qed.

Section Markup.
Context (H : Host).

(** X6: A body without any tag, that is without the character that opens
    one, gives the initial record: only [url] is set, every other field
    is empty and the duration is 0.  The empty body is the first
    example. *)
Theorem parseOpenGraph_no_markup html url :
  Forall (fun x => x <> 60) html ->
  parseOpenGraph H html url = init_metadata H url.
Proof.
  intros Hh. unfold parseOpenGraph.
  assert (E1 : stage_meta H html (init_metadata H url) = init_metadata H url).
  { unfold stage_meta, exec_all.
    change metaRegex
      with (Seq (lit_go (60 :: str "meta"))
                (seqs [ spaces; lit "property="; dquote;
                        Grp 1 (Alt (lit "og:") (lit "music:"));
                        Grp 2 (Plus (Cls true [(34, 34)]));
                        dquote; spaces; lit "content="; dquote;
                        Grp 3 (Star true (Cls true [(34, 34)]));
                        dquote ])).
    rewrite exec_all_go_no_head by (lia || exact Hh). reflexivity. }
  rewrite E1.
  assert (E2 : stage_title H html (init_metadata H url) = init_metadata H url).
  { unfold stage_title. cbn [init_metadata md_title is_empty].
    change titleRegex
      with (Seq (lit_go (60 :: str "title>"))
                (seqs [ Grp 1 (Star true (Cls true [(60, 60)]));
                        lit "</title>" ])).
    rewrite exec_no_head by (lia || exact Hh). reflexivity. }
  rewrite E2.
  assert (E3 : stage_jsonld H html (init_metadata H url) = init_metadata H url).
  { unfold stage_jsonld.
    change jsonLdRegex
      with (Seq (lit_go (60 :: str "script type="))
                (seqs [ dquote; lit "application/ld+json"; dquote;
                        lit ">"; Grp 1 (Star false (Cls false [(0, 65535)]));
                        lit "</script>" ])).
    rewrite exec_no_head by (lia || exact Hh). reflexivity. }
  rewrite E3. reflexivity.
Qed.

End Markup.

Lemma parseOpenGraph_no_markup_witness :
  parseOpenGraph Example.web (str "Service Unavailable")
    (str "https://music.amazon.com/tracks/B079TPJ3G4")
  = init_metadata Example.web (str "https://music.amazon.com/tracks/B079TPJ3G4").
Proof.
  apply parseOpenGraph_no_markup. repeat constructor; discriminate.
Defined.
Lemma last_or_cons d x l : last_or d (x :: l) = last_or x l.
Proof.
  unfold last_or. rewrite last_cons. destruct (last l); reflexivity.
Qed.

Ltac jseqb_cases :=
  repeat match goal with
         | |- context [jseqb ?a ?b] =>
           let E := fresh "E" in
           destruct (jseqb a b) eqn:E;
           [ apply bool_decide_eq_true in E;
             try (vm_compute in E; discriminate E); subst
           | ]
         end.

Ltac meta_tag_cases :=
  intros caps m; unfold meta_tag; cbn [existsb];
  generalize (group_or_empty 1 caps), (group_or_empty 2 caps),
    (group_or_empty 3 caps); intros prefix property content;
  jseqb_cases; cbn [orb andb];
  repeat match goal with
         | |- context [is_empty ?x] => destruct (is_empty x) eqn:?
         end;
  reflexivity.

Section MetaTags.
Context (H : Host).

Implicit Types (m : Metadata (number H)).

(** A field that every matching tag overwrites holds the content of the
    last one. *)
Lemma fold_last_wins (proj : Metadata (number H) -> jsstring) prefix prop :
  (forall caps m,
      proj (meta_tag H caps m)
      = if jseqb (group_or_empty 1 caps) prefix
           && jseqb (group_or_empty 2 caps) prop
        then group_or_empty 3 caps else proj m) ->
  forall l m,
    proj (fold_left (fun m caps => meta_tag H caps m) l m)
    = last_or (proj m) (tag_contents prefix [prop] (map tag_of l)).
Proof.
  intros Hstep. induction l as [|caps l IH]; intros m; [reflexivity|].
  cbn [fold_left map tag_contents flat_map tag_of existsb].
  rewrite IH, Hstep, orb_false_r.
  destruct (_ && _); [|reflexivity].
  cbn [app]. rewrite last_or_cons. reflexivity.
Qed.

(** A field that a matching tag writes only while it is empty holds the
    first content that is not empty. *)
Lemma fold_first_wins (proj : Metadata (number H) -> jsstring) prefix props :
  (forall caps m,
      proj (meta_tag H caps m)
      = if jseqb (group_or_empty 1 caps) prefix
           && existsb (jseqb (group_or_empty 2 caps)) props
        then (if is_empty (proj m) then group_or_empty 3 caps else proj m)
        else proj m) ->
  forall l m,
    proj (fold_left (fun m caps => meta_tag H caps m) l m)
    = if is_empty (proj m)
      then first_nonempty (tag_contents prefix props (map tag_of l))
      else proj m.
Proof.
  intros Hstep. induction l as [|caps l IH]; intros m.
  - simpl. destruct (proj m); reflexivity.
  - cbn [fold_left map tag_contents flat_map tag_of].
    rewrite IH, Hstep.
    destruct (_ && _); [|reflexivity].
    cbn [app first_nonempty].
    destruct (is_empty (proj m)) eqn:Em; [|rewrite Em; reflexivity].
    destruct (is_empty (group_or_empty 3 caps)); reflexivity.
Qed.

(** The stages after the first leave alone what it wrote, except a
    title that it left empty. *)
Lemma later_stages_keep html url f :
  ~ In f [FTitle; FArtist; FAlbum; FDuration] ->
  field_value f (parseOpenGraph H html url)
  = field_value f (stage_meta H html (init_metadata H url)).
Proof.
  intros Hf. unfold parseOpenGraph.
  rewrite stage_album_keeps, stage_artist_keeps, stage_jsonld_keeps,
    stage_title_keeps; [reflexivity |..];
    intros Hin; apply Hf; cbn [In] in *; intuition.
Qed.

Lemma later_stages_keep_title html url :
  md_title (stage_meta H html (init_metadata H url)) <> [] ->
  md_title (parseOpenGraph H html url)
  = md_title (stage_meta H html (init_metadata H url)).
Proof.
  intros Ht. unfold parseOpenGraph. rewrite stage_title_set by exact Ht.
  assert (E : forall m, field_value FTitle
                          (stage_album H (stage_artist H (stage_jsonld H html m)))
                        = field_value FTitle m).
  { intros m.
    rewrite stage_album_keeps, stage_artist_keeps, stage_jsonld_keeps;
      [reflexivity |..]; cbn [In]; intuition discriminate. }
  specialize (E (stage_meta H html (init_metadata H url))).
  cbn [field_value] in E. injection E as E. exact E.
Qed.

Lemma stage_meta_fields html url :
  let m := stage_meta H html (init_metadata H url) in
  let og := tag_contents (str "og:") in
  let tags := meta_tags html in
  md_title m = last_or [] (og [str "title"] tags)
  /\ md_description m = last_or [] (og [str "description"] tags)
  /\ md_type m = last_or [] (og [str "type"] tags)
  /\ md_site_name m = last_or [] (og [str "site_name"] tags)
  /\ md_albumUrl m
     = last_or [] (tag_contents (str "music:") [str "album"] tags)
  /\ md_image m
     = first_nonempty (og [str "image"; str "image:secure_url"] tags)
  /\ md_audio m
     = first_nonempty
         (og [str "audio"; str "audio:url"; str "audio:secure_url"] tags).
Proof.
  cbv zeta. unfold stage_meta, meta_tags.
  repeat split.
  - rewrite (fold_last_wins md_title (str "og:") (str "title"));
      [reflexivity | meta_tag_cases].
  - rewrite (fold_last_wins md_description (str "og:") (str "description"));
      [reflexivity | meta_tag_cases].
  - rewrite (fold_last_wins md_type (str "og:") (str "type"));
      [reflexivity | meta_tag_cases].
  - rewrite (fold_last_wins md_site_name (str "og:") (str "site_name"));
      [reflexivity | meta_tag_cases].
  - rewrite (fold_last_wins md_albumUrl (str "music:") (str "album"));
      [reflexivity | meta_tag_cases].
  - rewrite (fold_first_wins md_image (str "og:")
               [str "image"; str "image:secure_url"]);
      [reflexivity | meta_tag_cases].
  - rewrite (fold_first_wins md_audio (str "og:")
               [str "audio"; str "audio:url"; str "audio:secure_url"]);
      [reflexivity | meta_tag_cases].
Qed.

(** X7: When the markup repeats a meta tag, the metadata returned holds: for
    the description, the type, the site name and the album link, the
    content of the last tag of the property; for the image and the
    audio, the first content that is not empty among the tags of their
    properties; and for the title the content of the last title tag,
    when that is not empty.  A property without a tag leaves its field
    empty (the title then comes from the title element). *)
Theorem meta_tag_duplicates html url :
  let m := parseOpenGraph H html url in
  let og := tag_contents (str "og:") in
  let tags := meta_tags html in
  (last_or [] (og [str "title"] tags) <> [] ->
   md_title m = last_or [] (og [str "title"] tags))
  /\ md_description m = last_or [] (og [str "description"] tags)
  /\ md_type m = last_or [] (og [str "type"] tags)
  /\ md_site_name m = last_or [] (og [str "site_name"] tags)
  /\ md_albumUrl m
     = last_or [] (tag_contents (str "music:") [str "album"] tags)
  /\ md_image m
     = first_nonempty (og [str "image"; str "image:secure_url"] tags)
  /\ md_audio m
     = first_nonempty
         (og [str "audio"; str "audio:url"; str "audio:secure_url"] tags).
Proof.
  cbv zeta.
  destruct (stage_meta_fields html url)
    as (Etitle & Edescription & Etype & Esite & Ealbum & Eimage & Eaudio).
  cbv zeta in *.
  assert (Hkeep : forall f, ~ In f [FTitle; FArtist; FAlbum; FDuration] ->
                            field_value f (parseOpenGraph H html url)
                            = field_value f (stage_meta H html (init_metadata H url)))
    by (intros f; apply later_stages_keep).
  pose proof (Hkeep FDescription) as K1. pose proof (Hkeep FType) as K2.
  pose proof (Hkeep FSiteName) as K3. pose proof (Hkeep FAlbumUrl) as K4.
  pose proof (Hkeep FImage) as K5. pose proof (Hkeep FAudio) as K6.
  cbn [field_value] in K1, K2, K3, K4, K5, K6.
  split; [|repeat split].
  - intros Ht. rewrite <- Etitle in *. apply later_stages_keep_title.
    exact Ht.
  - rewrite <- Edescription. injection K1; [auto | cbn [In]; intuition discriminate].
  - rewrite <- Etype. injection K2; [auto | cbn [In]; intuition discriminate].
  - rewrite <- Esite. injection K3; [auto | cbn [In]; intuition discriminate].
  - rewrite <- Ealbum. injection K4; [auto | cbn [In]; intuition discriminate].
  - rewrite <- Eimage. injection K5; [auto | cbn [In]; intuition discriminate].
  - rewrite <- Eaudio. injection K6; [auto | cbn [In]; intuition discriminate].
Qed.

End MetaTags.

Lemma meta_tag_duplicates_witness :
  md_title (parseOpenGraph Example.web
              (Example.meta (str "og:title") (str "First")
               ++ Example.meta (str "og:title") (str "Second")) [])
  = str "Second".
Proof.
  rewrite (proj1 (meta_tag_duplicates Example.web
                    (Example.meta (str "og:title") (str "First")
                     ++ Example.meta (str "og:title") (str "Second")) []));
    [vm_compute; reflexivity | vm_compute; discriminate].
Defined.

(** Two images: the first one stays. *)
Example image_first_wins :
  md_image (parseOpenGraph Example.web
              (Example.meta (str "og:image") (str "a.jpg")
               ++ Example.meta (str "og:image:secure_url") (str "b.jpg")) [])
  = str "a.jpg".
Proof. vm_compute. reflexivity. Qed.
(** *** The title element *)

Lemma lit_prefix_ci ic l m r :
  Forall2 (fun c x => chr_eq ic c x = true) l m -> lit_prefix ic l (m ++ r) = true.
Proof.
  induction 1 as [|c x l m Hx Hm IH]; [reflexivity|].
  cbn [app lit_prefix]. rewrite Hx, IH. reflexivity.
Qed.

(** A match of a pattern that opens with pattern characters has them at
    its head. *)
Lemma match_here_lit_prefix ic l r s n caps :
  match_here ic (Seq (lit_go l) r) s = Some (n, caps) ->
  lit_prefix ic l s = true.
Proof.
  intros E. apply match_here_sound in E as (s1 & s2 & -> & Hl & _).
  destruct Hl as (a & b & -> & Ha & _). apply lang_lit_go in Ha.
  rewrite <- app_assoc. apply lit_prefix_ci. exact Ha.
Qed.

(** An opening title tag that starts before another one lies before
    it. *)
Lemma title_tag_straddle u r :
  u <> [] ->
  lit_prefix true (str "<title>") (u ++ str "<title>" ++ r) = true ->
  lit_prefix true (str "<title>") u = true.
Proof.
  intros Hu.
  destruct u as [|u0 [|u1 [|u2 [|u3 [|u4 [|u5 [|u6 u]]]]]]];
    [contradiction | | | | | | | intros E; exact E];
    cbn [app str lit_prefix String.list_ascii_of_string map];
    change (chr_eq true (N_of_ascii "t") (N_of_ascii "<")) with false;
    change (chr_eq true (N_of_ascii "i") (N_of_ascii "<")) with false;
    change (chr_eq true (N_of_ascii "l") (N_of_ascii "<")) with false;
    change (chr_eq true (N_of_ascii "e") (N_of_ascii "<")) with false;
    change (chr_eq true (N_of_ascii ">") (N_of_ascii "<")) with false;
    cbn [andb]; rewrite ?andb_false_r; discriminate.
Qed.

Lemma exec_skip_title pre r :
  includes_ci (str "<title>") pre = false ->
  exec true titleRegex (pre ++ str "<title>" ++ r)
  = exec true titleRegex (str "<title>" ++ r).
Proof.
  induction pre as [|x pre IH]; [reflexivity|].
  cbn [includes_ci]. intros E. apply orb_false_iff in E as [E1 E2].
  cbn [app exec].
  destruct (match_here true titleRegex (x :: pre ++ str "<title>" ++ r))
    as [[n caps]|] eqn:Em; [exfalso | exact (IH E2)].
  unfold titleRegex in Em. cbn [seqs] in Em. unfold lit at 1 in Em.
  apply match_here_lit_prefix in Em.
  apply (title_tag_straddle (x :: pre) r) in Em; [congruence | discriminate].
Qed.

Lemma not_char_class (c x : N) :
  (c < 65 \/ 90 < c) -> (c < 97 \/ 122 < c) ->
  x <> c -> cls_mem true true [(c, c)] x = true.
Proof.
  intros H1 H2 Hx.
  assert (Hs : swapcase x <> c)
    by (intros E; apply Hx; apply (swapcase_fixed c x H1 H2 E)).
  unfold cls_mem, existsb, in_range; simpl.
  destruct (N.leb_spec c x), (N.leb_spec x c), (N.leb_spec c (swapcase x)),
    (N.leb_spec (swapcase x) c); simpl; try reflexivity; lia.
Qed.

Lemma match_here_title t post :
  Forall (fun x => x <> 60) t ->
  exists n,
    match_here true titleRegex (str "<title>" ++ t ++ str "</title>" ++ post)
    = Some (n, [(1%nat, t)]).
Proof.
  intros Ht. eexists. unfold match_here, titleRegex. cbn [seqs].
  rewrite rmatch_Seq. unfold lit at 1. rewrite rmatch_lit_app.
  rewrite rmatch_Seq, rmatch_Grp.
  eapply rmatch_star_run; [reflexivity | | reflexivity | ].
  - eapply Forall_impl; [exact Ht|]. cbn beta. intros x Hx.
    apply not_char_class; [lia | lia | exact Hx].
  - unfold lit. rewrite rmatch_lit_app, take_app_minus. reflexivity.
Qed.

Section TitleElement.
Context (H : Host).

(** X8: When no title comes from the meta tags, the title is read off
    the first title element of the markup: its text, which holds no
    tag, without the first occurrence of the suffix that names the
    site, and trimmed. *)
Theorem title_fallback html url pre t post :
  html = pre ++ str "<title>" ++ t ++ str "</title>" ++ post ->
  includes_ci (str "<title>") pre = false ->
  Forall (fun x => x <> 60) t ->
  last_or [] (tag_contents (str "og:") [str "title"] (meta_tags html)) = [] ->
  md_title (parseOpenGraph H html url)
  = trim (replace_first (str " | Amazon Music") [] t).
Proof.
  intros Eh Hpre Ht Hog.
  destruct (stage_meta_fields H html url) as (Etitle & _). cbv zeta in Etitle.
  rewrite Hog in Etitle.
  assert (E2 : md_title (stage_title H html (stage_meta H html (init_metadata H url)))
               = trim (replace_first (str " | Amazon Music") [] t)).
  { unfold stage_title. rewrite Etitle. cbn [is_empty].
    rewrite Eh at 1. rewrite exec_skip_title by exact Hpre.
    destruct (match_here_title t post Ht) as [n Em].
    rewrite (exec_here _ _ _ _ _ Em). reflexivity. }
  unfold parseOpenGraph. rewrite <- E2.
  assert (E : forall m, field_value FTitle
                          (stage_album H (stage_artist H (stage_jsonld H html m)))
                        = field_value FTitle m).
  { intros m.
    rewrite stage_album_keeps, stage_artist_keeps, stage_jsonld_keeps;
      [reflexivity |..]; cbn [In]; intuition discriminate. }
  specialize (E (stage_title H html (stage_meta H html (init_metadata H url)))).
  cbn [field_value] in E. injection E as E. exact E.
Qed.

End TitleElement.

Lemma title_fallback_witness :
  md_title (parseOpenGraph Example.web Example2.album_html [])
  = trim (replace_first (str " | Amazon Music") []
            (str "Evolve - Imagine Dragons | Amazon Music")).
Proof.
  apply (title_fallback Example.web Example2.album_html []
           (str "<html><head>")
           (str "Evolve - Imagine Dragons | Amazon Music")
           (str "</head><body></body></html>"));
    [reflexivity | reflexivity | repeat constructor; discriminate
     | vm_compute; reflexivity].
Defined.
(** *** The duration of the JSON-LD block *)

Lemma digit_char x :
  is_digit x = true -> cls_mem false false [(48, 57)] x = true.
Proof.
  unfold is_digit, cls_mem. cbn [existsb]. intros ->. reflexivity.
Qed.

Lemma digit_char_inv x :
  cls_mem false false [(48, 57)] x = true -> is_digit x = true.
Proof.
  unfold is_digit, cls_mem. cbn [existsb andb orb xorb].
  rewrite !orb_false_r. auto.
Qed.

(** A run of digits and what follows it are read off a string in one way
    only. *)
Lemma digits_run_unique d d' (u u' : N) rest rest' :
  Forall (fun x => is_digit x = true) d ->
  Forall (fun x => is_digit x = true) d' ->
  is_digit u = false -> is_digit u' = false ->
  d ++ u :: rest = d' ++ u' :: rest' ->
  d = d' /\ u = u' /\ rest = rest'.
Proof.
  intros Hd. revert d'. induction Hd as [|x d Hx Hd IH]; intros d' Hd' Hu Hu' E.
  - destruct Hd' as [|y d' Hy Hd']; simpl in E.
    + injection E as -> ->. auto.
    + injection E as -> _. congruence.
  - destruct Hd' as [|y d' Hy Hd']; simpl in E.
    + injection E as -> _. congruence.
    + injection E as -> E. destruct (IH d' Hd' Hu Hu' E) as (-> & -> & ->).
      auto.
Qed.

Section DurationParts.
Context {R : Type}.
Implicit Types (k : jsstring -> captures -> option R).

(** A part that is there is taken, with its digits as the group. *)
Lemma duration_part_taken i (u : N) d rest caps k v :
  d <> [] -> Forall (fun x => is_digit x = true) d ->
  is_digit u = false ->
  k rest ((i, d) :: caps) = Some v ->
  rmatch false (Opt (Seq (Grp i digits) (Chr u))) (d ++ u :: rest) caps k
  = Some v.
Proof.
  intros Hne Hd Hu Hk. apply rmatch_opt_take.
  rewrite rmatch_Seq, rmatch_Grp.
  destruct d as [|x d]; [contradiction|].
  cbn [app]. unfold digits.
  eapply rmatch_plus_run; [reflexivity | | | ].
  - eapply Forall_impl; [exact Hd|]. apply digit_char.
  - destruct (cls_mem false false [(48, 57)] u) eqn:E; [|reflexivity].
    apply digit_char_inv in E. congruence.
  - cbn [rmatch]. unfold chr_eq. rewrite N.eqb_refl. cbn [orb].
    replace (length rest <? length (x :: d ++ u :: rest))%nat with true
      by (symmetry; apply Nat.ltb_lt; simpl; rewrite length_app; simpl; lia).
    change (x :: d ++ u :: rest) with ((x :: d) ++ u :: rest).
    rewrite take_app_minus. exact Hk.
Qed.

(** A part that is not there is passed over. *)
Lemma duration_part_skipped i (u : N) s caps k :
  (forall d rest, d <> [] -> Forall (fun x => is_digit x = true) d ->
                  s <> d ++ u :: rest) ->
  rmatch false (Opt (Seq (Grp i digits) (Chr u))) s caps k = k s caps.
Proof.
  intros Hs. rewrite rmatch_Opt.
  match goal with
  | |- match ?x with _ => _ end = _ => destruct x as [v|] eqn:E
  end; [exfalso | reflexivity].
  apply rmatch_sound in E as (s1 & s2 & caps' & -> & Hl & _).
  destruct Hl as (d & t & -> & Hd & (x & -> & Hx)).
  cbn [lang] in Hd. unfold digits in Hd.
  apply (lang_plus_char false (Cls false [(48, 57)]) _ _ _ eq_refl) in Hd
    as [Hne Hd].
  unfold chr_eq in Hx. rewrite orb_false_r in Hx. apply N.eqb_eq in Hx.
  subst x. apply (Hs d s2 Hne).
  - eapply Forall_impl; [exact Hd|]. apply digit_char_inv.
  - rewrite <- app_assoc. reflexivity.
Qed.

(** An optional part, there or not. *)
Lemma duration_part_step i (u : N) o rest caps k v :
  digits_ok o -> is_digit u = false ->
  (forall d rest', d <> [] -> Forall (fun x => is_digit x = true) d ->
                   rest <> d ++ u :: rest') ->
  k rest (match o with Some d => (i, d) :: caps | None => caps end) = Some v ->
  rmatch false (Opt (Seq (Grp i digits) (Chr u)))
    (duration_part o u ++ rest) caps k = Some v.
Proof.
  intros Ho Hu Hrest Hk. destruct o as [d|]; cbn [duration_part].
  - destruct Ho as [Hne Hd]. rewrite <- app_assoc. cbn [app].
    apply duration_part_taken; assumption.
  - cbn [app]. rewrite duration_part_skipped by exact Hrest. exact Hk.
Qed.
End DurationParts.

(** What follows a part does not read as that part. *)
Lemma duration_part_other o (u u' : N) rest d rest' :
  digits_ok o -> is_digit u = false -> is_digit u' = false -> u <> u' ->
  d <> [] -> Forall (fun x => is_digit x = true) d ->
  (forall d0 rest0, d0 <> [] -> Forall (fun x => is_digit x = true) d0 ->
                    rest <> d0 ++ u' :: rest0) ->
  duration_part o u ++ rest <> d ++ u' :: rest'.
Proof.
  intros Ho Hu Hu' Hne Hd0 Hd Hrest. destruct o as [d1|]; cbn [duration_part].
  - destruct Ho as [_ Hd1]. rewrite <- app_assoc. cbn [app]. intros E.
    apply digits_run_unique in E as (_ & E & _); auto.
  - cbn [app]. apply Hrest; assumption.
Qed.

Section Duration.
Context (H : Host).

(** X9: A duration made of [PT] and of hours, minutes and seconds, each
    given by digits and its letter or left out, is read as hours times
    3600 plus minutes times 60 plus seconds, a part left out counting
    as 0. *)
Theorem jsonld_duration_hms jsonLd md h m s :
  digits_ok h -> digits_ok m -> digits_ok s ->
  get_prop H jsonLd (str "duration") = Some (VStr (duration_text h m s)) ->
  jsonld_duration H jsonLd md
  = Some (set_duration
            (num_add H
               (num_add H
                  (num_mul H (part_number H h) (num_of_Z H 3600))
                  (num_mul H (part_number H m) (num_of_Z H 60)))
               (part_number H s))
            md).
Proof.
  intros Hh Hm Hs Hprop. unfold jsonld_duration. rewrite Hprop.
  change (truthy H (VStr (duration_text h m s))) with true. cbv iota.
  cbn [ToString]. unfold duration_text.
  set (caps := (match s with Some d => [(3%nat, d)] | None => [] end)
               ++ (match m with Some d => [(2%nat, d)] | None => [] end)
               ++ (match h with Some d => [(1%nat, d)] | None => [] end)).
  assert (Hnil : forall (u : N) d rest, d <> [] -> @nil N <> d ++ u :: rest).
  { intros u d rest _ E. symmetry in E. apply app_eq_nil in E as [_ E].
    discriminate. }
  assert (E : exists n,
             match_here false durationRegex
               (str "PT" ++ duration_part h 72 ++ duration_part m 77
                ++ duration_part s 83)
             = Some (n, caps)).
  { eexists. unfold match_here, durationRegex. cbn [seqs].
    rewrite rmatch_Seq. unfold lit at 1. rewrite rmatch_lit_app.
    rewrite rmatch_Seq. unfold lit.
    change (lit_go (str "H")) with (Chr 72).
    change (lit_go (str "M")) with (Chr 77).
    change (lit_go (str "S")) with (Chr 83).
    apply duration_part_step; [exact Hh | reflexivity | |].
    { intros d rest' Hne Hd.
      apply duration_part_other; try assumption; try reflexivity;
        [discriminate|].
      intros d0 rest0 Hne0 Hd0.
      rewrite <- (app_nil_r (duration_part s 83)).
      apply duration_part_other; try assumption; try reflexivity;
        [discriminate|].
      intros d1 rest1 Hne1 _. apply Hnil. exact Hne1. }
    rewrite rmatch_Seq.
    apply duration_part_step; [exact Hm | reflexivity | |].
    { intros d rest' Hne Hd.
      rewrite <- (app_nil_r (duration_part s 83)).
      apply duration_part_other; try assumption; try reflexivity;
        [discriminate|].
      intros d1 rest1 Hne1 _. apply Hnil. exact Hne1. }
    rewrite <- (app_nil_r (duration_part s 83)).
    apply duration_part_step; [exact Hs | reflexivity | |].
    { intros d rest' Hne _. apply Hnil. exact Hne. }
    subst caps. destruct h, m, s; reflexivity. }
  destruct E as [n E].
  rewrite (exec_here _ _ _ _ _ E).
  unfold part_number. subst caps.
  destruct h as [[|xh dh]|]; [destruct Hh as [Hne _]; contradiction | |];
    (destruct m as [[|xm dm]|]; [destruct Hm as [Hne _]; contradiction | |]);
    (destruct s as [[|xs ds]|]; [destruct Hs as [Hne _]; contradiction | |]);
    reflexivity.
Qed.

End Duration.

Lemma jsonld_duration_hms_witness :
  option_map md_duration
    (jsonld_duration Example.web
       (VObj [(str "duration", VStr (str "PT1H3M52S"))])
       (init_metadata Example.web []))
  = Some 3832%Z.
Proof.
  rewrite (jsonld_duration_hms Example.web
             (VObj [(str "duration", VStr (str "PT1H3M52S"))])
             (init_metadata Example.web [])
             (Some (str "1")) (Some (str "3")) (Some (str "52")));
    [vm_compute; reflexivity | | | | reflexivity];
    (split; [discriminate | repeat constructor]).
Defined.
(** *** The names of the JSON-LD block *)

Section JsonLdNames.
Context (H : Host).

Implicit Types (m : Metadata (number H)) (v : jsval (number H)).

(** A value with a property that is a string is an object. *)
Lemma get_prop_string v key s :
  get_prop H v key = Some (VStr s) ->
  truthy H v = true /\ forall key', exists x, get_prop H v key' = Some x.
Proof.
  destruct v; cbn [get_prop]; try discriminate.
  intros _. split; [reflexivity|]. eauto.
Qed.

Lemma jsonld_fields_artist jsonLd m byArtist a :
  get_prop H jsonLd (str "@type") = Some (VStr (str "MusicRecording")) ->
  get_prop H jsonLd (str "byArtist") = Some byArtist ->
  get_prop H byArtist (str "name") = Some (VStr a) ->
  a <> [] ->
  md_artist (jsonld_fields H jsonLd m) = VStr a.
Proof.
  intros Etype Eby Ename Ha. unfold jsonld_fields.
  rewrite Etype. cbn [strict_eq_str].
  replace (jseqb (str "MusicRecording") (str "MusicRecording")) with true
    by (symmetry; apply bool_decide_eq_true; reflexivity).
  rewrite Eby.
  destruct (get_prop_string byArtist _ _ Ename) as [Hby Hall].
  destruct (Hall (str "@id")) as [aid Eid].
  rewrite Hby, Ename, Eid.
  assert (Ejs : js_or H (js_or H (VStr a) aid) (VStr []) = VStr a).
  { pose proof (proj2 (is_empty_false a) Ha) as Hemp.
    unfold js_or. cbn [truthy]. rewrite Hemp. cbn [negb truthy].
    rewrite Hemp. reflexivity. }
  rewrite Ejs.
  destruct (get_prop_string jsonLd _ _ Etype) as [_ Hall'].
  destruct (Hall' (str "inAlbum")) as [inAlbum Ein]. rewrite Ein.
  set (m1 := set_artist (VStr a) m).
  set (m2 := if truthy H inAlbum then _ else m1).
  assert (E2 : md_artist m2 = VStr a).
  { subst m2. destruct (truthy H inAlbum); [|reflexivity].
    destruct (get_prop H inAlbum (str "name")); reflexivity. }
  destruct (jsonld_duration H jsonLd m2) as [m3|] eqn:Ed; [|exact E2].
  pose proof (jsonld_duration_keeps H jsonLd m2 m3 FArtist Ed) as K.
  cbn [field_value] in K. rewrite K; [exact E2|].
  cbn [In]. intuition discriminate.
Qed.

Lemma jsonld_fields_album jsonLd m inAlbum b :
  get_prop H jsonLd (str "@type") = Some (VStr (str "MusicRecording")) ->
  get_prop H jsonLd (str "inAlbum") = Some inAlbum ->
  get_prop H inAlbum (str "name") = Some (VStr b) ->
  b <> [] ->
  md_album (jsonld_fields H jsonLd m) = VStr b.
Proof.
  intros Etype Ein Ename Hb. unfold jsonld_fields.
  rewrite Etype. cbn [strict_eq_str].
  replace (jseqb (str "MusicRecording") (str "MusicRecording")) with true
    by (symmetry; apply bool_decide_eq_true; reflexivity).
  destruct (get_prop_string jsonLd _ _ Etype) as [_ Hall'].
  destruct (Hall' (str "byArtist")) as [byArtist Eby]. rewrite Eby.
  set (m1 := if truthy H byArtist then _ else m).
  rewrite Ein.
  destruct (get_prop_string inAlbum _ _ Ename) as [Hin _].
  rewrite Hin, Ename.
  assert (Ejs : js_or H (VStr b) (VStr []) = VStr b).
  { pose proof (proj2 (is_empty_false b) Hb) as Hemp.
    unfold js_or. cbn [truthy]. rewrite Hemp. reflexivity. }
  rewrite Ejs.
  destruct (jsonld_duration H jsonLd (set_album (VStr b) m1)) as [m3|] eqn:Ed;
    [|reflexivity].
  pose proof (jsonld_duration_keeps H jsonLd _ m3 FAlbum Ed) as K.
  cbn [field_value] in K. rewrite K; [reflexivity|].
  cbn [In]. intuition discriminate.
Qed.

(** X10: The names of the JSON-LD block go before the heuristics.
    When the first JSON-LD block of the markup parses to a
    MusicRecording, the name of its byArtist, when it is a string that
    is not empty, is the artist of the metadata, whatever the title;
    and the name of its inAlbum, when it is a string that is not empty,
    is the album of the metadata, whatever the description. *)
Theorem jsonld_names_priority html url text jsonLd :
  jsonld_block html = Some text ->
  JSON_parse H text = Some jsonLd ->
  get_prop H jsonLd (str "@type") = Some (VStr (str "MusicRecording")) ->
  (forall byArtist a,
      get_prop H jsonLd (str "byArtist") = Some byArtist ->
      get_prop H byArtist (str "name") = Some (VStr a) ->
      a <> [] ->
      md_artist (parseOpenGraph H html url) = VStr a)
  /\ (forall inAlbum b,
         get_prop H jsonLd (str "inAlbum") = Some inAlbum ->
         get_prop H inAlbum (str "name") = Some (VStr b) ->
         b <> [] ->
         md_album (parseOpenGraph H html url) = VStr b).
Proof.
  intros Eblock Eparse Etype. unfold jsonld_block in Eblock.
  destruct (exec true jsonLdRegex html) as [caps|] eqn:Ex; [|discriminate].
  injection Eblock as Etext.
  set (m2 := stage_title H html (stage_meta H html (init_metadata H url))).
  assert (E3 : stage_jsonld H html m2 = jsonld_fields H jsonLd m2).
  { unfold stage_jsonld. rewrite Ex, Etext, Eparse. reflexivity. }
  unfold parseOpenGraph. fold m2. rewrite E3. split.
  - intros byArtist a Eby Ename Ha.
    pose proof (jsonld_fields_artist jsonLd m2 byArtist a Etype Eby Ename Ha)
      as Ea.
    pose proof (stage_album_keeps H (stage_artist H (jsonld_fields H jsonLd m2))
                  FArtist) as K.
    cbn [field_value] in K. rewrite K by (cbn [In]; intuition discriminate).
    rewrite stage_artist_set; [exact Ea|].
    rewrite Ea. cbn [truthy].
    rewrite (proj2 (is_empty_false a) Ha). reflexivity.
  - intros inAlbum b Ein Ename Hb.
    pose proof (jsonld_fields_album jsonLd m2 inAlbum b Etype Ein Ename Hb)
      as Eb.
    pose proof (stage_artist_keeps H (jsonld_fields H jsonLd m2) FAlbum) as K.
    cbn [field_value] in K.
    assert (Eb' : md_album (stage_artist H (jsonld_fields H jsonLd m2)) = VStr b)
      by (rewrite K by (cbn [In]; intuition discriminate); exact Eb).
    rewrite stage_album_set; [exact Eb'|].
    rewrite Eb'. cbn [truthy].
    rewrite (proj2 (is_empty_false b) Hb). reflexivity.
Qed.

End JsonLdNames.

Lemma jsonld_names_priority_witness :
  md_album (parseOpenGraph Example.web Example.surrogate_html [])
  = VStr [55357].
Proof.
  eapply (proj2 (jsonld_names_priority Example.web Example.surrogate_html []
                   Example.surrogate_json Example.surrogate_value
                   eq_refl eq_refl eq_refl)
            (VObj [ (str "name", VStr [55357]) ]));
    [reflexivity | reflexivity | discriminate].
Defined.
(** *** The names that the heuristics write *)

Lemma clean_name_trim s :
  negb (is_empty (trim s)) && negb (jseqb (trim s) (str "Amazon Music")) = true ->
  clean_name (trim s).
Proof.
  intros E. apply andb_true_iff in E as [E1 E2].
  apply negb_true_iff in E1, E2. split; [|split].
  - apply is_empty_false. exact E1.
  - apply trim_idem.
  - apply bool_decide_eq_false in E2. exact E2.
Qed.

Section Heuristics.
Context (H : Host).

Implicit Types (m : Metadata (number H)).

Lemma artist_from_title_clean seps m :
  artist_from_title H seps m = m
  \/ exists a, artist_from_title H seps m = set_artist (VStr a) m
               /\ clean_name a.
Proof.
  induction seps as [|sep seps IH]; [left; reflexivity|].
  cbn [artist_from_title].
  destruct (includes sep (md_title m)); [|exact IH].
  destruct (2 <=? length (split sep (md_title m)))%nat; [|exact IH].
  destruct (negb (is_empty _) && _) eqn:E; [|left; reflexivity].
  right. eexists. split; [reflexivity|]. apply clean_name_trim. exact E.
Qed.

Lemma stage_artist_clean m :
  md_artist (stage_artist H m) = md_artist m
  \/ exists a, md_artist (stage_artist H m) = VStr a /\ clean_name a.
Proof.
  unfold stage_artist. destruct (_ && _); [|left; reflexivity].
  destruct (artist_from_title_clean separators m) as [-> | (a & -> & Ha)];
    [left; reflexivity | right; eauto].
Qed.

Lemma stage_album_clean m :
  md_album (stage_album H m) = md_album m
  \/ exists a, md_album (stage_album H m) = VStr a /\ clean_name a.
Proof.
  unfold stage_album. destruct (_ && _); [|left; reflexivity].
  destruct (exec true albumRegex (md_description m)); [|left; reflexivity].
  destruct (negb (is_empty _) && _) eqn:E; [|left; reflexivity].
  right. eexists. split; [reflexivity|]. apply clean_name_trim. exact E.
Qed.

(** X11: The artist and the album of the metadata are those of the JSON-LD
    block, or names written by the heuristics of the title and of the
    description; such a name is never empty, has no whitespace around
    it, and is never the name of the site. *)
Theorem heuristic_names_clean html url :
  let m := parseOpenGraph H html url in
  (md_artist m = md_artist (stages H 3 html url)
   \/ exists a, md_artist m = VStr a /\ clean_name a)
  /\ (md_album m = md_album (stages H 3 html url)
      \/ exists a, md_album m = VStr a /\ clean_name a).
Proof.
  cbv zeta. rewrite <- stages_5.
  change (stages H 5 html url)
    with (stage_album H (stage_artist H (stages H 3 html url))).
  set (m3 := stages H 3 html url).
  split.
  - pose proof (stage_album_keeps H (stage_artist H m3) FArtist) as E.
    cbn [field_value] in E. rewrite E by (cbn [In]; intuition discriminate).
    apply stage_artist_clean.
  - pose proof (stage_artist_keeps H m3 FAlbum) as E.
    cbn [field_value] in E.
    rewrite <- E by (cbn [In]; intuition discriminate).
    apply stage_album_clean.
Qed.

End Heuristics.

(** The title of the site alone gives no artist. *)
Example artist_not_site_name :
  md_artist
    (parseOpenGraph Example.web
       (Example.meta (str "og:title") (str "Evolve | Amazon Music")) [])
  = VStr [].
Proof. vm_compute. reflexivity. Qed.
(** *** Titles of the form album, separator, artist *)

(** A separator is a character between two spaces; it cannot start where
    its character does not come second. *)
Lemma startsWith_sep_none (c x : N) s :
  match s with [] => True | y :: _ => y <> c end ->
  startsWith [32; c; 32] (x :: s) = false.
Proof.
  destruct s as [|y s]; intros Hy; cbn [startsWith].
  - apply andb_false_r.
  - apply N.eqb_neq in Hy. rewrite (N.eqb_sym c y), Hy.
    cbn [andb]. apply andb_false_r.
Qed.

Lemma includes_sep_none (c : N) s :
  Forall (fun x => x <> c) s -> includes [32; c; 32] s = false.
Proof.
  induction 1 as [|x s Hx Hs IH]; [reflexivity|].
  cbn [includes]. rewrite IH, orb_false_r.
  apply startsWith_sep_none. destruct Hs; auto.
Qed.

Lemma split_go_sep_none (c : N) cur s :
  Forall (fun x => x <> c) s ->
  split_go [32; c; 32] 0 cur s = [rev cur ++ s].
Proof.
  intros Hs. revert cur. induction Hs as [|x s Hx Hs IH]; intros cur.
  - simpl. rewrite app_nil_r. reflexivity.
  - cbn [split_go]. rewrite startsWith_sep_none by (destruct Hs; auto).
    rewrite IH. simpl. rewrite <- app_assoc. reflexivity.
Qed.

Lemma split_go_sep_once (c : N) cur a b :
  c <> 32 ->
  Forall (fun x => x <> c) a -> Forall (fun x => x <> c) b ->
  split_go [32; c; 32] 0 cur (a ++ [32; c; 32] ++ b) = [rev cur ++ a; b].
Proof.
  intros Hc Ha Hb. revert cur. induction Ha as [|x a Hx Ha IH]; intros cur.
  - cbn [app split_go startsWith length Nat.sub].
    rewrite !N.eqb_refl. cbn [andb].
    rewrite split_go_sep_none by exact Hb. rewrite app_nil_r. reflexivity.
  - cbn [app split_go].
    rewrite startsWith_sep_none.
    + rewrite IH. simpl. rewrite <- app_assoc. reflexivity.
    + destruct Ha; cbn [app]; auto.
Qed.

Lemma split_sep_once (c : N) a b :
  c <> 32 ->
  Forall (fun x => x <> c) a -> Forall (fun x => x <> c) b ->
  split [32; c; 32] (a ++ [32; c; 32] ++ b) = [a; b].
Proof. intros. unfold split. rewrite split_go_sep_once; auto. Qed.

Lemma includes_app_sep sep a b : includes sep (a ++ sep ++ b) = true.
Proof.
  induction a as [|x a IH]; cbn [app].
  - destruct (sep ++ b) eqn:E; cbn [includes]; rewrite <- E, startsWith_app;
      reflexivity.
  - cbn [includes]. rewrite IH. apply orb_true_r.
Qed.

Lemma marker_free_parts a b (c c' : N) :
  marker_free a -> marker_free b ->
  In c [8211; 45; 124] -> In c' [8211; 45; 124] -> c' <> c ->
  Forall (fun x => x <> c') (a ++ [32; c; 32] ++ b).
Proof.
  intros Ha Hb Hc Hc' Hne.
  assert (Hfree : forall s, marker_free s -> Forall (fun x => x <> c') s).
  { intros s Hs. eapply Forall_impl; [exact Hs|]. cbn beta.
    intros x (H1 & H2 & H3). simpl in Hc'.
    destruct Hc' as [<- | [<- | [<- | []]]]; assumption. }
  apply Forall_app. split; [apply Hfree; exact Ha|].
  apply Forall_app. split; [|apply Hfree; exact Hb].
  simpl in Hc, Hc'.
  repeat constructor; try congruence;
    destruct Hc' as [<- | [<- | [<- | []]]]; discriminate.
Qed.

Section AlbumTitle.
Context (H : Host).

Implicit Types (this : AmazonMusicClient (number H)) (w : World H).

Lemma album_from_title_once sep a b names :
  In sep separators -> marker_free a -> marker_free b ->
  album_from_title separators (a ++ sep ++ b) names = (trim b, trim a).
Proof.
  intros Hsep Ha Hb.
  assert (Hfree : forall s (c : N), marker_free s -> In c [8211; 45; 124] ->
                                    Forall (fun x => x <> c) s).
  { intros s c Hs Hc. eapply Forall_impl; [exact Hs|]. cbn beta.
    intros x (H1 & H2 & H3). simpl in Hc.
    destruct Hc as [<- | [<- | [<- | []]]]; assumption. }
  unfold separators, en_dash in *. simpl in Hsep.
  destruct Hsep as [<- | [<- | [<- | []]]]; cbn [album_from_title].
  - rewrite includes_app_sep.
    rewrite split_sep_once by (try discriminate; apply Hfree; simpl; auto).
    reflexivity.
  - rewrite (includes_sep_none 8211)
      by (apply (marker_free_parts a b 45 8211); simpl; auto; discriminate).
    change (str " - ") with [32; 45; 32].
    rewrite includes_app_sep.
    rewrite split_sep_once by (try discriminate; apply Hfree; simpl; auto).
    reflexivity.
  - rewrite (includes_sep_none 8211)
      by (apply (marker_free_parts a b 124 8211); simpl; auto; discriminate).
    change (str " - ") with [32; 45; 32].
    rewrite (includes_sep_none 45)
      by (apply (marker_free_parts a b 124 45); simpl; auto; discriminate).
    change (str " | ") with [32; 124; 32].
    rewrite includes_app_sep.
    rewrite split_sep_once by (try discriminate; apply Hfree; simpl; auto).
    reflexivity.
Qed.

Lemma album_from_title_none title names :
  marker_free title -> album_from_title separators title names = names.
Proof.
  intros Ht.
  assert (Hfree : forall (c : N), In c [8211; 45; 124] ->
                                  Forall (fun x => x <> c) title).
  { intros c Hc. eapply Forall_impl; [exact Ht|]. cbn beta.
    intros x (H1 & H2 & H3). simpl in Hc.
    destruct Hc as [<- | [<- | [<- | []]]]; assumption. }
  unfold separators, en_dash. cbn [album_from_title].
  change (str " - ") with [32; 45; 32].
  change (str " | ") with [32; 124; 32].
  rewrite !includes_sep_none by (apply Hfree; simpl; auto).
  reflexivity.
Qed.

(** X12: The names of an album.  When the title of its page is made of two
    parts around one of the three separators, and neither part holds an
    en-dash, a hyphen or a pipe, the album is named by the first part
    and its artist by the second, both trimmed.  When the title holds
    none of these three characters, the album is named by the whole
    title and its artist is Unknown Artist. *)
Theorem getAlbum_title_split this id w md w' :
  fetchMetadata H this (str "/albums/" ++ id) w = (Ok md, w') ->
  (forall sep a b,
      In sep separators -> marker_free a -> marker_free b ->
      md_title md = a ++ sep ++ b ->
      exists album,
        getAlbum H this id w = (Ok (Some album), w')
        /\ af_name album = trim a
        /\ artist_name (af_artist album) = VStr (trim b))
  /\ (md_title md <> [] -> marker_free (md_title md) ->
      exists album,
        getAlbum H this id w = (Ok (Some album), w')
        /\ af_name album = md_title md
        /\ artist_name (af_artist album) = VStr (str "Unknown Artist")).
Proof.
  intros Hfetch. split.
  - intros sep a b Hsep Ha Hb Et.
    unfold getAlbum, bind, ret. rewrite Hfetch, Et.
    replace (is_empty (a ++ sep ++ b)) with false.
    + eexists. split; [reflexivity|].
      cbn [af_name af_artist artist_name].
      rewrite album_from_title_once by assumption. split; reflexivity.
    + symmetry. apply is_empty_false. intros E.
      apply app_eq_nil in E as [_ E]. apply app_eq_nil in E as [E _].
      unfold separators in Hsep. simpl in Hsep.
      destruct Hsep as [<- | [<- | [<- | []]]]; discriminate.
  - intros Hne Ht. unfold getAlbum, bind, ret. rewrite Hfetch.
    apply is_empty_false in Hne. rewrite Hne.
    eexists. split; [reflexivity|].
    cbn [af_name af_artist artist_name].
    rewrite album_from_title_none by assumption. split; reflexivity.
Qed.

End AlbumTitle.

Lemma getAlbum_title_split_witness :
  exists album,
    getAlbum Example2.web (Example.client Example2.web) (str "B071ALBUM1") 0%nat
    = (Ok (Some album), 1%nat)
    /\ af_name album = trim (str "Evolve")
    /\ artist_name (af_artist album) = VStr (trim (str "Imagine Dragons")).
Proof.
  eapply (proj1 (getAlbum_title_split Example2.web (Example.client Example2.web)
                   (str "B071ALBUM1") 0%nat _ 1%nat eq_refl)
            (str " - ") (str "Evolve") (str "Imagine Dragons")).
  - simpl. auto.
  - repeat constructor; discriminate.
  - repeat constructor; discriminate.
  - vm_compute. reflexivity.
Defined.
(** *** The enrichment of a track by its album *)

Section Enrichment.
Context (H : Host).

Implicit Types (this : AmazonMusicClient (number H)) (w : World H).

(** X13: When the page of a track has a title and an album link that parses,
    and the album of that link is found, the track takes the name of
    its artist, the name of its album and the URL of its album from the
    album; the URL is the one requested for the album, and no search
    link is made (so nothing is percent-encoded). *)
Theorem getTrack_enriched this id w md w1 parsed album w2 :
  fetchMetadata H this (str "/tracks/" ++ id) w = (Ok md, w1) ->
  md_title md <> [] ->
  parseUrl (md_albumUrl md) = Some parsed ->
  getAlbum H this (parsed_id parsed) w1 = (Ok (Some album), w2) ->
  getTrack H this id w
  = (Ok (Some
       {| track_id := id;
          track_name := md_title md;
          track_title := Some (md_title md);
          track_artist := {| artist_name := artist_name (af_artist album);
                             artist_url := Some [] |};
          track_duration :=
            if num_truthy H (md_duration md) then md_duration md
            else num_of_Z H 0;
          track_url := md_url md;
          track_image := Some (md_image md);
          track_album :=
            {| album_name := VStr (af_name album);
               album_url :=
                 Some (baseUrl this ++ str "/albums/" ++ parsed_id parsed)
            |} |}),
     w2).
Proof.
  intros Hfetch Htitle Hparse Halbum.
  assert (Hurl : af_url album
                 = baseUrl this ++ str "/albums/" ++ parsed_id parsed).
  { apply getAlbum_inv in Halbum as (amd & E & _ & ->). cbn [af_url].
    apply (fetchMetadata_ok_url H this (str "albums") (parsed_id parsed)
             w1 amd w2); [simpl; auto | exact E]. }
  assert (Hlink : is_empty (md_albumUrl md) = false).
  { destruct (md_albumUrl md); [discriminate | reflexivity]. }
  unfold getTrack, bind. rewrite Hfetch.
  apply is_empty_false in Htitle. rewrite Htitle, Hlink.
  cbn [negb]. unfold try_catch, bind, ret.
  rewrite Hparse, (parseUrl_id_nonempty _ _ Hparse). cbn [negb].
  rewrite Halbum, Hurl.
  replace (is_empty (baseUrl this ++ str "/albums/" ++ parsed_id parsed))
    with false by (destruct (baseUrl this); reflexivity).
  reflexivity.
Qed.

End Enrichment.

Lemma getTrack_enriched_witness :
  exists t,
    getTrack Example2.web (Example.client Example2.web) (str "B071SONG01") 0%nat
    = (Ok (Some t), 2%nat)
    /\ artist_name (track_artist t) = VStr (str "Imagine Dragons")
    /\ album_name (track_album t) = VStr (str "Evolve")
    /\ album_url (track_album t)
       = Some (str "https://music.amazon.com/albums/B071ALBUM1").
Proof.
  eexists. split.
  - eapply (getTrack_enriched Example2.web (Example.client Example2.web)
              (str "B071SONG01") 0%nat _ 1%nat
              {| parsed_type := str "albums"; parsed_id := str "B071ALBUM1" |}
              _ 2%nat);
      [vm_compute; reflexivity | vm_compute; discriminate
       | vm_compute; reflexivity | vm_compute; reflexivity].
  - vm_compute. repeat split.
Defined.
(** *** What getTrack throws *)

Section TrackErrors.
Context (H : Host).

Implicit Types (this : AmazonMusicClient (number H)) (w : World H).

(** X14: [getTrack] throws in two cases only.  Either the page of the
    track cannot be had, and what [fetchMetadata] throws for it is
    thrown on; or the page has a title, no album was found for it, and
    the search link for its album name cannot be made: the name cannot
    be converted to a string, or it cannot be percent-encoded.
    Nothing thrown while the album is looked up comes out. *)
Theorem getTrack_errors this id w e w' :
  getTrack H this id w = (Throw e, w') ->
  fetchMetadata H this (str "/tracks/" ++ id) w = (Throw e, w')
  \/ exists md w1,
       fetchMetadata H this (str "/tracks/" ++ id) w = (Ok md, w1)
       /\ md_title md <> []
       /\ (e = TypeError \/ e = URIError).
Proof.
  unfold getTrack, bind. intros E.
  destruct (fetchMetadata H this (str "/tracks/" ++ id) w)
    as [[md|e0] w1] eqn:Ef; [|left; injection E as <- <-; reflexivity].
  right. exists md, w1. split; [reflexivity|].
  destruct (is_empty (md_title md)) eqn:Et; [discriminate|].
  apply is_empty_false in Et. split; [exact Et|].
  set (lookup := if negb (is_empty (md_albumUrl md)) then _ else _) in E.
  assert (Hlookup : exists names w2, lookup w1 = (Ok names, w2)).
  { subst lookup. unfold try_catch, bind, ret.
    destruct (negb (is_empty (md_albumUrl md))); [|eauto].
    destruct (parseUrl (md_albumUrl md)) as [parsed|]; [|eauto].
    destruct (negb (is_empty (parsed_id parsed))); [|eauto].
    destruct (getAlbum H this (parsed_id parsed) w1) as [[[a|]|e1] w2];
      eauto. }
  destruct Hlookup as ([[artistName albumName] albumUrl] & w2 & El).
  rewrite El in E.
  destruct (negb (is_empty albumUrl)); [discriminate|].
  unfold encodeURIComponent_value, bind, or_throw, ret, throw in E.
  destruct (ToString H albumName) as [text|];
    [|injection E as <- _; left; reflexivity].
  destruct (encodeURIComponent H text) as [encoded|];
    [discriminate | injection E as <- _; right; reflexivity].
Qed.

End TrackErrors.

Lemma getTrack_errors_witness :
  fetchMetadata Example.web (Example.client Example.web)
    (str "/tracks/" ++ str "B07SURR0GT") 0%nat
  = (Throw URIError, 2%nat)
  \/ exists md w1,
       fetchMetadata Example.web (Example.client Example.web)
         (str "/tracks/" ++ str "B07SURR0GT") 0%nat = (Ok md, w1)
       /\ md_title md <> []
       /\ (URIError = TypeError \/ URIError = URIError).
Proof.
  apply (getTrack_errors Example.web (Example.client Example.web)
           (str "B07SURR0GT") 0%nat).
  vm_compute. reflexivity.
Defined.
(** ** More on the URL parser *)

Lemma exec_inv ic r s caps :
  exec ic r s = Some caps ->
  exists pre t n, s = pre ++ t /\ match_here ic r t = Some (n, caps).
Proof.
  induction s as [|x s IH]; cbn [exec].
  - destruct (match_here ic r []) as [[n c]|] eqn:E; [|discriminate].
    intros [= <-]. exists [], [], n. auto.
  - destruct (match_here ic r (x :: s)) as [[n c]|] eqn:E.
    + intros [= <-]. exists [], (x :: s), n. auto.
    + intros Hs. apply IH in Hs as (pre & t & n & -> & Hm).
      exists (x :: pre), t, n. auto.
Qed.

(** A part of a pattern without groups, followed by the rest of the
    pattern. *)
Lemma rmatch_seq_plain {R} ic r1 r2 s caps
    (k : jsstring -> captures -> option R) x :
  has_group r1 = false ->
  rmatch ic (Seq r1 r2) s caps k = Some x ->
  exists s1 s2, s = s1 ++ s2 /\ lang ic r1 s1 s2
                /\ rmatch ic r2 s2 caps k = Some x.
Proof.
  intros Hg E. rewrite rmatch_Seq in E.
  apply rmatch_sound in E as (s1 & s2 & caps' & -> & Hl & Hc & E).
  rewrite (Hc Hg) in E. eauto.
Qed.

(** A group without groups inside, followed by the rest of the pattern:
    the group holds what its body matched. *)
Lemma rmatch_seq_group {R} ic i r1 r2 s caps
    (k : jsstring -> captures -> option R) x :
  has_group r1 = false ->
  rmatch ic (Seq (Grp i r1) r2) s caps k = Some x ->
  exists s1 s2, s = s1 ++ s2 /\ lang ic r1 s1 s2
                /\ rmatch ic r2 s2 ((i, s1) :: caps) k = Some x.
Proof.
  intros Hg E. rewrite rmatch_Seq, rmatch_Grp in E.
  apply rmatch_sound in E as (s1 & s2 & caps' & -> & Hl & Hc & E).
  rewrite (Hc Hg), take_app_minus in E. eauto.
Qed.

Lemma ci_slash t : ci_eq (str "/") t -> t = [47].
Proof.
  intros Ht. inversion Ht as [|c x l l' Hx Hl]; subst. inversion Hl; subst.
  f_equal. apply (chr_eq_fixed true 47 x); [lia | lia | exact Hx].
Qed.

(** What a match of [URL_PATTERN] at the head of a string is made of,
    and what its two groups hold. *)
Lemma match_here_URL_PATTERN s n caps :
  match_here true URL_PATTERN s = Some (n, caps) ->
  exists scheme sep host kind id tail,
    s = scheme ++ sep ++ host ++ [47] ++ kind ++ [47] ++ id ++ tail
    /\ caps = [(2%nat, id); (1%nat, kind)]
    /\ (ci_eq (str "http") scheme \/ ci_eq (str "https") scheme)
    /\ ci_eq (str "://music.amazon.") sep
    /\ host <> [] /\ Forall (fun x => x <> 47) host
    /\ (exists seg, In seg kind_segments /\ ci_eq seg kind)
    /\ id <> [] /\ Forall (fun x => is_alnum x = true) id
    /\ (tail = [] \/ exists c t, tail = c :: t /\ (c = 47 \/ c = 63)).
Proof.
  unfold match_here. rewrite URL_PATTERN_unfold. intros E.
  apply rmatch_seq_plain in E as (s1 & m1 & -> & Hhttp & E); [|reflexivity].
  apply rmatch_seq_plain in E as (s2 & m2 & -> & Hs & E); [|reflexivity].
  apply rmatch_seq_plain in E as (s3 & m3 & -> & Hsep & E); [|reflexivity].
  apply rmatch_seq_plain in E as (host & m4 & -> & Hhost & E); [|reflexivity].
  apply rmatch_seq_plain in E as (sl1 & m5 & -> & Hsl1 & E); [|reflexivity].
  apply rmatch_seq_group in E as (kind & m6 & -> & Hkind & E); [|reflexivity].
  apply rmatch_seq_plain in E as (sl2 & m7 & -> & Hsl2 & E); [|reflexivity].
  apply rmatch_seq_group in E as (id & tail0 & -> & Hid & E); [|reflexivity].
  apply rmatch_sound in E as (tail & rest & caps' & -> & Htail & Hc & E).
  rewrite (Hc eq_refl) in E. injection E as _ <-.
  apply lang_url_tail in Htail as [-> Htail].
  unfold lit in *.
  apply lang_lit_go in Hhttp, Hsep, Hsl1, Hsl2.
  apply (lang_plus_char true (Cls true [(47, 47)]) _ _ _ eq_refl)
    in Hhost as [Hhost Hhost'].
  apply (lang_plus_char true alnum _ _ _ eq_refl) in Hid as [Hid Hid'].
  apply lang_kind_alts in Hkind.
  apply ci_slash in Hsl1, Hsl2. subst sl1 sl2.
  exists (s1 ++ s2), s3, host, kind, id, tail.
  rewrite app_nil_r, <- ?app_assoc.
  split; [reflexivity|]. split; [reflexivity|].
  split.
  { destruct Hs as [-> | Hs].
    - left. rewrite app_nil_r. exact Hhttp.
    - right. apply lang_lit_go in Hs.
      change (str "https") with (str "http" ++ str "s").
      apply Forall2_app; assumption. }
  split; [exact Hsep|].
  split; [exact Hhost|].
  split; [eapply Forall_impl; [exact Hhost'|]; apply host_char_inv|].
  split; [exact Hkind|].
  split; [exact Hid|].
  split; [eapply Forall_impl; [exact Hid'|]; apply alnum_char_inv|].
  exact Htail.
Qed.

Lemma parseUrl_inv s p :
  parseUrl s = Some p ->
  exists pre scheme sep host tail,
    trim s = pre ++ scheme ++ sep ++ host ++ [47] ++ parsed_type p ++ [47]
               ++ parsed_id p ++ tail
    /\ (ci_eq (str "http") scheme \/ ci_eq (str "https") scheme)
    /\ ci_eq (str "://music.amazon.") sep
    /\ host <> [] /\ Forall (fun x => x <> 47) host
    /\ (exists seg, In seg kind_segments /\ ci_eq seg (parsed_type p))
    /\ parsed_id p <> []
    /\ Forall (fun x => is_alnum x = true) (parsed_id p)
    /\ (tail = [] \/ exists c t, tail = c :: t /\ (c = 47 \/ c = 63)).
Proof.
  unfold parseUrl.
  destruct (exec true URL_PATTERN (trim s)) as [caps|] eqn:E; [|discriminate].
  apply exec_inv in E as (pre & t & n & Es & E).
  apply match_here_URL_PATTERN in E
    as (scheme & sep & host & kind & id & tail & -> & -> & Hscheme & Hsep
        & Hhost & Hhost' & Hkind & Hid & Hid' & Htail).
  cbn [group Nat.eqb].
  destruct (is_empty kind || is_empty id); [discriminate|].
  intros [= <-]. cbn [parsed_type parsed_id].
  exists pre, scheme, sep, host, tail. auto 10.
Qed.

(** X15: What [parseUrl] returns is read off the string: the kind is one of
    the five segments up to the case of its letters, the id is a run of
    letters and digits that is not empty, and the trimmed string has a
    slash, the kind as it is returned, a slash and the id, followed by
    nothing or by a slash or a question mark; so the id is the whole run
    of letters and digits after the kind. *)
Theorem parseUrl_result_wellformed s p :
  parseUrl s = Some p ->
  (exists seg, In seg kind_segments /\ ci_eq seg (parsed_type p))
  /\ parsed_id p <> []
  /\ Forall (fun x => is_alnum x = true) (parsed_id p)
  /\ exists pre tail,
       trim s = pre ++ [47] ++ parsed_type p ++ [47] ++ parsed_id p ++ tail
       /\ (tail = [] \/ exists c t, tail = c :: t /\ (c = 47 \/ c = 63)).
Proof.
  intros E. apply parseUrl_inv in E
    as (pre & scheme & sep & host & tail & E & _ & _ & _ & _ & Hkind & Hid
        & Hid' & Htail).
  split; [exact Hkind|]. split; [exact Hid|]. split; [exact Hid'|].
  exists (pre ++ scheme ++ sep ++ host), tail.
  split; [|exact Htail]. rewrite E, <- !app_assoc. reflexivity.
Qed.

Lemma parseUrl_result_wellformed_witness :
  exists pre tail,
    trim (str " https://music.amazon.com/Albums/B0722ZT1QB/evolve?ref=x ")
    = pre ++ [47] ++ str "Albums" ++ [47] ++ str "B0722ZT1QB" ++ tail
    /\ (tail = [] \/ exists c t, tail = c :: t /\ (c = 47 \/ c = 63)).
Proof.
  exact (proj2 (proj2 (proj2 (parseUrl_result_wellformed
           (str " https://music.amazon.com/Albums/B0722ZT1QB/evolve?ref=x ")
           {| parsed_type := str "Albums"; parsed_id := str "B0722ZT1QB" |}
           eq_refl)))).
Defined.

(** *** A fragment right after the id *)

(** The place of the only occurrence of a character. *)
Lemma unique_split (c : N) l1 l2 m1 m2 :
  ~ In c m1 -> ~ In c m2 ->
  l1 ++ c :: l2 = m1 ++ c :: m2 -> l1 = m1 /\ l2 = m2.
Proof.
  revert m1. induction l1 as [|y l1 IH]; intros m1 H1 H2 E.
  - destruct m1 as [|x m1]; simpl in E.
    + injection E as ->. auto.
    + injection E as -> _. exfalso. apply H1. left. reflexivity.
  - destruct m1 as [|x m1]; simpl in E.
    + injection E as -> <-. exfalso. apply H2. apply in_or_app. right.
      left. reflexivity.
    + injection E as -> E.
      destruct (IH m1 (fun Hin => H1 (or_intror Hin)) H2 E) as [-> ->]. auto.
Qed.

(** The place of the first occurrence of a character. *)
Lemma first_split (c : N) a b a' b' :
  ~ In c a -> ~ In c a' ->
  a ++ c :: b = a' ++ c :: b' -> a = a' /\ b = b'.
Proof.
  revert a'. induction a as [|y a IH]; intros a' H1 H2 E.
  - destruct a' as [|x a']; simpl in E.
    + injection E as ->. auto.
    + injection E as <- _. exfalso. apply H2. left. reflexivity.
  - destruct a' as [|x a']; simpl in E.
    + injection E as -> _. exfalso. apply H1. left. reflexivity.
    + injection E as -> E.
      destruct (IH a' (fun Hin => H1 (or_intror Hin))
                  (fun Hin => H2 (or_intror Hin)) E) as [-> ->]. auto.
Qed.

Lemma ci_eq_not_in (c : N) l s :
  (c < 65 \/ 90 < c) -> (c < 97 \/ 122 < c) ->
  ~ In c l -> ci_eq l s -> ~ In c s.
Proof.
  intros H1 H2 Hl Hs. induction Hs as [|a x l s Hx Hs IH]; [auto|].
  intros [<- | Hin].
  - apply Hl. left. unfold chr_eq in Hx. apply orb_true_iff in Hx as [Hx | Hx].
    + apply N.eqb_eq in Hx. auto.
    + simpl in Hx. apply N.eqb_eq in Hx. subst a.
      unfold swapcase.
      destruct (N.leb_spec 65 x), (N.leb_spec x 90), (N.leb_spec 97 x),
        (N.leb_spec x 122); simpl; lia.
  - apply IH; [|exact Hin]. intros Hin'. apply Hl. right. exact Hin'.
Qed.

Lemma trim_keep x mid y :
  is_ws x = false -> is_ws y = false ->
  trim (x :: mid ++ [y]) = x :: mid ++ [y].
Proof.
  intros Hx Hy. unfold trim. rewrite trimStart_keep by exact Hx.
  change (x :: mid ++ [y]) with ((x :: mid) ++ [y]).
  rewrite trimEnd_app_keep by exact Hy. reflexivity.
Qed.

Lemma trim_keep_between s x a q z :
  is_ws x = false -> is_ws z = false ->
  s = (x :: a) ++ q ++ [z] -> trim s = s.
Proof.
  intros Hx Hz ->. cbn [app]. rewrite app_assoc. apply trim_keep; assumption.
Qed.

Lemma Forall_not_in (c : N) (P : N -> Prop) s :
  ~ P c -> Forall P s -> ~ In c s.
Proof.
  intros Hc Hs Hin. rewrite Forall_forall in Hs. apply Hc, Hs.
  apply list_elem_of_In. exact Hin.
Qed.

(** X16: A URL of the service whose id is followed at once by a fragment is
    not parsed: the pattern lets a slash or a question mark follow the
    id, not a hash.  (A fragment after a slug or a query is accepted.) *)
Theorem parseUrl_fragment_after_id scheme host kind id frag :
  scheme = str "http" \/ scheme = str "https" ->
  Forall (fun x => x <> 47 /\ x <> 58) host ->
  In kind kind_segments ->
  Forall (fun x => is_alnum x = true) id ->
  Forall (fun x => x <> 47 /\ x <> 63 /\ x <> 58 /\ is_ws x = false) frag ->
  parseUrl (scheme ++ str "://music.amazon." ++ host ++ str "/" ++ kind
              ++ str "/" ++ id ++ str "#" ++ frag) = None.
Proof.
  intros Hscheme Hhost Hkind Hid Hfrag.
  destruct (parseUrl _) as [p|] eqn:E; [exfalso | reflexivity].
  apply parseUrl_inv in E
    as (pre & scheme' & sep' & host' & tail' & E & Hscheme' & Hsep' & Hhost'
        & Hhost'' & (seg & Hseg & Hkind') & Hid' & Hid'' & Htail').
  (* the string is not changed by trim *)
  assert (Hlast : exists q z, str "#" ++ frag = q ++ [z] /\ is_ws z = false).
  { destruct (exists_last (l := str "#" ++ frag)) as (q & z & Eq);
      [discriminate|].
    exists q, z. split; [exact Eq|].
    assert (Hz : In z (str "#" ++ frag))
      by (rewrite Eq; apply in_or_app; right; left; reflexivity).
    destruct Hz as [<- | Hz]; [reflexivity|].
    rewrite Forall_forall in Hfrag.
    apply list_elem_of_In in Hz. apply Hfrag in Hz. tauto. }
  destruct Hlast as (q & z & Eq & Hz).
  assert (Hfirst : exists a, scheme = 104 :: a)
    by (destruct Hscheme as [-> | ->]; eexists; reflexivity).
  destruct Hfirst as (a & Ea).
  rewrite trim_keep_between
    with (x := 104)
         (a := a ++ str "://music.amazon." ++ host ++ str "/" ++ kind
                 ++ str "/" ++ id)
         (q := q) (z := z) in E;
    [| reflexivity | exact Hz | ].
  2:{ rewrite Ea, <- Eq. cbn [app]. rewrite <- !app_assoc. reflexivity. }
  (* the colon of the separator is the only colon *)
  unfold ci_eq in Hsep'.
  change (str "://music.amazon.") with (58 :: str "//music.amazon.") in Hsep'.
  destruct sep' as [|x0 sep'']; [inversion Hsep'|].
  apply Forall2_cons_1 in Hsep' as [Hx0 Hsep''].
  apply (chr_eq_fixed true 58 x0) in Hx0; [|lia..]. subst x0.
  assert (Hseg58 : ~ In 58 kind).
  { simpl in Hkind. destruct Hkind as [<- | [<- | [<- | [<- | [<- | []]]]]];
      vm_compute; intuition discriminate. }
  assert (Hseg47 : ~ In 47 kind).
  { simpl in Hkind. destruct Hkind as [<- | [<- | [<- | [<- | [<- | []]]]]];
      vm_compute; intuition discriminate. }
  assert (Hid58 : ~ In 58 id).
  { eapply Forall_not_in; [|exact Hid]. cbn beta. discriminate. }
  assert (Hid47 : ~ In 47 id).
  { eapply Forall_not_in; [|exact Hid]. cbn beta. discriminate. }
  assert (Hcolon : ~ In 58 (str "//music.amazon." ++ host ++ str "/" ++ kind
                              ++ str "/" ++ id ++ str "#" ++ frag)).
  { intros Hin. repeat (apply in_app_or in Hin as [Hin | Hin]).
    - vm_compute in Hin. intuition discriminate.
    - eapply Forall_not_in; [|exact Hhost|exact Hin]. cbn beta. tauto.
    - vm_compute in Hin. intuition discriminate.
    - exact (Hseg58 Hin).
    - vm_compute in Hin. intuition discriminate.
    - exact (Hid58 Hin).
    - vm_compute in Hin. intuition discriminate.
    - eapply Forall_not_in; [|exact Hfrag|exact Hin]. cbn beta. tauto. }
  assert (Hscheme58 : ~ In 58 scheme).
  { destruct Hscheme as [-> | ->]; vm_compute; intuition discriminate. }
  change (str "://music.amazon.") with (58 :: str "//music.amazon.") in E.
  cbn [app] in E.
  replace (pre ++ scheme' ++ 58 :: sep'' ++ host' ++ 47 :: parsed_type p
             ++ 47 :: parsed_id p ++ tail')
    with ((pre ++ scheme') ++ 58 :: sep'' ++ host' ++ 47 :: parsed_type p
             ++ 47 :: parsed_id p ++ tail')
    in E by (rewrite <- app_assoc; reflexivity).
  symmetry in E. apply unique_split in E as [_ E]; [|exact Hscheme58|exact Hcolon].
  (* the separators have the same length *)
  assert (Elen : length sep'' = length (str "//music.amazon.")).
  { symmetry. eapply Forall2_length. exact Hsep''. }
  apply app_inj_1 in E as [_ E]; [|exact Elen].
  (* the host ends at the first slash, and so does the kind *)
  assert (Hhost47 : ~ In 47 host).
  { eapply Forall_not_in; [|exact Hhost]. cbn beta. tauto. }
  apply first_split in E as [_ E];
    [|eapply Forall_not_in; [|exact Hhost''];
      cbn beta; intros Hn; exact (Hn eq_refl)
     |exact Hhost47].
  apply first_split in E as [_ E]; [| |exact Hseg47].
  2:{ apply (ci_eq_not_in 47 seg (parsed_type p)); [lia | lia | | exact Hkind'].
      simpl in Hseg.
      destruct Hseg as [<- | [<- | [<- | [<- | [<- | []]]]]];
        vm_compute; intuition discriminate. }
  (* the id of the match is a run of letters and digits of the id, and a
     letter, a digit or the hash follows it *)
  remember (parsed_id p) as id' eqn:Eid'. clear Eid' Hid'.
  change (str "#") with [35] in E.
  clear -E Hid Hid'' Htail'. revert id' Hid'' E.
  induction Hid as [|x id Hx Hid IH]; intros id' Hid'' E.
  - destruct id' as [|y id']; cbn [app] in E.
    + destruct Htail' as [-> | (c & t & -> & Hc)]; [discriminate E|].
      injection E as -> _. destruct Hc as [Hc | Hc]; discriminate Hc.
    + injection E as -> _. inversion Hid'' as [|? ? Hy _]; subst.
      discriminate Hy.
  - destruct id' as [|y id']; cbn [app] in E.
    + destruct Htail' as [-> | (c & t & -> & Hc)]; [discriminate E|].
      injection E as -> _. destruct Hc as [-> | ->]; discriminate Hx.
    + injection E as -> E. inversion Hid''; subst. eapply IH; eauto.
Qed.

Lemma parseUrl_fragment_after_id_witness :
  parseUrl (str "https" ++ str "://music.amazon." ++ str "com" ++ str "/"
              ++ str "tracks" ++ str "/" ++ str "B079TPJ3G4" ++ str "#"
              ++ str "top") = None.
Proof.
  apply parseUrl_fragment_after_id.
  - right. reflexivity.
  - repeat constructor; discriminate.
  - simpl. auto.
  - repeat constructor.
  - repeat constructor; discriminate.
Defined.
(** *** URLs written in any case *)

(** A pattern letter matches itself and its capital. *)
Lemma ci_letter (c x : N) :
  97 <= c <= 122 -> chr_eq true c x = true -> x = c \/ x = c - 32.
Proof.
  intros Hc. unfold chr_eq, swapcase. cbn [andb]. intros E.
  apply orb_true_iff in E as [E | E]; [apply N.eqb_eq in E; auto|].
  apply N.eqb_eq in E. revert E.
  destruct (N.leb_spec 65 x), (N.leb_spec x 90), (N.leb_spec 97 x),
    (N.leb_spec x 122); simpl; lia.
Qed.

Lemma ci_eq_length l s : ci_eq l s -> length l = length s.
Proof. apply Forall2_length. Qed.

Lemma letter_alnum x : 65 <= x <= 90 \/ 97 <= x <= 122 -> is_alnum x = true.
Proof.
  intros Hx. apply existsb_exists.
  destruct Hx; [exists (65, 90) | exists (97, 122)];
    (split; [simpl; auto | apply in_range_spec; lia]).
Qed.

(** A string that reads as pattern letters starts with a letter, which
    [trim] keeps. *)
Lemma ci_eq_not_ws_head l s t :
  ci_eq l s -> match l with c :: _ => 97 <= c <= 122 | [] => False end ->
  trimStart (s ++ t) = s ++ t.
Proof.
  intros Hs Hl. destruct Hs as [|c x l s Hx Hs]; [contradiction|].
  cbn [app]. apply trimStart_keep. apply alnum_not_ws, letter_alnum.
  destruct (ci_letter c x Hl Hx) as [-> | ->]; lia.
Qed.

Section CaseSteps.
Context {R : Type}.
Implicit Types (k : jsstring -> captures -> option R).

Lemma rmatch_lit_ci l t s caps k :
  ci_eq l t -> rmatch true (lit_go l) (t ++ s) caps k = k s caps.
Proof.
  intros Ht. rewrite rmatch_lit_go, (lit_prefix_ci true l t s Ht).
  rewrite (ci_eq_length l t Ht), drop_app_length. reflexivity.
Qed.

Lemma kind_alts_ci seg kind rest caps k v :
  In seg kind_segments -> ci_eq seg kind ->
  k rest caps = Some v ->
  rmatch true
    (alts [lit "albums"; lit "tracks"; lit "artists"; lit "playlists";
           lit "user-playlists"])
    (kind ++ rest) caps k = Some v.
Proof.
  intros Hseg Hci Hk. cbn [alts]. unfold lit.
  rewrite !rmatch_Alt, !rmatch_lit_go.
  pose proof (lit_prefix_ci true seg kind rest Hci) as Hm.
  assert (Hd : drop (length seg) (kind ++ rest) = rest)
    by (rewrite (ci_eq_length seg kind Hci); apply drop_app_length).
  assert (Hhead : exists x1 x2 kind', kind = x1 :: x2 :: kind').
  { simpl in Hseg.
    destruct Hseg as [<- | [<- | [<- | [<- | [<- | []]]]]];
      inversion Hci as [|? x1 ? ? _ Hci']; inversion Hci' as [|? x2 ? ? _ _];
      eauto. }
  destruct Hhead as (x1 & x2 & kind' & ->).
  simpl in Hseg.
  destruct Hseg as [<- | [<- | [<- | [<- | [<- | []]]]]].
  all: pose proof Hci as Hci0.
  all: apply Forall2_cons_1 in Hci0 as [Hx1 Hci0].
  all: apply Forall2_cons_1 in Hci0 as [Hx2 _].
  all: apply ci_letter in Hx1; [|vm_compute; split; discriminate].
  all: apply ci_letter in Hx2; [|vm_compute; split; discriminate].
  all: rewrite Hm, Hd.
  all: destruct Hx1 as [-> | ->], Hx2 as [-> | ->].
  all: eval_lits; rewrite ?Hk; reflexivity.
Qed.
End CaseSteps.

Lemma ci_eq_nonempty seg kind :
  In seg kind_segments -> ci_eq seg kind -> is_empty kind = false.
Proof.
  intros Hseg Hci. destruct Hci; [|reflexivity].
  simpl in Hseg. decompose [or] Hseg; try discriminate; contradiction.
Qed.

Lemma tail_ok_trimEnd tail : tail_ok tail -> tail_ok (trimEnd tail).
Proof.
  intros [-> | (c & t & -> & Hc & Ht)]; [left; reflexivity|].
  right. exists c, (trimEnd t).
  split; [|split; [exact Hc | apply trimEnd_prefix; exact Ht]].
  apply trimEnd_cons_keep. destruct Hc as [-> | ->]; reflexivity.
Qed.

Lemma match_here_ci scheme sep host seg kind id tail :
  (ci_eq (str "http") scheme \/ ci_eq (str "https") scheme) ->
  ci_eq (str "://music.amazon.") sep ->
  host <> [] -> Forall (fun x => x <> 47) host ->
  In seg kind_segments -> ci_eq seg kind ->
  id <> [] -> Forall (fun x => is_alnum x = true) id ->
  tail_ok tail ->
  let s := scheme ++ sep ++ host ++ str "/" ++ kind ++ str "/" ++ id ++ tail in
  match_here true URL_PATTERN s = Some (length s, [(2%nat, id); (1%nat, kind)]).
Proof.
  intros Hscheme Hsep Hhost Hhost' Hseg Hkind Hid Hid' Htail s.
  unfold match_here. rewrite URL_PATTERN_unfold.
  set (kfin := fun (s' : jsstring) (caps : captures) =>
                 Some ((length s - length s')%nat, caps)).
  set (rest1 := sep ++ host ++ str "/" ++ kind ++ str "/" ++ id ++ tail) in *.
  set (after_s := Seq (lit "://music.amazon.") _).
  assert (Hrest1 : rmatch true after_s rest1 [] kfin
                   = Some (length s, [(2%nat, id); (1%nat, kind)])).
  { subst after_s rest1. rewrite rmatch_Seq. unfold lit at 1.
    rewrite (rmatch_lit_ci _ _ _ _ _ Hsep). rewrite rmatch_Seq.
    destruct host as [|h host]; [contradiction|].
    cbn [app]. eapply rmatch_plus_run; [reflexivity | | reflexivity | ].
    { eapply Forall_impl; [exact Hhost'|]. apply host_char. }
    rewrite rmatch_Seq. unfold lit at 1. rewrite rmatch_lit_app.
    rewrite rmatch_Seq, rmatch_Grp.
    apply (kind_alts_ci seg); [exact Hseg | exact Hkind |].
    rewrite take_app_minus.
    rewrite rmatch_Seq. unfold lit at 1. rewrite rmatch_lit_app.
    rewrite rmatch_Seq, rmatch_Grp.
    destruct id as [|i id]; [contradiction|].
    cbn [app]. eapply rmatch_plus_run; [reflexivity | | | ].
    { eapply Forall_impl; [exact Hid'|]. apply alnum_char. }
    { apply tail_ok_head. exact Htail. }
    apply url_tail_some; [exact Htail|].
    subst kfin. cbv beta.
    change (i :: id ++ tail) with ((i :: id) ++ tail).
    rewrite take_app_minus.
    change (length (@nil N)) with 0%nat. rewrite Nat.sub_0_r. reflexivity. }
  assert (Hcolon : exists sep', sep = 58 :: sep').
  { unfold ci_eq in Hsep.
    change (str "://music.amazon.") with (58 :: str "//music.amazon.") in Hsep.
    destruct sep as [|x0 sep']; [inversion Hsep|].
    apply Forall2_cons_1 in Hsep as [Hx0 _].
    apply (chr_eq_fixed true 58 x0) in Hx0; [|lia..]. subst x0. eauto. }
  destruct Hscheme as [Hscheme | Hscheme].
  - subst s. fold rest1. rewrite rmatch_Seq. unfold lit at 1.
    rewrite (rmatch_lit_ci _ _ _ _ _ Hscheme).
    rewrite rmatch_Seq. apply rmatch_opt_skip; [|exact Hrest1].
    destruct Hcolon as [sep' Es]. subst rest1. rewrite Es.
    unfold lit. rewrite rmatch_lit_go. reflexivity.
  - change (str "https") with (str "http" ++ str "s") in Hscheme.
    apply Forall2_app_inv_l in Hscheme as (s1 & s2 & H1 & H2 & Es).
    assert (Ess : s = s1 ++ s2 ++ rest1)
      by (subst s rest1; rewrite Es, <- app_assoc; reflexivity).
    rewrite Ess.
    rewrite rmatch_Seq. unfold lit at 1. rewrite (rmatch_lit_ci _ _ _ _ _ H1).
    rewrite rmatch_Seq. apply rmatch_opt_take.
    unfold lit at 1. rewrite (rmatch_lit_ci _ _ _ _ _ H2).
    replace (length rest1 <? length (s2 ++ rest1))%nat with true.
    + rewrite <- Ess. exact Hrest1.
    + symmetry. apply Nat.ltb_lt. rewrite length_app.
      apply ci_eq_length in H2. simpl in H2. lia.
Qed.

(** X17: [parseUrl] reads the scheme, the name of the service and the
    kind up to the case of their letters, and returns the kind as it is
    written: a URL of the service in any case, followed by nothing or by
    a slash or a question mark and anything on the same line, parses to
    its kind, as written, and its id. *)
Theorem parseUrl_case_insensitive s kind id :
  canonical_url_ci s kind id ->
  parseUrl s = Some {| parsed_type := kind; parsed_id := id |}.
Proof.
  intros (scheme & sep & host & tail & -> & Hscheme & Hsep & Hhost & Hhost'
          & (seg & Hseg & Hkind) & Hid & Hid' & Htail).
  assert (Etrim : trim (scheme ++ sep ++ host ++ str "/" ++ kind ++ str "/"
                          ++ id ++ tail)
                  = scheme ++ sep ++ host ++ str "/" ++ kind ++ str "/"
                      ++ id ++ trimEnd tail).
  { unfold trim.
    assert (Hstart : forall t, trimStart (scheme ++ t) = scheme ++ t).
    { intros t. destruct Hscheme as [Hs | Hs];
        apply (ci_eq_not_ws_head _ _ _ Hs); vm_compute; split; discriminate. }
    rewrite Hstart.
    destruct (exists_last Hid) as (q & z & ->).
    assert (Hz : is_ws z = false).
    { apply alnum_not_ws. apply Forall_app in Hid' as [_ Hz].
      inversion Hz; assumption. }
    rewrite <- !app_assoc. cbn [app].
    rewrite !app_assoc. rewrite trimEnd_app_keep by exact Hz. reflexivity. }
  pose proof (match_here_ci scheme sep host seg kind id (trimEnd tail)
                Hscheme Hsep Hhost Hhost' Hseg Hkind Hid Hid'
                (tail_ok_trimEnd tail Htail)) as Em.
  cbv zeta in Em.
  unfold parseUrl. rewrite Etrim, (exec_here _ _ _ _ _ Em).
  cbn [group Nat.eqb]. rewrite (ci_eq_nonempty seg kind Hseg Hkind).
  destruct id; [contradiction | reflexivity].
Qed.

Lemma parseUrl_case_insensitive_witness :
  parseUrl (str "HTTPS://Music.Amazon.co.uk/Albums/B0722ZT1QB/evolve?ref=x#top")
  = Some {| parsed_type := str "Albums"; parsed_id := str "B0722ZT1QB" |}.
Proof.
  apply parseUrl_case_insensitive.
  exists (str "HTTPS"), (str "://Music.Amazon."), (str "co.uk"),
    (str "/evolve?ref=x#top").
  split; [reflexivity|].
  split; [right; repeat constructor|].
  split; [repeat constructor|].
  split; [discriminate|].
  split; [repeat constructor; discriminate|].
  split; [exists (str "albums"); split; [simpl; auto | repeat constructor]|].
  split; [discriminate|].
  split; [repeat constructor|].
  right. exists 47, (str "evolve?ref=x#top").
  split; [reflexivity|]. split; [left; reflexivity|].
  repeat constructor.
Defined.
(** *** The strings on which [parseUrl] returns a reference *)
















(** A slug may hold a line break, what follows a slash or a question mark
    after it may not. *)
Example parseUrl_slug_line_break :
  parseUrl (str "https://music.amazon.com/tracks/abc/" ++ [10] ++ str "y")
  = Some {| parsed_type := str "tracks"; parsed_id := str "abc" |}
  /\ parseUrl (str "https://music.amazon.com/tracks/abc?" ++ [10] ++ str "y")
     = None
  /\ parseUrl (str "https://music.amazon.com/tracks/abc/y/" ++ [10] ++ str "z")
     = None.
Proof. repeat split; vm_compute; reflexivity. Qed.
(** ** More on search *)

Section SearchFacts.
Context (H : Host).

Implicit Types (this : AmazonMusicClient (number H)) (w : World H)
  (t : Track (number H)).

(** A property of the tracks pushed by the rounds of a loop holds of all
    the results of the loop. *)
Lemma harvest_Forall (P : Track (number H) -> Prop) visit limit :
  (forall m results seen w results' seen' w',
      visit m results seen w = (Ok (results', seen'), w') ->
      Forall P results -> Forall P results') ->
  forall matches results seen w results' seen' w',
    harvest H visit limit matches results seen w
    = (Ok (results', seen'), w') ->
    Forall P results -> Forall P results'.
Proof.
  intros Hvisit. induction matches as [|m matches IH];
    intros results seen w results' seen' w' E HP.
  - injection E as <- _ _. exact HP.
  - cbn [harvest] in E.
    destruct (length_ge (length results) limit);
      [injection E as <- _ _; exact HP|].
    unfold bind in E.
    destruct (visit m results seen w) as [[[r1 s1]|e] w1] eqn:Ev;
      [|discriminate].
    cbn [fst snd] in E. eapply IH; [exact E|].
    eapply Hvisit; eauto.
Qed.

Lemma visit_track_link_Forall (P : Track (number H) -> Prop) this :
  (forall u parsed w t w',
      parseUrl u = Some parsed -> parsed_type parsed = str "tracks" ->
      getTrack H this (parsed_id parsed) w = (Ok (Some t), w') -> P t) ->
  (forall u parsed,
      parseUrl u = Some parsed -> parsed_type parsed = str "tracks" ->
      P (placeholder H (str "Track ") parsed)) ->
  forall m results seen w results' seen' w',
    visit_track_link H this m results seen w = (Ok (results', seen'), w') ->
    Forall P results -> Forall P results'.
Proof.
  intros Hget Hph m results seen w results' seen' w' E HP.
  unfold visit_track_link, try_catch, bind, or_throw, ret, throw in E.
  destruct (decodeURIComponent H (group_or_empty 1 m)) as [decodedUrl|];
    [|injection E as <- _ _; exact HP].
  destruct (includes (str "music.amazon.com") decodedUrl); cbn [negb] in E;
    [|injection E as <- _ _; exact HP].
  destruct (parseUrl decodedUrl) as [parsed|] eqn:Eparse;
    [|injection E as <- _ _; exact HP].
  destruct (jseqb (parsed_type parsed) (str "tracks")) eqn:Etype;
    [|injection E as <- _ _; exact HP].
  apply bool_decide_eq_true in Etype.
  destruct (bool_decide (parsed_id parsed ∈ seen));
    [injection E as <- _ _; exact HP|].
  cbn [negb andb] in E.
  destruct (getTrack H this (parsed_id parsed) w) as [[[t|]|e] w1] eqn:Et;
    injection E as <- _ _.
  - apply Forall_app. split; [exact HP|].
    constructor; [|constructor]. eapply Hget; eauto.
  - exact HP.
  - apply Forall_app. split; [exact HP|].
    constructor; [|constructor]. eapply Hph; eauto.
Qed.

Lemma visit_link_Forall (P : Track (number H) -> Prop) :
  (forall u parsed,
      parseUrl u = Some parsed -> parsed_type parsed = str "tracks" ->
      P (placeholder H (str "Result ") parsed)) ->
  forall m results seen w results' seen' w',
    visit_link H m results seen w = (Ok (results', seen'), w') ->
    Forall P results -> Forall P results'.
Proof.
  intros Hph m results seen w results' seen' w' E HP.
  unfold visit_link, try_catch, bind, or_throw, ret, throw in E.
  destruct (decodeURIComponent H (group_or_empty 1 m)) as [decodedUrl|];
    [|injection E as <- _ _; exact HP].
  destruct (includes (str "music.amazon.com") decodedUrl); cbn [negb] in E;
    [|injection E as <- _ _; exact HP].
  destruct (parseUrl decodedUrl) as [parsed|] eqn:Eparse;
    [|injection E as <- _ _; exact HP].
  destruct (jseqb (parsed_type parsed) (str "tracks")) eqn:Etype;
    [|injection E as <- _ _; exact HP].
  apply bool_decide_eq_true in Etype.
  destruct (bool_decide (parsed_id parsed ∈ seen));
    injection E as <- _ _; [exact HP|].
  apply Forall_app. split; [exact HP|].
  constructor; [|constructor]. eapply Hph; eauto.
Qed.

(** The results of [search] come from its first loop, or all of them
    from its second loop. *)
Lemma search_phases (P1 P2 : Track (number H) -> Prop) this :
  (forall u parsed w t w',
      parseUrl u = Some parsed -> parsed_type parsed = str "tracks" ->
      getTrack H this (parsed_id parsed) w = (Ok (Some t), w') -> P1 t) ->
  (forall u parsed,
      parseUrl u = Some parsed -> parsed_type parsed = str "tracks" ->
      P1 (placeholder H (str "Track ") parsed)) ->
  (forall u parsed,
      parseUrl u = Some parsed -> parsed_type parsed = str "tracks" ->
      P2 (placeholder H (str "Result ") parsed)) ->
  forall query limit_opt w results w',
    search H this query limit_opt w = (Ok results, w') ->
    Forall P1 results \/ Forall P2 results.
Proof.
  intros Hget Hph1 Hph2 query limit_opt w results w' E.
  unfold search, try_catch, bind, or_throw, ret, throw in E.
  destruct (encodeURIComponent H query) as [encoded|];
    [|injection E as <- _; auto].
  destruct (fetch H (search_request H (tracks_search_url encoded)) w)
    as [[response|e] w1]; [|injection E as <- _; auto].
  destruct (resp_ok response); cbn [negb] in E; [|injection E as <- _; auto].
  destruct (resp_text response w1) as [[html|e] w2];
    [|injection E as <- _; auto].
  destruct (harvest H (visit_track_link H this) _ _ [] ∅ w2)
    as [[[r1 s1]|e] w3] eqn:E1; [|injection E as <- _; auto].
  assert (HP1 : Forall P1 r1).
  { eapply (harvest_Forall P1); [|exact E1 | constructor].
    apply visit_track_link_Forall; assumption. }
  destruct r1 as [|t r1]; cbn [length Nat.eqb] in E;
    [|injection E as <- _; auto].
  destruct (fetch H (search_request H (site_search_url encoded)) w3)
    as [[response2|e] w4]; [|injection E as <- _; auto].
  destruct (resp_ok response2); [|injection E as <- _; auto].
  destruct (resp_text response2 w4) as [[html2|e] w5];
    [|injection E as <- _; auto].
  destruct (harvest H (visit_link H) _ _ [] s1 w5)
    as [[[r2 s2]|e] w6] eqn:E2; [|injection E as <- _; auto].
  cbn [fst] in E. injection E as <- _. right.
  eapply (harvest_Forall P2); [|exact E2 | constructor].
  apply visit_link_Forall. assumption.
Qed.

(** X18: The id and the URL of each track that [search] returns: the id is a
    run of letters and digits that is not empty, and the URL is the
    page of the track at the base URL of the client (a track with its
    metadata) or at the site of the service (a placeholder). *)
Theorem search_results_ids this query limit_opt w results w' :
  search H this query limit_opt w = (Ok results, w') ->
  Forall (fun t =>
            track_id t <> []
            /\ Forall (fun x => is_alnum x = true) (track_id t)
            /\ (track_url t = baseUrl this ++ str "/tracks/" ++ track_id t
                \/ track_url t
                   = str "https://music.amazon.com/tracks/" ++ track_id t))
         results.
Proof.
  intros E.
  set (P := fun t : Track (number H) =>
              track_id t <> []
              /\ Forall (fun x => is_alnum x = true) (track_id t)
              /\ (track_url t = baseUrl this ++ str "/tracks/" ++ track_id t
                  \/ track_url t
                     = str "https://music.amazon.com/tracks/" ++ track_id t)).
  assert (Hph : forall label u parsed,
             parseUrl u = Some parsed -> parsed_type parsed = str "tracks" ->
             P (placeholder H label parsed)).
  { intros label u parsed Hp Ht.
    apply parseUrl_inv in Hp
      as (_ & _ & _ & _ & _ & _ & _ & _ & _ & _ & _ & Hid & Hid' & _).
    unfold P, placeholder. cbn [track_id track_url]. rewrite Ht.
    split; [exact Hid|]. split; [exact Hid'|]. right. reflexivity. }
  assert (Hget : forall u parsed w0 t w1,
             parseUrl u = Some parsed -> parsed_type parsed = str "tracks" ->
             getTrack H this (parsed_id parsed) w0 = (Ok (Some t), w1) ->
             P t).
  { intros u parsed w0 t w1 Hp Ht Eg.
    apply parseUrl_inv in Hp
      as (_ & _ & _ & _ & _ & _ & _ & _ & _ & _ & _ & Hid & Hid' & _).
    apply getTrack_inv in Eg as (md & w2 & Ef & _ & Eid & _ & _ & Eurl & _).
    unfold P. rewrite Eid, Eurl. split; [exact Hid|]. split; [exact Hid'|].
    left.
    apply (fetchMetadata_ok_url H this (str "tracks") (parsed_id parsed)
             w0 md w2); [simpl; auto | exact Ef]. }
  destruct (search_phases P P this Hget (Hph (str "Track "))
              (Hph (str "Result ")) query limit_opt w results w' E)
    as [HP | HP]; exact HP.
Qed.

(** X19: The broad search is consulted only when the search for tracks has
    found nothing: either every result comes from the first loop, with
    its metadata or as a placeholder named Track and its id, or every
    result is a placeholder of the second loop, named Result and its
    id.  The two kinds never come together. *)
Theorem search_phase_exclusive this query limit_opt w results w' :
  search H this query limit_opt w = (Ok results, w') ->
  Forall (fun t => title_is_name t \/ is_track_placeholder t) results
  \/ Forall is_result_placeholder results.
Proof.
  intros E.
  apply (search_phases
           (fun t => title_is_name t \/ is_track_placeholder t)
           is_result_placeholder this) with (query := query)
           (limit_opt := limit_opt) (w := w) (w' := w'); [| | |exact E].
  - intros u parsed w0 t w1 _ _ Eg. left.
    apply getTrack_shape in Eg as [_ Et]. exact Et.
  - intros u parsed _ _. right. split; reflexivity.
  - intros u parsed _ _. split; reflexivity.
Qed.

(** X20: With the base URL of the service, the URL of every track that
    [search] returns parses back to the kind of tracks and the id of
    the track. *)
Theorem search_urls_parse_back this query limit_opt w results w' :
  baseUrl this = str "https://music.amazon.com" ->
  search H this query limit_opt w = (Ok results, w') ->
  Forall (fun t =>
            parseUrl (track_url t)
            = Some {| parsed_type := str "tracks"; parsed_id := track_id t |})
         results.
Proof.
  intros Hbase E.
  set (P := fun t : Track (number H) =>
              parseUrl (track_url t)
              = Some {| parsed_type := str "tracks";
                        parsed_id := track_id t |}).
  assert (Hcanon : forall id,
             id <> [] -> Forall (fun x => is_alnum x = true) id ->
             parseUrl (str "https://music.amazon.com/tracks/" ++ id)
             = Some {| parsed_type := str "tracks"; parsed_id := id |}).
  { intros id Hid Hid'. apply parseUrl_canonical.
    exists (str "https"), (str "com"), [].
    rewrite app_nil_r. split; [reflexivity|].
    split; [right; reflexivity|]. split; [discriminate|].
    split; [repeat constructor; discriminate|].
    split; [simpl; auto|]. split; [exact Hid|]. split; [exact Hid'|].
    left. reflexivity. }
  assert (Hph : forall label u parsed,
             parseUrl u = Some parsed -> parsed_type parsed = str "tracks" ->
             P (placeholder H label parsed)).
  { intros label u parsed Hp Ht.
    apply parseUrl_inv in Hp
      as (_ & _ & _ & _ & _ & _ & _ & _ & _ & _ & _ & Hid & Hid' & _).
    unfold P, placeholder. cbn [track_id track_url]. rewrite Ht.
    apply Hcanon; assumption. }
  assert (Hget : forall u parsed w0 t w1,
             parseUrl u = Some parsed -> parsed_type parsed = str "tracks" ->
             getTrack H this (parsed_id parsed) w0 = (Ok (Some t), w1) ->
             P t).
  { intros u parsed w0 t w1 Hp Ht Eg.
    apply parseUrl_inv in Hp
      as (_ & _ & _ & _ & _ & _ & _ & _ & _ & _ & _ & Hid & Hid' & _).
    apply getTrack_inv in Eg as (md & w2 & Ef & _ & Eid & _ & _ & Eurl & _).
    unfold P. rewrite Eid, Eurl.
    rewrite (fetchMetadata_ok_url H this (str "tracks") (parsed_id parsed)
               w0 md w2 (or_introl eq_refl) Ef).
    rewrite Hbase. apply Hcanon; assumption. }
  destruct (search_phases P P this Hget (Hph (str "Track "))
              (Hph (str "Result ")) query limit_opt w results w' E)
    as [HP | HP]; exact HP.
Qed.

End SearchFacts.
Lemma search_results_ids_witness :
  exists results,
    search Example.web (Example.client Example.web) (str "imagine dragons")
           (Some (Int 5)) 0%nat = (Ok results, 4%nat)
    /\ Forall (fun t =>
                 track_id t <> []
                 /\ Forall (fun x => is_alnum x = true) (track_id t)
                 /\ (track_url t
                     = baseUrl (Example.client Example.web) ++ str "/tracks/"
                       ++ track_id t
                     \/ track_url t
                        = str "https://music.amazon.com/tracks/" ++ track_id t))
              results.
Proof.
  eexists. split; [vm_compute; reflexivity|].
  eapply (search_results_ids Example.web (Example.client Example.web)
            (str "imagine dragons") (Some (Int 5)) 0%nat _ 4%nat).
  vm_compute. reflexivity.
Defined.

Lemma search_phase_exclusive_witness :
  exists results,
    search Example.web (Example.client Example.web) (str "imagine dragons")
           (Some (Int 5)) 0%nat = (Ok results, 4%nat)
    /\ (Forall (fun t => title_is_name t \/ is_track_placeholder t) results
        \/ Forall is_result_placeholder results).
Proof.
  eexists. split; [vm_compute; reflexivity|].
  eapply (search_phase_exclusive Example.web (Example.client Example.web)
            (str "imagine dragons") (Some (Int 5)) 0%nat _ 4%nat).
  vm_compute. reflexivity.
Defined.

Lemma search_urls_parse_back_witness :
  exists results,
    search Example.web (Example.client Example.web) (str "imagine dragons")
           (Some (Int 5)) 0%nat = (Ok results, 4%nat)
    /\ Forall (fun t =>
                 parseUrl (track_url t)
                 = Some {| parsed_type := str "tracks";
                           parsed_id := track_id t |})
              results.
Proof.
  eexists. split; [vm_compute; reflexivity|].
  eapply (search_urls_parse_back Example.web (Example.client Example.web)
            (str "imagine dragons") (Some (Int 5)) 0%nat _ 4%nat eq_refl).
  vm_compute. reflexivity.
Defined.
Section SearchLinks.
Context (H : Host).

Implicit Types (this : AmazonMusicClient (number H)) (w : World H)
  (t : Track (number H)).

Lemma visit_track_link_id this m results seen w results' seen' w' :
  visit_track_link H this m results seen w = (Ok (results', seen'), w') ->
  results' = results
  \/ exists t, results' = results ++ [t]
               /\ link_track_id H m = Some (track_id t).
Proof.
  unfold visit_track_link, link_track_id, try_catch, bind, or_throw, ret, throw.
  destruct (decodeURIComponent H (group_or_empty 1 m)) as [decodedUrl|];
    [|intros [= <- _ _]; auto].
  destruct (includes (str "music.amazon.com") decodedUrl); cbn [negb];
    [|intros [= <- _ _]; auto].
  destruct (parseUrl decodedUrl) as [parsed|]; [|intros [= <- _ _]; auto].
  destruct (jseqb (parsed_type parsed) (str "tracks"));
    [|intros [= <- _ _]; auto].
  destruct (bool_decide (parsed_id parsed ∈ seen));
    [intros [= <- _ _]; auto|].
  cbn [negb andb].
  destruct (getTrack H this (parsed_id parsed) w) as [[[t|]|e] w1] eqn:Et;
    intros [= <- _ _]; [| auto |].
  - right. exists t. split; [reflexivity|].
    apply getTrack_shape in Et as [-> _]. reflexivity.
  - right. eexists. split; reflexivity.
Qed.

Lemma visit_link_id m results seen w results' seen' w' :
  visit_link H m results seen w = (Ok (results', seen'), w') ->
  results' = results
  \/ exists t, results' = results ++ [t]
               /\ link_track_id H m = Some (track_id t).
Proof.
  unfold visit_link, link_track_id, try_catch, bind, or_throw, ret, throw.
  destruct (decodeURIComponent H (group_or_empty 1 m)) as [decodedUrl|];
    [|intros [= <- _ _]; auto].
  destruct (includes (str "music.amazon.com") decodedUrl); cbn [negb];
    [|intros [= <- _ _]; auto].
  destruct (parseUrl decodedUrl) as [parsed|]; [|intros [= <- _ _]; auto].
  destruct (jseqb (parsed_type parsed) (str "tracks"));
    [|intros [= <- _ _]; auto].
  destruct (bool_decide (parsed_id parsed ∈ seen));
    intros [= <- _ _]; [auto|].
  right. eexists. split; reflexivity.
Qed.

(** What a loop adds to the results follows the links it went through. *)
Lemma harvest_ids visit limit :
  (forall m results seen w results' seen' w',
      visit m results seen w = (Ok (results', seen'), w') ->
      results' = results
      \/ exists t, results' = results ++ [t]
                   /\ link_track_id H m = Some (track_id t)) ->
  forall matches results seen w results' seen' w',
    harvest H visit limit matches results seen w
    = (Ok (results', seen'), w') ->
    exists added,
      results' = results ++ added
      /\ sublist (map track_id added) (omap (link_track_id H) matches).
Proof.
  intros Hvisit. induction matches as [|m matches IH];
    intros results seen w results' seen' w' E.
  - injection E as <- _ _. exists []. rewrite app_nil_r.
    split; [reflexivity | constructor].
  - cbn [harvest] in E.
    destruct (length_ge (length results) limit).
    { injection E as <- _ _. exists []. rewrite app_nil_r.
      split; [reflexivity | apply sublist_nil_l]. }
    unfold bind in E.
    destruct (visit m results seen w) as [[[r1 s1]|e] w1] eqn:Ev;
      [|discriminate].
    cbn [fst snd] in E.
    apply IH in E as (added & -> & Hsub).
    apply Hvisit in Ev as [-> | (t & -> & Hid)].
    + exists added. split; [reflexivity|].
      cbn [omap list_omap]. destruct (link_track_id H m);
        [apply sublist_cons|]; exact Hsub.
    + exists (t :: added). rewrite <- app_assoc. split; [reflexivity|].
      cbn [omap list_omap map]. rewrite Hid. apply sublist_skip. exact Hsub.
Qed.

(** X21: The tracks that [search] returns are tracks that the links of
    one search page point to, in the order of these links: when the list
    is not empty, the ids of its tracks, in their order, are among the
    ids of the track links of the first page, or of the second page,
    in the order of the page. *)
Theorem search_results_from_links this query limit_opt w results w' :
  search H this query limit_opt w = (Ok results, w') ->
  results <> [] ->
  exists encoded url w1 html w2,
    encodeURIComponent H query = Some encoded
    /\ (url = tracks_search_url encoded \/ url = site_search_url encoded)
    /\ search_page H url w1 = Some (html, w2)
    /\ sublist (map track_id results) (track_link_ids H html).
Proof.
  intros E Hne.
  unfold search, try_catch, bind, or_throw, ret, throw in E.
  destruct (encodeURIComponent H query) as [encoded|];
    [|injection E as <- _; contradiction].
  destruct (fetch H (search_request H (tracks_search_url encoded)) w)
    as [[response|e] w1] eqn:Ef; [|injection E as <- _; contradiction].
  destruct (resp_ok response) eqn:Eok; cbn [negb] in E;
    [|injection E as <- _; contradiction].
  destruct (resp_text response w1) as [[html|e] w2] eqn:Et;
    [|injection E as <- _; contradiction].
  assert (Hpage1 : search_page H (tracks_search_url encoded) w
                   = Some (html, w2)).
  { unfold search_page. rewrite Ef, Eok, Et. reflexivity. }
  destruct (harvest H (visit_track_link H this) _ _ [] ∅ w2)
    as [[[r1 s1]|e] w3] eqn:E1; [|injection E as <- _; contradiction].
  apply (harvest_ids (visit_track_link H this)) in E1
    as (added & -> & Hsub); [|apply visit_track_link_id].
  cbn [app] in E.
  destruct added as [|t added]; cbn [length Nat.eqb] in E.
  - destruct (fetch H (search_request H (site_search_url encoded)) w3)
      as [[response2|e] w4] eqn:Ef2; [|injection E as <- _; contradiction].
    destruct (resp_ok response2) eqn:Eok2;
      [|injection E as <- _; contradiction].
    destruct (resp_text response2 w4) as [[html2|e] w5] eqn:Et2;
      [|injection E as <- _; contradiction].
    destruct (harvest H (visit_link H) _ _ [] s1 w5)
      as [[[r2 s2]|e] w6] eqn:E2; [|injection E as <- _; contradiction].
    apply (harvest_ids (visit_link H)) in E2
      as (added2 & -> & Hsub2); [|apply visit_link_id].
    cbn [fst app] in E. injection E as <- _.
    exists encoded, (site_search_url encoded), w3, html2, w5.
    split; [reflexivity|]. split; [auto|]. split; [|exact Hsub2].
    unfold search_page. rewrite Ef2, Eok2, Et2. reflexivity.
  - injection E as <- _.
    exists encoded, (tracks_search_url encoded), w, html, w2. auto.
Qed.

End SearchLinks.

Lemma search_results_from_links_witness :
  exists results,
    search Example.web (Example.client Example.web) (str "imagine dragons")
           (Some (Int 5)) 0%nat = (Ok results, 4%nat)
    /\ exists encoded url w1 html w2,
         encodeURIComponent Example.web (str "imagine dragons") = Some encoded
         /\ (url = tracks_search_url encoded \/ url = site_search_url encoded)
         /\ search_page Example.web url w1 = Some (html, w2)
         /\ sublist (map track_id results) (track_link_ids Example.web html).
Proof.
  eexists. split; [vm_compute; reflexivity|].
  eapply (search_results_from_links Example.web (Example.client Example.web)
            (str "imagine dragons") (Some (Int 5)) 0%nat _ 4%nat);
    [vm_compute; reflexivity | discriminate].
Defined.

(** The ids of the track links of the example page: the first track
    twice, and the track whose page is unreachable. *)
Example track_link_ids_example :
  track_link_ids Example.web Example.results_html
  = [str "B079TPJ3G4"; str "B079TPJ3G4"; str "B07XYZ1234"].
Proof. vm_compute. reflexivity. Qed.
(** ** loadFromUrl *)

Section Loading.
Context (H : Host).

Implicit Types (this : AmazonMusicClient (number H)) (w : World H).

(** X22: On a canonical URL, [loadFromUrl] is the assembler of the kind of
    the URL, run on its id. *)
Theorem loadFromUrl_dispatch this s id :
  (canonical_url s (str "tracks") id ->
   loadFromUrl H this s
   = bind H (getTrack H this id) (fun r => ret H (option_map OfTrack r)))
  /\ (canonical_url s (str "albums") id ->
      loadFromUrl H this s
      = bind H (getAlbum H this id) (fun r => ret H (option_map OfAlbum r)))
  /\ (canonical_url s (str "artists") id ->
      loadFromUrl H this s
      = bind H (getArtist H this id) (fun r => ret H (option_map OfArtist r)))
  /\ (canonical_url s (str "playlists") id ->
      loadFromUrl H this s
      = bind H (getPlaylist H this id)
          (fun r => ret H (option_map OfPlaylist r)))
  /\ (canonical_url s (str "user-playlists") id ->
      loadFromUrl H this s
      = bind H (getUserPlaylist H this id)
          (fun r => ret H (option_map OfPlaylist r))).
Proof.
  repeat split; intros Hc; unfold loadFromUrl;
    rewrite (parseUrl_canonical _ _ _ Hc); reflexivity.
Qed.

(** X23: [loadFromUrl] returns null, and makes no request, on a string that
    does not end with a URL of the service, and also on a URL whose kind
    is not written in lower case: [parseUrl] accepts the kind in any
    case, and the dispatch on the kind does not. *)
Theorem loadFromUrl_rejects this s w :
  (~ ends_with_url (trim s) -> loadFromUrl H this s w = (Ok None, w))
  /\ (forall p,
         parseUrl s = Some p -> ~ In (parsed_type p) kind_segments ->
         loadFromUrl H this s w = (Ok None, w)).
Proof.
  split.
  - intros Hs. unfold loadFromUrl.
    destruct (parseUrl s) as [p|] eqn:E; [|reflexivity].
    exfalso. apply Hs. eapply parseUrl_some_shape. exact E.
  - intros p E Hkind. unfold loadFromUrl. rewrite E.
    assert (Hne : forall seg, In seg kind_segments ->
                              jseqb (parsed_type p) seg = false).
    { intros seg Hseg. apply bool_decide_eq_false. intros Ep.
      apply Hkind. rewrite Ep. exact Hseg. }
    rewrite !Hne by (simpl; auto 6). reflexivity.
Qed.

End Loading.

Lemma canonical_track_example :
  canonical_url (str "https://music.amazon.com/tracks/B079TPJ3G4?ref=x")
                (str "tracks") (str "B079TPJ3G4").
Proof.
  exists (str "https"), (str "com"), (str "?ref=x").
  split; [reflexivity|]. split; [right; reflexivity|].
  split; [discriminate|].
  split; [repeat constructor; discriminate|].
  split; [simpl; auto|].
  split; [discriminate|].
  split; [repeat constructor|].
  right. exists 63, (str "ref=x").
  split; [reflexivity|]. split; [right; reflexivity|].
  repeat constructor.
Qed.

Lemma loadFromUrl_dispatch_witness :
  loadFromUrl Example.web (Example.client Example.web)
    (str "https://music.amazon.com/tracks/B079TPJ3G4?ref=x")
  = bind Example.web
      (getTrack Example.web (Example.client Example.web) (str "B079TPJ3G4"))
      (fun r => ret Example.web (option_map OfTrack r)).
Proof.
  exact (proj1 (loadFromUrl_dispatch Example.web (Example.client Example.web)
                  (str "https://music.amazon.com/tracks/B079TPJ3G4?ref=x")
                  (str "B079TPJ3G4"))
           canonical_track_example).
Defined.

(** A URL of the service has a colon. *)
Lemma ends_with_url_colon s : ends_with_url s -> In 58 s.
Proof.
  intros (pre & m & -> & (scheme & sep & host & kind & id & tail & -> & _
                          & Hsep & _)).
  inversion Hsep as [|c x l l' Hx Hl]; subst.
  apply (chr_eq_fixed true 58 x) in Hx; [|lia..]. subst x.
  apply in_or_app. right. apply in_or_app. right. left. reflexivity.
Qed.

Lemma loadFromUrl_rejects_witness :
  loadFromUrl Example.web (Example.client Example.web)
    (str "music.amazon.com/tracks/B079TPJ3G4") 0%nat
  = (Ok None, 0%nat)
  /\ loadFromUrl Example.web (Example.client Example.web)
       (str "https://music.amazon.com/Tracks/B079TPJ3G4") 0%nat
     = (Ok None, 0%nat).
Proof.
  split.
  - apply (proj1 (loadFromUrl_rejects Example.web (Example.client Example.web)
                    (str "music.amazon.com/tracks/B079TPJ3G4") 0%nat)).
    intros Hs. apply ends_with_url_colon in Hs. vm_compute in Hs.
    intuition discriminate.
  - apply (proj2 (loadFromUrl_rejects Example.web (Example.client Example.web)
                    (str "https://music.amazon.com/Tracks/B079TPJ3G4") 0%nat)
             {| parsed_type := str "Tracks"; parsed_id := str "B079TPJ3G4" |}
             eq_refl).
    simpl. intuition discriminate.
Defined.
(** ** What the configuration decides *)

Section Configuration.
Context (H : Host).

Implicit Types (this : AmazonMusicClient (number H)).

(** X24: Only the API URL and the timeout of a configuration have an effect:
    two clients built from configurations that agree on these two, and
    may differ in the search limit and in the user agent, behave the
    same in every operation.  In particular the search limit of the
    client does not bound what [search] returns. *)
Theorem operations_ignore_searchLimit
    (config1 config2 : AmazonMusicConfig (number H)) this1 this2 :
  apiUrl config1 = apiUrl config2 ->
  cfg_timeout config1 = cfg_timeout config2 ->
  constructor H config1 = Ok this1 ->
  constructor H config2 = Ok this2 ->
  getTrack H this1 = getTrack H this2
  /\ getAlbum H this1 = getAlbum H this2
  /\ getArtist H this1 = getArtist H this2
  /\ getPlaylist H this1 = getPlaylist H this2
  /\ getUserPlaylist H this1 = getUserPlaylist H this2
  /\ search H this1 = search H this2
  /\ loadFromUrl H this1 = loadFromUrl H this2.
Proof.
  intros Hurl Htime E1 E2. unfold constructor in E1, E2.
  rewrite <- Hurl, <- Htime in E2.
  destruct (is_empty (apiUrl config1) || is_empty (trim (apiUrl config1)));
    [discriminate|].
  injection E1 as <-. injection E2 as <-.
  set (b := if endsWith (str "/") (apiUrl config1) then _ else _).
  set (t := match cfg_timeout config1 with Some _ => _ | None => _ end).
  generalize (match cfg_searchLimit config1 with
              | Some limit => if jsint_truthy limit
                              then math_max (Int 1) (math_min limit (Int 10))
                              else Int 5
              | None => Int 5
              end).
  generalize (match cfg_searchLimit config2 with
              | Some limit => if jsint_truthy limit
                              then math_max (Int 1) (math_min limit (Int 10))
                              else Int 5
              | None => Int 5
              end).
  intros l2 l1. repeat split.
Qed.

End Configuration.

Lemma operations_ignore_searchLimit_witness :
  search Example.web
    {| baseUrl := str "https://music.amazon.com"; searchLimit := Int 1;
       timeout := 10000%Z |}
  = search Example.web
      {| baseUrl := str "https://music.amazon.com"; searchLimit := Int 10;
         timeout := 10000%Z |}.
Proof.
  exact (proj1 (proj2 (proj2 (proj2 (proj2 (proj2
           (operations_ignore_searchLimit Example.web
              (Example.config Example.web (Some (Int 1)))
              (Example.config Example.web (Some (Int 50)))
              _ _ eq_refl eq_refl eq_refl eq_refl))))))).
Defined.
(** ** The routes *)

Section RouteFacts.
Context (H : Host).
Variable parseInt_limit : jsstring -> jsint.

Implicit Types (w : World H).

(** The client of the routes is always built: base URL of the service,
    search limit 10, timeout 10000. *)
Lemma getClient_ok : getClient H = Ok (Example.client H).
Proof.
  unfold getClient, constructor, Example.client.
  cbn [apiUrl cfg_searchLimit cfg_timeout].
  change (is_empty (str "https://music.amazon.com")
          || is_empty (trim (str "https://music.amazon.com"))) with false.
  change (endsWith (str "/") (str "https://music.amazon.com")) with false.
  cbv iota. cbn [jsint_truthy math_min math_max Z.eqb negb].
  destruct (num_truthy H (num_of_Z H 10000)); reflexivity.
Qed.

(** X25: The search route answers 400 and makes no request when the query
    parameter is missing or empty; otherwise it answers 200 with the
    list that [search] returns for the query, the limit being read off
    the limit parameter, or off the text 5 when that is missing or
    empty.  It never answers 500. *)
Theorem route_search_status query limit w :
  (param_given query = None ->
   route_search H parseInt_limit query limit w
   = (Ok (json_error (str "Query parameter is required") 400), w))
  /\ (forall q,
         param_given query = Some q ->
         exists tracks w',
           search H (Example.client H) q
             (Some (parseInt_limit (param_or limit (str "5")))) w
           = (Ok tracks, w')
           /\ route_search H parseInt_limit query limit w
              = (Ok (json_data tracks), w')).
Proof.
  split.
  - intros E. unfold route_search, try_catch. rewrite E. reflexivity.
  - intros q E.
    destruct (search_spec H (Example.client H) q
                (Some (parseInt_limit (param_or limit (str "5")))) w)
      as (tracks & w' & Es & _).
    exists tracks, w'. split; [exact Es|].
    unfold route_search, try_catch, bind. rewrite E, getClient_ok.
    cbn [of_result ret]. rewrite Es. reflexivity.
Qed.

(** X26: The search route returns at most as many tracks as its limit
    parameter says, when that reads as an integer that is not negative,
    and no track twice; without a limit parameter, or with an empty one,
    the limit is what the text 5 reads as. *)
Theorem route_search_limit query limit q z w :
  param_given query = Some q ->
  parseInt_limit (param_or limit (str "5")) = Int z ->
  (0 <= z)%Z ->
  (param_given limit = None -> param_or limit (str "5") = str "5")
  /\ exists tracks w',
       route_search H parseInt_limit query limit w
       = (Ok (json_data tracks), w')
       /\ (Z.of_nat (length tracks) <= z)%Z
       /\ NoDup (map track_id tracks).
Proof.
  intros Eq Ez Hz. split.
  - destruct limit as [[|c l]|]; [reflexivity | discriminate | reflexivity].
  - destruct (search_spec H (Example.client H) q
                (Some (parseInt_limit (param_or limit (str "5")))) w)
      as (tracks & w' & Es & Hnd & _ & Hlim).
    exists tracks, w'. split; [|split; [|exact Hnd]].
    + unfold route_search, try_catch, bind. rewrite Eq, getClient_ok.
      cbn [of_result ret]. rewrite Es. reflexivity.
    + rewrite Ez in Hlim. cbn [within_limit] in Hlim. lia.
Qed.

(** X27: The route that parses a URL makes no request and never answers 500:
    it answers 200 or 400.  It answers 200 with the kind and the id on
    a canonical URL, and 400 when the parameter is missing or empty or
    does not end with a URL of the service. *)
Theorem route_parse_url_status url w :
  (exists reply,
      route_parse_url H url w = (Ok reply, w)
      /\ (reply_status reply = 200%Z \/ reply_status reply = 400%Z))
  /\ (forall u kind id,
         url = Some u -> canonical_url u kind id ->
         route_parse_url H url w
         = (Ok (json_data {| parsed_type := kind; parsed_id := id |}), w))
  /\ (param_given url = None ->
      route_parse_url H url w
      = (Ok (json_error (str "URL parameter is required") 400), w))
  /\ (forall u,
         param_given url = Some u -> ~ ends_with_url (trim u) ->
         route_parse_url H url w
         = (Ok (json_error (str "Invalid Amazon Music URL") 400), w)).
Proof.
  unfold route_parse_url, try_catch, bind. rewrite getClient_ok.
  cbn [of_result ret]. split; [|split; [|split]].
  - destruct (param_given url) as [u|]; [|eexists; split; [reflexivity|auto]].
    destruct (parseUrl u); eexists; (split; [reflexivity|]); auto.
  - intros u kind id -> Hc.
    assert (Hu : param_given (Some u) = Some u).
    { destruct Hc as (scheme & host & tail & -> & [-> | ->] & _);
        reflexivity. }
    rewrite Hu, (parseUrl_canonical _ _ _ Hc). reflexivity.
  - intros ->. reflexivity.
  - intros u -> Hu.
    destruct (parseUrl u) as [p|] eqn:E; [|reflexivity].
    exfalso. apply Hu. eapply parseUrl_some_shape. exact E.
Qed.

(** X28: When the page of a resource is answered with a status that is not
    OK, its route answers 500, and the error of the body gives the
    status and the status text after the words Request failed. *)
Theorem routes_upstream_failure id w response w1 :
  resp_ok response = false ->
  let message :=
    str "Request failed: HTTP " ++ num_toString H (resp_status response)
    ++ str ": " ++ resp_statusText response in
  let answered path :=
    fetch H (metadata_request H (Example.client H) path) w
    = (Ok response, w1) in
  (answered (str "/tracks/" ++ id) ->
   route_song H id w = (Ok (json_error message 500), w1))
  /\ (answered (str "/albums/" ++ id) ->
      route_album H id w = (Ok (json_error message 500), w1))
  /\ (answered (str "/artists/" ++ id) ->
      route_artist H id w = (Ok (json_error message 500), w1))
  /\ (answered (str "/playlists/" ++ id) ->
      route_playlist H id w = (Ok (json_error message 500), w1))
  /\ (answered (str "/user-playlists/" ++ id) ->
      route_community_playlist H id w = (Ok (json_error message 500), w1)).
Proof.
  intros Hok message answered. subst answered. cbv beta.
  repeat split; intros E;
    apply (fetchMetadata_not_ok H _ _ _ _ _ E) in Hok;
    unfold route_song, route_album, route_artist, route_playlist,
      route_community_playlist, try_catch, bind;
    rewrite getClient_ok; cbn [of_result ret];
    unfold getTrack, getAlbum, getArtist, getPlaylist, getUserPlaylist, bind;
    rewrite Hok; reflexivity.
Qed.

(** X29: When the page of a resource is fetched and no title is extracted
    from it, its route answers 404 with its own message. *)
Theorem routes_not_found id w md w' :
  md_title md = [] ->
  let fetched path :=
    fetchMetadata H (Example.client H) path w = (Ok md, w') in
  (fetched (str "/tracks/" ++ id) ->
   route_song H id w = (Ok (json_error (str "Track not found") 404), w'))
  /\ (fetched (str "/albums/" ++ id) ->
      route_album H id w = (Ok (json_error (str "Album not found") 404), w'))
  /\ (fetched (str "/artists/" ++ id) ->
      route_artist H id w
      = (Ok (json_error (str "Artist not found") 404), w'))
  /\ (fetched (str "/playlists/" ++ id) ->
      route_playlist H id w
      = (Ok (json_error (str "Playlist not found") 404), w'))
  /\ (fetched (str "/user-playlists/" ++ id) ->
      route_community_playlist H id w
      = (Ok (json_error (str "User playlist not found") 404), w')).
Proof.
  intros Ht fetched. subst fetched. cbv beta.
  repeat split; intros E;
    unfold route_song, route_album, route_artist, route_playlist,
      route_community_playlist, try_catch, bind;
    rewrite getClient_ok; cbn [of_result ret];
    unfold getTrack, getAlbum, getArtist, getPlaylist, getUserPlaylist, bind;
    rewrite E, Ht; reflexivity.
Qed.

(** X30: The route that loads a URL answers 400 when the parameter is missing
    or empty, and 404 when it does not end with a URL of the service;
    in both cases it makes no request. *)
Theorem route_load_url_rejects url w :
  (param_given url = None ->
   route_load_url H url w
   = (Ok (json_error (str "URL parameter is required") 400), w))
  /\ (forall u,
         param_given url = Some u -> ~ ends_with_url (trim u) ->
         route_load_url H url w
         = (Ok (json_error (str "Could not load content from URL") 404), w)).
Proof.
  unfold route_load_url, try_catch, bind. rewrite getClient_ok.
  cbn [of_result ret]. split.
  - intros ->. reflexivity.
  - intros u -> Hu. unfold loadFromUrl.
    destruct (parseUrl u) as [p|] eqn:E; [|reflexivity].
    exfalso. apply Hu. eapply parseUrl_some_shape. exact E.
Qed.

End RouteFacts.
Lemma route_search_status_witness :
  route_search Example.web (fun s => Int (Example.parseInt s)) (Some []) None
    0%nat
  = (Ok (json_error (str "Query parameter is required") 400), 0%nat)
  /\ exists tracks w',
       search Example.web (Example.client Example.web) (str "imagine dragons")
         (Some (Int 5)) 0%nat
       = (Ok tracks, w')
       /\ route_search Example.web (fun s => Int (Example.parseInt s))
            (Some (str "imagine dragons")) None 0%nat
          = (Ok (json_data tracks), w').
Proof.
  split.
  - exact (proj1 (route_search_status Example.web
                    (fun s => Int (Example.parseInt s)) (Some []) None 0%nat)
             eq_refl).
  - exact (proj2 (route_search_status Example.web
                    (fun s => Int (Example.parseInt s))
                    (Some (str "imagine dragons")) None 0%nat)
             (str "imagine dragons") eq_refl).
Defined.

Lemma route_parse_url_status_witness :
  route_parse_url Example.web
    (Some (str "https://music.amazon.com/tracks/B079TPJ3G4?ref=x")) 0%nat
  = (Ok (json_data {| parsed_type := str "tracks";
                      parsed_id := str "B079TPJ3G4" |}), 0%nat)
  /\ route_parse_url Example.web (Some (str "B079TPJ3G4")) 0%nat
     = (Ok (json_error (str "Invalid Amazon Music URL") 400), 0%nat).
Proof.
  split.
  - exact (proj1 (proj2 (route_parse_url_status Example.web
                           (Some (str "https://music.amazon.com/tracks/B079TPJ3G4?ref=x"))
                           0%nat))
             _ _ _ eq_refl canonical_track_example).
  - apply (proj2 (proj2 (proj2 (route_parse_url_status Example.web
                                  (Some (str "B079TPJ3G4")) 0%nat)))
             (str "B079TPJ3G4") eq_refl).
    intros Hs. apply ends_with_url_colon in Hs. vm_compute in Hs.
    intuition discriminate.
Defined.

Lemma routes_upstream_failure_witness :
  route_artist Example2.web (str "B071GONE01") 0%nat
  = (Ok (json_error (str "Request failed: HTTP 503: Service Unavailable") 500),
     1%nat).
Proof.
  exact (proj1 (proj2 (proj2 (routes_upstream_failure Example2.web
                                (str "B071GONE01") 0%nat
                                {| resp_ok := false; resp_status := 503%Z;
                                   resp_statusText := str "Service Unavailable";
                                   resp_text := fun w' => (Ok [], w') |}
                                1%nat eq_refl)))
           eq_refl).
Defined.

Lemma routes_not_found_witness :
  route_album Example.web (str "B000000000") 0%nat
  = (Ok (json_error (str "Album not found") 404), 1%nat).
Proof.
  exact (proj1 (proj2 (routes_not_found Example.web (str "B000000000") 0%nat
                         (parseOpenGraph Example.web Example.bare_html
                            (str "https://music.amazon.com/albums/B000000000"))
                         1%nat eq_refl))
           eq_refl).
Defined.

Lemma route_load_url_rejects_witness :
  route_load_url Example.web None 0%nat
  = (Ok (json_error (str "URL parameter is required") 400), 0%nat)
  /\ route_load_url Example.web (Some (str "B079TPJ3G4")) 0%nat
     = (Ok (json_error (str "Could not load content from URL") 404), 0%nat).
Proof.
  split.
  - exact (proj1 (route_load_url_rejects Example.web None 0%nat) eq_refl).
  - apply (proj2 (route_load_url_rejects Example.web (Some (str "B079TPJ3G4"))
                    0%nat) (str "B079TPJ3G4") eq_refl).
    intros Hs. apply ends_with_url_colon in Hs. vm_compute in Hs.
    intuition discriminate.
Defined.

Lemma route_search_limit_witness :
  exists tracks w',
    route_search Example.web (fun s => Int (Example.parseInt s))
      (Some (str "imagine dragons")) (Some (str "1")) 0%nat
    = (Ok (json_data tracks), w')
    /\ (Z.of_nat (length tracks) <= 1)%Z
    /\ NoDup (map track_id tracks).
Proof.
  apply (route_search_limit Example.web (fun s => Int (Example.parseInt s))
           (Some (str "imagine dragons")) (Some (str "1"))
           (str "imagine dragons") 1%Z 0%nat eq_refl eq_refl).
  lia.
Defined.
